(** * VLSV: the AMR mesh index (amr_mesh.cpp) and the VLSV readers (vlsvreader2.cpp)

    A shallow embedding of the two translation units and the properties
    established about them.

    - [Machine]: fixed-width unsigned arithmetic as the C++ types have it.
    - [amr]: the block addressing, the block table and refine / coarsen of
      [amr::AmrMesh].
    - [vlsv]: [VLSVReader::readArray], [VLSVReader::loadArray],
      [VLSVReader::getArrayInfo], [VLSVReader::getArrayAttributes] and the
      collective [VLSVParReader::getArrayInfo] and
      [VLSVParReader::getArrayAttributes]. *)

From Stdlib Require Import ZArith Lia List Bool.
From Stdlib Require Floats Uint63.
From stdpp Require Import gmap strings.

Local Open Scope Z_scope.

(* ===================================================================== *)
(** * Machine arithmetic *)
(* ===================================================================== *)

Module Machine.

(** [uint32_t] and [uint64_t] values are integers in [0, 2^32) and
    [0, 2^64); every operation on them is taken modulo the width.  Reduction
    modulo [2^w] commutes with [+], [-] and [*], so an expression built from
    these three only is reduced once, at its outside. *)
Definition wrap32 (x : Z) : Z := x mod 2 ^ 32.
Definition wrap64 (x : Z) : Z := x mod 2 ^ 64.
Definition wrap8 (x : Z) : Z := x mod 2 ^ 8.

(** Two's complement reading of a 64-bit pattern ([streamoff], [streamsize]). *)
Definition signed64 (x : Z) : Z :=
  let u := wrap64 x in if u <? 2 ^ 63 then u else u - 2 ^ 64.

(** Two's complement reading of a 32-bit pattern ([int]). *)
Definition signed32 (x : Z) : Z :=
  let u := wrap32 x in if u <? 2 ^ 31 then u else u - 2 ^ 32.

(** Conversion of a non-negative integer-valued [double] to [uint32_t] and to
    [uint64_t].  Inside the target range the conversion is exact.  Outside it
    C++ leaves the result undefined; the model takes what the x86-64 code of
    the Makefile's compiler produces (the low 32 bits of the 64-bit
    truncation, and 0 past the 64-bit range). *)
Definition double_to_uint32 (v : Z) : Z := if v <? 2 ^ 63 then wrap32 v else 0.
Definition double_to_uint64 (v : Z) : Z := if v <? 2 ^ 64 then v else 0.

(** The [double] nearest to a non-negative integer below [2^1024]: 53 bits
    are kept, rounding to nearest, ties to even.  Every integer below [2^53]
    is a [double]. *)
Definition round_double (x : Z) : Z :=
  if x <? 2 ^ 53 then x
  else
    let e := Z.log2 x - 52 in
    let q := x / 2 ^ e in
    let r := x mod 2 ^ e in
    let up := (2 ^ (e - 1) <? r) || ((2 ^ (e - 1) =? r) && Z.odd q) in
    (if up then q + 1 else q) * 2 ^ e.

End Machine.

(* ===================================================================== *)
(** * namespace amr *)
(* ===================================================================== *)

Module amr.
Import Machine.

(** Modelled from the spec: amr_mesh.h, which declares the two id types, is
    not part of the sources; the spec gives [GlobalID] as "a 64-bit unsigned
    integer" and [LocalID] as an "unsigned integer" handle; both are taken
    as [uint64_t]. *)
Definition GlobalID := Z.
Definition LocalID := Z.

(** Modelled from the spec: amr_mesh.h is not part of the sources; the spec
    calls these "a reserved sentinel value" and "the invalid sentinel"; they
    are taken as the largest 64-bit value. *)
Definition INVALID_GLOBALID : GlobalID := 2 ^ 64 - 1.
Definition INVALID_LOCALID : LocalID := 2 ^ 64 - 1.

(** The four callback slots.  [None] is the NULL pointer.  A callback cannot
    reach the private block table; it only produces local ids. *)
Definition CallbackCoarsenBlock := list GlobalID -> list LocalID -> GlobalID -> LocalID.
Definition CallbackCreateBlock := GlobalID -> LocalID.
Definition CallbackDeleteBlock := GlobalID -> LocalID -> bool.
Definition CallbackRefineBlock := GlobalID -> LocalID -> list GlobalID -> list LocalID.

(** Modelled from the spec: the declaration of [class AmrMesh] (amr_mesh.h)
    is not part of the sources; the members are those amr_mesh.cpp uses.
    [bbox] is the spec's bounding box of "six unsigned integers", taken as
    [uint32_t] like the constructor's arguments and the locals that receive
    [bbox[n]*...]; [N_blocks0] likewise; [refLevelMaxAllowed] is the
    [uint8_t] of the constructor; [offsets] is the [std::vector<GlobalID>],
    [globalIDs] the [std::unordered_map<GlobalID,LocalID>], [meshLimits] six
    [double]. *)
Record AmrMesh := mkAmrMesh {
  bbox : list Z;
  N_blocks0 : Z;
  refLevelMaxAllowed : Z;
  initialized : bool;
  offsets : list GlobalID;
  meshLimits : list PrimFloat.float;
  globalIDs : gmap Z Z;
  callbackCoarsenBlock : option CallbackCoarsenBlock;
  callbackCreateBlock : option CallbackCreateBlock;
  callbackDeleteBlock : option CallbackDeleteBlock;
  callbackRefineBlock : option CallbackRefineBlock
}.

(** [bbox[n]]. *)
Definition bboxAt (M : AmrMesh) (n : nat) : Z := nth n (bbox M) 0.

(** The mesh with its block table replaced; every other member is kept. *)
Definition setGlobalIDs (M : AmrMesh) (m : gmap Z Z) : AmrMesh :=
  mkAmrMesh (bbox M) (N_blocks0 M) (refLevelMaxAllowed M) (initialized M)
    (offsets M) (meshLimits M) m (callbackCoarsenBlock M)
    (callbackCreateBlock M) (callbackDeleteBlock M) (callbackRefineBlock M).

(** [AmrMesh::AmrMesh]. *)
Definition construct (Nx0 Ny0 Nz0 xCells yCells zCells maxRefLevel : Z) : AmrMesh :=
  mkAmrMesh [Nx0; Ny0; Nz0; xCells; yCells; zCells]
    (wrap32 (Nx0 * Ny0 * Nz0)) maxRefLevel false [] [] ∅ None None None None.

(** [std::unordered_map::find(id) != end()]. *)
Definition exists_block (m : gmap Z Z) (id : GlobalID) : bool :=
  match m !! id with Some _ => true | None => false end.

(** [std::unordered_map::insert]: an existing entry is kept. *)
Definition map_insert (id : GlobalID) (l : LocalID) (m : gmap Z Z) : gmap Z Z :=
  match m !! id with Some _ => m | None => <[id := l]> m end.

(** [std::upper_bound] on the offsets table: the position of the first entry
    greater than [v] (the table is non-decreasing). *)
Fixpoint upper_bound (l : list Z) (v : Z) : Z :=
  match l with
  | [] => 0
  | o :: l' => if v <? o then 0 else 1 + upper_bound l' v
  end.

(** [offsets[n]].  Reading past the end of the vector is undefined in C++;
    the model reads 0 there. *)
Definition offsetAt (M : AmrMesh) (n : Z) : Z := nth (Z.to_nat n) (offsets M) 0.

(** The loop of [initialize] that fills [offsets[1..]]:
    [offsets[i] = offsets[i-1] + N_blocks0 * pow(8,i-1)].  The sum is formed
    in [double]: [offsets[i-1]] is converted (rounded above [2^53]), the
    product of the [uint32_t] and the power of two is exact, the sum is
    rounded and converted back to [GlobalID]. *)
Fixpoint fillOffsets (N0 prev : Z) (i : Z) (n : nat) : list Z :=
  match n with
  | O => []
  | S n' =>
      let o := double_to_uint64 (round_double (round_double prev + N0 * 8 ^ (i - 1))) in
      o :: fillOffsets N0 o (i + 1) n'
  end.

Definition buildOffsets (N0 maxLevel : Z) : list Z :=
  0 :: fillOffsets N0 0 1 (Z.to_nat maxLevel).

(** [AmrMesh::getGlobalID(refLevel,i,j,k)].  [multiplier] and the two products
    are [uint32_t]; the sum is formed in [GlobalID]. *)
Definition getGlobalID (M : AmrMesh) (refLevel i j k : Z) : GlobalID :=
  let multiplier := double_to_uint32 (2 ^ refLevel) in
  wrap64 (offsetAt M refLevel
          + wrap32 (k * bboxAt M 1 * bboxAt M 0 * multiplier * multiplier)
          + wrap32 (j * bboxAt M 0 * multiplier)
          + i).

(** [Ny*Nx], the divisor of [getIndices] on level [refLevel]. *)
Definition divisor (M : AmrMesh) (refLevel : Z) : Z :=
  let multiplier := double_to_uint64 (2 ^ refLevel) in
  wrap64 (wrap64 (bboxAt M 1 * multiplier) * wrap64 (bboxAt M 0 * multiplier)).

(** Where [getIndices] is defined on every id: the offsets table is there
    and starts at 0, as [initialize] leaves it, and on no level of it [Ny*Nx]
    (and with it [Nx]) is zero.  On other meshes the program reads past the
    table or stops with a division by zero (an empty base grid). *)
Definition indexable (M : AmrMesh) : Prop :=
  nth 0 (offsets M) 1 = 0
  /\ forall l, In l (seqZ 0 (Z.of_nat (length (offsets M)))) -> divisor M l <> 0.

(** [AmrMesh::getIndices]: the result is [(refLevel, i, j, k)].  The division
    by [Ny*Nx = 0] stops the program; [Z]'s quotient is 0 there, and what is
    proved of [getIndices] is proved on meshes that are [indexable] ([fits]
    implies it) or at concrete ids where the divisor is not zero. *)
Definition getIndices (M : AmrMesh) (globalID : GlobalID) : Z * Z * Z * Z :=
  let refLevel := wrap32 (upper_bound (offsets M) globalID - 1) in
  let cellOffset := offsetAt M refLevel in
  let multiplier := double_to_uint64 (2 ^ refLevel) in
  let Nx := wrap64 (bboxAt M 0 * multiplier) in
  let Ny := wrap64 (bboxAt M 1 * multiplier) in
  let index := wrap64 (globalID - cellOffset) in
  let k := wrap32 (index / wrap64 (Ny * Nx)) in
  let index := wrap64 (index - k * Ny * Nx) in
  let j := wrap32 (index / Nx) in
  let i := wrap32 (index - j * Nx) in
  (refLevel, i, j, k).

Definition levelOf (M : AmrMesh) (g : GlobalID) : Z :=
  let '(refLevel, _, _, _) := getIndices M g in refLevel.

(** The eight positions of a 2x2x2 octet based at [(i,j,k)], in the order the
    code lists them. *)
Definition octet (M : AmrMesh) (refLevel i j k : Z) : list GlobalID :=
  [ getGlobalID M refLevel i j k;
    getGlobalID M refLevel (wrap32 (i + 1)) j k;
    getGlobalID M refLevel i (wrap32 (j + 1)) k;
    getGlobalID M refLevel (wrap32 (i + 1)) (wrap32 (j + 1)) k;
    getGlobalID M refLevel i j (wrap32 (k + 1));
    getGlobalID M refLevel (wrap32 (i + 1)) j (wrap32 (k + 1));
    getGlobalID M refLevel i (wrap32 (j + 1)) (wrap32 (k + 1));
    getGlobalID M refLevel (wrap32 (i + 1)) (wrap32 (j + 1)) (wrap32 (k + 1)) ].

(** [AmrMesh::getChildren]. *)
Definition getChildren (M : AmrMesh) (globalID : GlobalID) : list GlobalID :=
  let '(refLevel, i, j, k) := getIndices M globalID in
  if refLevelMaxAllowed M <? wrap32 (refLevel + 1) then []
  else octet M (wrap32 (refLevel + 1)) (wrap32 (i * 2)) (wrap32 (j * 2)) (wrap32 (k * 2)).

(** [AmrMesh::getParent]. *)
Definition getParent (M : AmrMesh) (globalID : GlobalID) : GlobalID :=
  let '(refLevel, i, j, k) := getIndices M globalID in
  if refLevel =? 0 then globalID
  else getGlobalID M (wrap32 (refLevel - 1)) (i / 2) (j / 2) (k / 2).

(** The values the loop counters [k_off], [j_off], [i_off] run through. *)
Definition offs3 : list Z := [-1; 0; 1].
Definition offs4 : list Z := [-1; 0; 1; 2].

(** [AmrMesh::getNeighbors].  [k+k_off] is formed in [uint32_t], so an index
    below zero wraps to a value above every [N?_max] and is skipped. *)
Definition getNeighbors (M : AmrMesh) (globalID : GlobalID) : list GlobalID :=
  let '(refLevel, i, j, k) := getIndices M globalID in
  let Nx_max := double_to_uint32 (bboxAt M 0 * 2 ^ refLevel) in
  let Ny_max := double_to_uint32 (bboxAt M 1 * 2 ^ refLevel) in
  let Nz_max := double_to_uint32 (bboxAt M 2 * 2 ^ refLevel) in
  flat_map (fun k_off =>
    if Nz_max <=? wrap32 (k + k_off) then [] else
    flat_map (fun j_off =>
      if Ny_max <=? wrap32 (j + j_off) then [] else
      flat_map (fun i_off =>
        if Nx_max <=? wrap32 (i + i_off) then [] else
        if (i_off =? 0) && ((j_off =? 0) && (k_off =? 0)) then [] else
        [getGlobalID M refLevel (wrap32 (i + i_off)) (wrap32 (j + j_off))
           (wrap32 (k + k_off))])
      offs3) offs3) offs3.

(** [cntr == 3] in [getSiblingNeighbors]. *)
Definition insideOctet (i_off j_off k_off : Z) : bool :=
  ((i_off =? 0) || (i_off =? 1)) && ((j_off =? 0) || (j_off =? 1))
  && ((k_off =? 0) || (k_off =? 1)).

(** [AmrMesh::getSiblingNeighbors]. *)
Definition getSiblingNeighbors (M : AmrMesh) (globalID : GlobalID) : list GlobalID :=
  let '(refLevel, i, j, k) := getIndices M globalID in
  let i := wrap32 (i - i mod 2) in
  let j := wrap32 (j - j mod 2) in
  let k := wrap32 (k - k mod 2) in
  flat_map (fun k_off =>
    flat_map (fun j_off =>
      flat_map (fun i_off =>
        if insideOctet i_off j_off k_off then [] else
        [getGlobalID M refLevel (wrap32 (i + i_off)) (wrap32 (j + j_off))
           (wrap32 (k + k_off))])
      offs4) offs4) offs4.

(** [AmrMesh::getSiblings] (both overloads compute the same eight ids). *)
Definition getSiblings (M : AmrMesh) (globalID : GlobalID) : list GlobalID :=
  let '(refLevel, i, j, k) := getIndices M globalID in
  octet M refLevel (wrap32 (i - i mod 2)) (wrap32 (j - j mod 2)) (wrap32 (k - k mod 2)).

(** [AmrMesh::get] and [AmrMesh::set]. *)
Definition get (M : AmrMesh) (globalID : GlobalID) : LocalID :=
  match globalIDs M !! globalID with
  | None => INVALID_LOCALID
  | Some l => l
  end.

Definition set (M : AmrMesh) (globalID : GlobalID) (localID : LocalID) : bool * AmrMesh :=
  match globalIDs M !! globalID with
  | None => (false, M)
  | Some _ => (true, setGlobalIDs M (<[globalID := localID]> (globalIDs M)))
  end.

(** [AmrMesh::size]. *)
Definition size (M : AmrMesh) : nat := base.size (globalIDs M).

(** [AmrMesh::registerCallbacks]: the four slots are overwritten (the two
    lines written to [cout] are left out). *)
Definition registerCallbacks (M : AmrMesh) (coarsenBlock : option CallbackCoarsenBlock)
    (createBlock : option CallbackCreateBlock) (deleteBlock : option CallbackDeleteBlock)
    (refineBlock : option CallbackRefineBlock) : bool * AmrMesh :=
  (true,
   mkAmrMesh (bbox M) (N_blocks0 M) (refLevelMaxAllowed M) (initialized M)
     (offsets M) (meshLimits M) (globalIDs M) coarsenBlock createBlock deleteBlock
     refineBlock).

(** [AmrMesh::checkBlock].  The recursion descends through [getChildren];
    [fuel] bounds its depth and [None] is "fuel exhausted".  The loop visits
    every child (no early exit). *)
Fixpoint checkBlock (fuel : nat) (M : AmrMesh) (globalID : GlobalID) : option bool :=
  match fuel with
  | O => None
  | S fuel' =>
      if exists_block (globalIDs M) globalID then Some true
      else
        fold_left (fun ok child =>
                     match ok, checkBlock fuel' M child with
                     | Some b, Some r => Some (if r then b else false)
                     | _, _ => None
                     end)
                  (getChildren M globalID) (Some true)
  end.

(** [AmrMesh::checkMesh]: every sibling of every existing block is checked;
    the iteration order of the table does not matter for the conjunction. *)
Definition checkMesh (fuel : nat) (M : AmrMesh) : option bool :=
  fold_left (fun ok s =>
               match ok, checkBlock fuel M s with
               | Some b, Some r => Some (if r then b else false)
               | _, _ => None
               end)
            (flat_map (fun kv => getSiblings M (fst kv)) (map_to_list (globalIDs M)))
            (Some true).

(** How a call that may reach [exit(1)] ends. *)
Inductive outcome :=
| Returned (b : bool) (M : AmrMesh)
| Exited.

(** The removal loop of [coarsen]: [exit(1)] when a sibling is not in the
    table any more, [erase] otherwise. *)
Fixpoint eraseAll (ids : list GlobalID) (m : gmap Z Z) : option (gmap Z Z) :=
  match ids with
  | [] => Some m
  | s :: ids' =>
      if exists_block m s then eraseAll ids' (delete s m) else None
  end.

(** The eight [insert]s of [refine], in order. *)
Definition insertAll (ids : list GlobalID) (lids : nat -> LocalID) (m : gmap Z Z) : gmap Z Z :=
  fold_left (fun acc p => map_insert (snd p) (lids (fst p)) acc)
            (combine (seq 0 (length ids)) ids) m.

(** One turn of the balancing loop that ends [refine]: the parent of the
    neighbour [n] is refined when it is in the table.  [rec] is the recursive
    call; [None] is "fuel exhausted". *)
Definition balanceStep (rec : gmap Z Z -> GlobalID -> option (bool * gmap Z Z))
    (M : AmrMesh) (acc : option (gmap Z Z)) (n : GlobalID) : option (gmap Z Z) :=
  match acc with
  | None => None
  | Some m =>
      let parentID := getParent M n in
      if parentID =? n then Some m
      else if exists_block m parentID then
             match rec m parentID with
             | Some (_, m') => Some m'
             | None => None
             end
           else Some m
  end.

Section Operations.

(** What an uninitialised local [LocalID] holds ([newLocalID] and
    [childrenLocalIDs[s]] when no callback is registered): any value. *)
Variable indeterminate : nat -> LocalID.

(** [AmrMesh::coarsen]. *)
Definition coarsen (M : AmrMesh) (globalID : GlobalID) : outcome :=
  let m := globalIDs M in
  if negb (exists_block m globalID) then Returned false M else
  let '(refLevel, i, j, k) := getIndices M globalID in
  if refLevel =? 0 then Returned false M else
  let nbrs := getSiblingNeighbors M globalID in
  if existsb (fun n => existsb (exists_block m) (getChildren M n)) nbrs
  then Returned false M else
  let siblings := getSiblings M globalID in
  if existsb (fun s => negb (exists_block m s)) siblings then Returned false M else
  let siblingIndices :=
    map (fun s => match m !! s with None => INVALID_LOCALID | Some l => l end) siblings in
  let newLocalID :=
    match callbackCoarsenBlock M with
    | Some cb => cb siblings siblingIndices (getParent M globalID)
    | None => indeterminate 0
    end in
  match eraseAll siblings m with
  | None => Exited
  | Some m' =>
      Returned true (setGlobalIDs M (map_insert (getParent M globalID) newLocalID m'))
  end.

(** [AmrMesh::refine] on the block table.  The geometry members of [M] are
    only read; the table [m] is threaded through the balancing loop.  [fuel]
    bounds the depth of the recursion, [None] is "fuel exhausted". *)
Fixpoint refineIDs (fuel : nat) (M : AmrMesh) (m : gmap Z Z) (globalID : GlobalID)
  : option (bool * gmap Z Z) :=
  match fuel with
  | O => None
  | S fuel' =>
      if negb (exists_block m globalID) then Some (false, m) else
      let nbrs := getNeighbors M globalID in
      let '(refLevel, i, j, k) := getIndices M globalID in
      if refLevel =? refLevelMaxAllowed M then Some (false, m) else
      (* the ids handed to the callback are formed before i,j,k are doubled *)
      let childrenGlobalIDs := octet M (wrap32 (refLevel + 1)) i j k in
      let childrenLocalIDs :=
        match callbackRefineBlock M with
        | Some cb =>
            let l := cb globalID (default 0 (m !! globalID)) childrenGlobalIDs in
            fun s => nth s l (indeterminate s)
        | None => indeterminate
        end in
      let i := wrap32 (i * 2) in
      let j := wrap32 (j * 2) in
      let k := wrap32 (k * 2) in
      let m := delete globalID m in
      let m := insertAll (octet M (wrap32 (refLevel + 1)) i j k) childrenLocalIDs m in
      match fold_left (balanceStep (refineIDs fuel' M) M) nbrs (Some m)
      with
      | Some m' => Some (true, m')
      | None => None
      end
  end.

Definition refine (fuel : nat) (M : AmrMesh) (globalID : GlobalID) : option (bool * AmrMesh) :=
  match refineIDs fuel M (globalIDs M) globalID with
  | Some (b, m') => Some (b, setGlobalIDs M m')
  | None => None
  end.

End Operations.

(** [AmrMesh::initialize].  [skip n] tells whether the [n]-th draw of
    [rand()] falls below 0.4, in which case the block is left out. *)
Definition initialize (skip : nat -> bool) (M : AmrMesh)
    (xmin xmax ymin ymax zmin zmax : PrimFloat.float) (refLevel : Z) : bool * AmrMesh :=
  if initialized M then (true, M) else
  if refLevelMaxAllowed M <? refLevel then (false, M) else
  let M1 := mkAmrMesh (bbox M) (N_blocks0 M) (refLevelMaxAllowed M) false
              (buildOffsets (N_blocks0 M) (refLevelMaxAllowed M)) (meshLimits M)
              (globalIDs M) (callbackCoarsenBlock M) (callbackCreateBlock M)
              (callbackDeleteBlock M) (callbackRefineBlock M) in
  let factor := double_to_uint32 (2 ^ refLevel) in
  let cells :=
    flat_map (fun k =>
      flat_map (fun j =>
        map (fun i => (i, j, k)) (seqZ 0 (wrap32 (bboxAt M 0 * factor))))
      (seqZ 0 (wrap32 (bboxAt M 1 * factor))))
    (seqZ 0 (wrap32 (bboxAt M 2 * factor))) in
  let '(_, m) :=
    fold_left (fun (st : nat * gmap Z Z) (c : Z * Z * Z) =>
                 let '(n, m) := st in
                 let '(i, j, k) := c in
                 if skip n then (S n, m)
                 else
                   let globalID := getGlobalID M1 refLevel i j k in
                   let localID :=
                     match callbackCreateBlock M with
                     | Some cb => cb globalID
                     | None => INVALID_LOCALID
                     end in
                   (S n, map_insert globalID localID m))
              cells (O, globalIDs M) in
  (true,
   mkAmrMesh (bbox M) (N_blocks0 M) (refLevelMaxAllowed M) true
     (offsets M1) [xmin; xmax; ymin; ymax; zmin; zmax] m
     (callbackCoarsenBlock M) (callbackCreateBlock M)
     (callbackDeleteBlock M) (callbackRefineBlock M)).

(* --------------------------------------------------------------------- *)
(** ** Physical coordinates *)

(** [uint32_t] to [double] (exact). *)
Definition uint32_to_double (n : Z) : PrimFloat.float :=
  PrimFloat.of_uint63 (Uint63.of_Z n).

(** The integer part of a finite [double], [None] for infinities and NaN. *)
Definition double_trunc (d : PrimFloat.float) : option Z :=
  match FloatOps.Prim2SF d with
  | SpecFloat.S754_zero _ => Some 0
  | SpecFloat.S754_finite s m e =>
      let v := if 0 <=? e then Z.pos m * 2 ^ e else Z.pos m / 2 ^ (- e) in
      Some (if s then - v else v)
  | _ => None
  end.

(** [static_cast<uint32_t>(d)]: truncation towards zero.  For a value that
    does not fit, and for NaN, C++ leaves the result undefined; as for
    [double_to_uint32] the model takes the x86-64 result. *)
Definition static_cast_uint32 (d : PrimFloat.float) : Z :=
  match double_trunc d with
  | Some v => if (- 2 ^ 63 <? v) && (v <? 2 ^ 63) then wrap32 v else 0
  | None => 0
  end.

(** [meshLimits[n]]. *)
Definition limitAt (M : AmrMesh) (n : nat) : PrimFloat.float :=
  nth n (meshLimits M) PrimFloat.zero.

(** One turn of the loop of [getGlobalID(x,y,z)]: the id [gID] formed at
    level [r].  The block counts are [bbox[n]*(r+1)], as the code has them. *)
Definition blockAt (M : AmrMesh) (r : Z) (x y z : PrimFloat.float) : GlobalID :=
  let Nx := wrap32 (bboxAt M 0 * (r + 1)) in
  let Ny := wrap32 (bboxAt M 1 * (r + 1)) in
  let Nz := wrap32 (bboxAt M 2 * (r + 1)) in
  let dx := PrimFloat.div (PrimFloat.sub (limitAt M 1) (limitAt M 0)) (uint32_to_double Nx) in
  let dy := PrimFloat.div (PrimFloat.sub (limitAt M 3) (limitAt M 2)) (uint32_to_double Ny) in
  let dz := PrimFloat.div (PrimFloat.sub (limitAt M 5) (limitAt M 4)) (uint32_to_double Nz) in
  let i := static_cast_uint32 (PrimFloat.div (PrimFloat.sub x (limitAt M 0)) dx) in
  let j := static_cast_uint32 (PrimFloat.div (PrimFloat.sub y (limitAt M 2)) dy) in
  let k := static_cast_uint32 (PrimFloat.div (PrimFloat.sub z (limitAt M 4)) dz) in
  getGlobalID M r i j k.

(** The three range tests that open [getGlobalID(x,y,z)].  The second and the
    third compare [x], not [y] and [z], with the upper limit: that is what
    the code says. *)
Definition rejected (M : AmrMesh) (x y z : PrimFloat.float) : bool :=
  (PrimFloat.ltb x (limitAt M 0) || PrimFloat.ltb (limitAt M 1) x)
  || (PrimFloat.ltb y (limitAt M 2) || PrimFloat.ltb (limitAt M 3) x)
  || (PrimFloat.ltb z (limitAt M 4) || PrimFloat.ltb (limitAt M 5) x).

(** [AmrMesh::getGlobalID(x,y,z)]. *)
Definition getGlobalID_xyz (M : AmrMesh) (x y z : PrimFloat.float) : GlobalID :=
  if rejected M x y z then INVALID_GLOBALID
  else
    match find (exists_block (globalIDs M))
               (map (fun r => blockAt M r x y z) (seqZ 0 (refLevelMaxAllowed M + 1)))
    with
    | Some gID => gID
    | None => INVALID_GLOBALID
    end.

(** What "outside MeshLimits" means: some coordinate is below its lower or
    above its upper limit. *)
Definition outsideLimits (M : AmrMesh) (x y z : PrimFloat.float) : bool :=
  (PrimFloat.ltb x (limitAt M 0) || PrimFloat.ltb (limitAt M 1) x)
  || (PrimFloat.ltb y (limitAt M 2) || PrimFloat.ltb (limitAt M 3) y)
  || (PrimFloat.ltb z (limitAt M 4) || PrimFloat.ltb (limitAt M 5) z).

(** The point lies in the closed box of the block: along each axis between
    the lower face of the block and its upper face, the level [l] of the
    block dividing the axis into [bbox*2^l] blocks. *)
Definition boxContains (M : AmrMesh) (g : GlobalID) (x y z : PrimFloat.float) : bool :=
  let '(l, i, j, k) := getIndices M g in
  let along (lo hi : PrimFloat.float) (n idx : Z) (v : PrimFloat.float) : bool :=
    let d := PrimFloat.div (PrimFloat.sub hi lo) (uint32_to_double n) in
    PrimFloat.leb (PrimFloat.add lo (PrimFloat.mul (uint32_to_double idx) d)) v
    && PrimFloat.leb v (PrimFloat.add lo (PrimFloat.mul (uint32_to_double (idx + 1)) d)) in
  along (limitAt M 0) (limitAt M 1) (bboxAt M 0 * 2 ^ l) i x
  && along (limitAt M 2) (limitAt M 3) (bboxAt M 1 * 2 ^ l) j y
  && along (limitAt M 4) (limitAt M 5) (bboxAt M 2 * 2 ^ l) k z.

(* --------------------------------------------------------------------- *)
(** ** Vocabulary of the properties *)

(** The number of blocks on the levels below [n]:
    [offN 0 = 0], [offN (n+1) = offN n + N0 * 8^n]. *)
Fixpoint offN (N0 : Z) (n : nat) : Z :=
  match n with
  | O => 0
  | S n' => offN N0 n' + N0 * 8 ^ Z.of_nat n'
  end.

(** A mesh whose addressing stays inside the machine ranges: a non-empty
    base grid, fewer than [2^32] blocks on the finest level, and the members
    [N_blocks0] and [offsets] as the constructor and [initialize] set them. *)
Definition fits (M : AmrMesh) : Prop :=
  1 <= bboxAt M 0 /\ 1 <= bboxAt M 1 /\ 1 <= bboxAt M 2 /\
  0 <= refLevelMaxAllowed M /\
  bboxAt M 0 * bboxAt M 1 * bboxAt M 2 * 8 ^ refLevelMaxAllowed M < 2 ^ 32 /\
  N_blocks0 M = bboxAt M 0 * bboxAt M 1 * bboxAt M 2 /\
  offsets M = buildOffsets (N_blocks0 M) (refLevelMaxAllowed M).

(** [(l,i,j,k)] lies within the grid of level [l]. *)
Definition validAddr (M : AmrMesh) (l i j k : Z) : Prop :=
  0 <= l <= refLevelMaxAllowed M /\
  0 <= i < bboxAt M 0 * 2 ^ l /\
  0 <= j < bboxAt M 1 * 2 ^ l /\
  0 <= k < bboxAt M 2 * 2 ^ l.

(** The id of an address in unbounded arithmetic. *)
Definition idOf (M : AmrMesh) (l i j k : Z) : Z :=
  offN (N_blocks0 M) (Z.to_nat l)
  + k * ((bboxAt M 1 * 2 ^ l) * (bboxAt M 0 * 2 ^ l)) + j * (bboxAt M 0 * 2 ^ l) + i.

(** The index triples of the eight children of [(i,j,k)]. *)
Definition childAddrs (i j k : Z) : list (Z * Z * Z) :=
  [ (2 * i, 2 * j, 2 * k); (2 * i + 1, 2 * j, 2 * k);
    (2 * i, 2 * j + 1, 2 * k); (2 * i + 1, 2 * j + 1, 2 * k);
    (2 * i, 2 * j, 2 * k + 1); (2 * i + 1, 2 * j, 2 * k + 1);
    (2 * i, 2 * j + 1, 2 * k + 1); (2 * i + 1, 2 * j + 1, 2 * k + 1) ].

(** [g] is the id of an address within the grid. *)
Definition validBlock (M : AmrMesh) (g : GlobalID) : Prop :=
  let '(l, i, j, k) := getIndices M g in
  validAddr M l i j k /\ getGlobalID M l i j k = g.

(** [a] is a proper ancestor of [b] in the octree. *)
Definition isAncestor (M : AmrMesh) (a b : GlobalID) : Prop :=
  let '(la, ia, ja, ka) := getIndices M a in
  let '(lb, ib, jb, kb) := getIndices M b in
  la < lb /\ ib / 2 ^ (lb - la) = ia /\ jb / 2 ^ (lb - la) = ja /\ kb / 2 ^ (lb - la) = ka.

(** Along one axis block [ia] of level [la] covers
    [[ia / 2^la, (ia+1) / 2^la]] (in base-grid units); the two closed
    intervals meet. *)
Definition axisTouch (la ia lb ib : Z) : Prop :=
  ia * 2 ^ lb <= (ib + 1) * 2 ^ la /\ ib * 2 ^ la <= (ia + 1) * 2 ^ lb.

(** Geometric neighbours: the closed boxes of the two blocks meet (in a
    face, an edge or a corner). *)
Definition touching (M : AmrMesh) (a b : GlobalID) : Prop :=
  let '(la, ia, ja, ka) := getIndices M a in
  let '(lb, ib, jb, kb) := getIndices M b in
  axisTouch la ia lb ib /\ axisTouch la ja lb jb /\ axisTouch la ka lb kb.

(** Every entry of the table is a block of the grid. *)
Definition validTable (M : AmrMesh) (m : gmap Z Z) : Prop :=
  forall g, is_Some (m !! g) -> validBlock M g.

(** The entries are leaves: no entry is an ancestor of another one. *)
Definition leafSet (M : AmrMesh) (m : gmap Z Z) : Prop :=
  forall a b, is_Some (m !! a) -> is_Some (m !! b) -> ~ isAncestor M a b.

(** The 2:1 balance invariant: entries that touch differ by at most one
    refinement level. *)
Definition balanced (M : AmrMesh) (m : gmap Z Z) : Prop :=
  forall a b, is_Some (m !! a) -> is_Some (m !! b) -> touching M a b ->
    -1 <= levelOf M a - levelOf M b <= 1.

(** A mesh in the state the operations keep it in: the addressing fits the
    machine ranges ([fits]) and the table holds blocks of the grid, leaves
    only, 2:1 balanced. *)
Definition wellFormed (M : AmrMesh) : Prop :=
  fits M /\ validTable M (globalIDs M) /\ leafSet M (globalIDs M)
  /\ balanced M (globalIDs M).

(** [b] is refined in [m]: absent, with all of its children present. *)
Definition gone (M : AmrMesh) (m : gmap Z Z) (b : GlobalID) : Prop :=
  m !! b = None /\ forall c, In c (getChildren M b) -> is_Some (m !! c).

(** From [m] to [m'] only blocks of levels below [q] left the table, and
    those of level [q-1] that left were refined. *)
Definition removedBelow (M : AmrMesh) (q : Z) (m m' : gmap Z Z) : Prop :=
  forall x, is_Some (m !! x) -> m' !! x = None ->
    levelOf M x < q /\ (levelOf M x = q - 1 -> gone M m' x).

(** The step from a fine block towards a touching coarse block, along one
    axis. *)
Definition towards (ib i : Z) : Z :=
  if i =? 2 * ib - 1 then 1 else if i =? 2 * ib + 2 then -1 else 0.

(** What a call of [refineIDs] with [n] units of fuel does to a table of
    valid leaves, for a block below the maximum level whose level is below
    [n]: it returns [true]; the table stays one of valid leaves; the block is
    refined; only the block and coarser blocks left the table; and the
    parent of each neighbour that was in the table is refined. *)
Definition refineSpec (indeterminate : nat -> LocalID) (M : AmrMesh) (n : nat) : Prop :=
  forall m g, validTable M m /\ leafSet M m -> is_Some (m !! g) ->
    levelOf M g < refLevelMaxAllowed M ->
    (Z.to_nat (levelOf M g) < n)%nat ->
    exists m', refineIDs indeterminate n M m g = Some (true, m') /\
      (validTable M m' /\ leafSet M m') /\ gone M m' g /\
      removedBelow M (levelOf M g + 1) m m' /\
      (forall nb, In nb (getNeighbors M g) -> getParent M nb <> nb ->
         is_Some (m !! getParent M nb) -> gone M m' (getParent M nb)) /\
      (forall x, is_Some (m !! x) -> x <> g -> m' !! x = None ->
         levelOf M x < levelOf M g).

(** The tables [refine] passes through, seen from the table [m0] it was
    called on.  Every entry is an entry of [m0] or a child of an entry of
    [m0] that was refined. *)
Definition fromOriginal (M : AmrMesh) (m0 m : gmap Z Z) : Prop :=
  forall x, is_Some (m !! x) ->
    is_Some (m0 !! x)
    \/ (0 < levelOf M x /\ is_Some (m0 !! getParent M x) /\ m !! getParent M x = None).

(** An entry of [m0] that has left the table does not come back. *)
Definition staysOut (m0 m m' : gmap Z Z) : Prop :=
  forall x, is_Some (m0 !! x) -> m !! x = None -> m' !! x = None.

(** Where an entry [B] of [m0] left the table between [m] and [m'], the
    entries of [m0] that touch [B] and are one level coarser have left it
    too. *)
Definition closedNew (M : AmrMesh) (m0 m m' : gmap Z Z) : Prop :=
  forall B Y, is_Some (m0 !! B) -> is_Some (m !! B) -> m' !! B = None ->
    is_Some (m0 !! Y) -> touching M Y B -> levelOf M Y = levelOf M B - 1 ->
    m' !! Y = None.

(** What a call of [refineIDs] does inside a call of [refine] on the
    balanced table [m0]: the block it is called on is an entry of [m0]; the
    call returns [true] and removes it, and the three relations above hold
    of the table it returns. *)
Definition closureSpec (indeterminate : nat -> LocalID) (M : AmrMesh) (m0 : gmap Z Z)
    (n : nat) : Prop :=
  forall m g, validTable M m /\ leafSet M m -> fromOriginal M m0 m ->
    is_Some (m !! g) -> is_Some (m0 !! g) ->
    levelOf M g < refLevelMaxAllowed M -> (Z.to_nat (levelOf M g) < n)%nat ->
    exists m', refineIDs indeterminate n M m g = Some (true, m') /\
      (validTable M m' /\ leafSet M m') /\ m' !! g = None /\
      fromOriginal M m0 m' /\ staysOut m0 m m' /\ closedNew M m0 m m'.

(** The eight addresses of the octet based at [(i0,j0,k0)], and the
    addresses around it: one step away along each axis at most, outside the
    octet. *)
Definition inOctet (i0 j0 k0 i j k : Z) : Prop :=
  i0 <= i <= i0 + 1 /\ j0 <= j <= j0 + 1 /\ k0 <= k <= k0 + 1.

Definition aroundOctet (i0 j0 k0 i j k : Z) : Prop :=
  i0 - 1 <= i <= i0 + 2 /\ j0 - 1 <= j <= j0 + 2 /\ k0 - 1 <= k <= k0 + 2
  /\ ~ inOctet i0 j0 k0 i j k.

(** *** Executable checks of the same predicates *)

Definition keysOf (m : gmap Z Z) : list Z := map fst (map_to_list m).

Definition fitsb (M : AmrMesh) : bool :=
  (1 <=? bboxAt M 0) && (1 <=? bboxAt M 1) && (1 <=? bboxAt M 2)
  && (0 <=? refLevelMaxAllowed M)
  && (bboxAt M 0 * bboxAt M 1 * bboxAt M 2 * 8 ^ refLevelMaxAllowed M <? 2 ^ 32)
  && (N_blocks0 M =? bboxAt M 0 * bboxAt M 1 * bboxAt M 2)
  && bool_decide (offsets M = buildOffsets (N_blocks0 M) (refLevelMaxAllowed M)).

Definition validAddrb (M : AmrMesh) (l i j k : Z) : bool :=
  (0 <=? l) && (l <=? refLevelMaxAllowed M)
  && (0 <=? i) && (i <? bboxAt M 0 * 2 ^ l)
  && (0 <=? j) && (j <? bboxAt M 1 * 2 ^ l)
  && (0 <=? k) && (k <? bboxAt M 2 * 2 ^ l).

Definition validBlockb (M : AmrMesh) (g : GlobalID) : bool :=
  let '(l, i, j, k) := getIndices M g in
  validAddrb M l i j k && (getGlobalID M l i j k =? g).

Definition isAncestorb (M : AmrMesh) (a b : GlobalID) : bool :=
  let '(la, ia, ja, ka) := getIndices M a in
  let '(lb, ib, jb, kb) := getIndices M b in
  (la <? lb) && (ib / 2 ^ (lb - la) =? ia) && (jb / 2 ^ (lb - la) =? ja)
  && (kb / 2 ^ (lb - la) =? ka).

Definition axisTouchb (la ia lb ib : Z) : bool :=
  (ia * 2 ^ lb <=? (ib + 1) * 2 ^ la) && (ib * 2 ^ la <=? (ia + 1) * 2 ^ lb).

Definition touchingb (M : AmrMesh) (a b : GlobalID) : bool :=
  let '(la, ia, ja, ka) := getIndices M a in
  let '(lb, ib, jb, kb) := getIndices M b in
  axisTouchb la ia lb ib && axisTouchb la ja lb jb && axisTouchb la ka lb kb.

Definition wellFormedb (M : AmrMesh) : bool :=
  let ks := keysOf (globalIDs M) in
  fitsb M
  && forallb (validBlockb M) ks
  && forallb (fun a => forallb (fun b => negb (isAncestorb M a b)) ks) ks
  && forallb (fun a => forallb (fun b =>
        negb (touchingb M a b)
        || ((-1 <=? levelOf M a - levelOf M b) && (levelOf M a - levelOf M b <=? 1))) ks) ks.

(** The three conditions on the table without [fits]. *)
Definition balancedLeavesb (M : AmrMesh) : bool :=
  let ks := keysOf (globalIDs M) in
  forallb (validBlockb M) ks
  && forallb (fun a => forallb (fun b => negb (isAncestorb M a b)) ks) ks
  && forallb (fun a => forallb (fun b =>
        negb (touchingb M a b)
        || ((-1 <=? levelOf M a - levelOf M b) && (levelOf M a - levelOf M b <=? 1))) ks) ks.

Definition indexableb (M : AmrMesh) : bool :=
  (nth 0 (offsets M) 1 =? 0)
  && forallb (fun l => negb (divisor M l =? 0)) (seqZ 0 (Z.of_nat (length (offsets M)))).

(** ** LocalIDs through [refine] and [coarsen] *)

(** The LocalID [refine] stores for child number [s] of [globalID]: what the
    callback wrote to [childrenLocalIDs[s]] when one is registered (it is
    handed the block, its LocalID and the array [childrenGlobalIDs]), the
    uninitialised array element otherwise. *)
Definition refineLocalID (indeterminate : nat -> LocalID) (M : AmrMesh) (m : gmap Z Z)
    (globalID : GlobalID) (s : nat) : LocalID :=
  let '(refLevel, i, j, k) := getIndices M globalID in
  match callbackRefineBlock M with
  | Some cb =>
      nth s (cb globalID (default 0 (m !! globalID)) (octet M (wrap32 (refLevel + 1)) i j k))
        (indeterminate s)
  | None => indeterminate s
  end.

(** The LocalID [coarsen] stores for the parent: what the callback wrote to
    [newLocalID] when one is registered (it is handed the eight siblings,
    their LocalIDs and the parent's id), the uninitialised local otherwise. *)
Definition coarsenLocalID (indeterminate : nat -> LocalID) (M : AmrMesh)
    (globalID : GlobalID) : LocalID :=
  match callbackCoarsenBlock M with
  | Some cb => cb (getSiblings M globalID) (map (get M) (getSiblings M globalID))
                 (getParent M globalID)
  | None => indeterminate 0%nat
  end.

(** Every entry of [m0] that is in [m] has the LocalID it has in [m0]. *)
Definition keepsLocalIDs (m0 m : gmap Z Z) : Prop :=
  forall x v, m0 !! x = Some v -> m !! x = Some v \/ m !! x = None.

(** What a call of [refineIDs] inside [refine] on the balanced table [m0]
    does to the LocalIDs: the entries of [m0] keep theirs, the entries of
    levels above the block's are left alone, and the children of the block
    have the LocalIDs of [refineLocalID]. *)
Definition localIDSpec (indeterminate : nat -> LocalID) (M : AmrMesh) (m0 : gmap Z Z)
    (n : nat) : Prop :=
  forall m g m', validTable M m /\ leafSet M m -> fromOriginal M m0 m ->
    is_Some (m !! g) -> is_Some (m0 !! g) ->
    levelOf M g < refLevelMaxAllowed M -> (Z.to_nat (levelOf M g) < n)%nat ->
    keepsLocalIDs m0 m ->
    refineIDs indeterminate n M m g = Some (true, m') ->
    keepsLocalIDs m0 m'
    /\ (forall x v, levelOf M g < levelOf M x -> m !! x = Some v -> m' !! x = Some v)
    /\ (forall s, (s < 8)%nat ->
          m' !! nth s (getChildren M g) 0 = Some (refineLocalID indeterminate M m g s)).

End amr.

(* ===================================================================== *)
(** * The VLSV readers *)
(* ===================================================================== *)

Module vlsv.
Import Machine.

(** Modelled from the spec: vlsvreader.h and the footer parser are not part
    of the sources.  [VLSV::datatype] has the four values vlsvreader2.cpp
    names; the spec lists the [datatype] attribute as one of "int", "uint",
    "float", "unknown". *)
Inductive datatype := UNKNOWN | INT | UINT | FLOAT.

(** Modelled from the spec: [XMLNode] is declared outside the sources.  A
    tag of the footer carries, in the spec's words, "an ordered multimap of
    string attributes" and "a decimal text body giving the byte offset of
    that array's payload"; the code reads them as [node->attributes] and
    [node->value]. *)
Record XMLNode := mkXMLNode {
  value : string;
  attributes : gmap string string
}.

(** [node->attributes[name]]: the value, the empty string when there is
    none ([operator[]] then adds the empty entry to the node, which no result
    below depends on). *)
Definition attribute (node : XMLNode) (name : string) : string :=
  default "" (attributes node !! name).

(** The list of constraints handed to [XMLReader::find]. *)
Definition Attribs := list (string * string).

(** [std::fstream filein], as far as [readArray] uses it: the bytes of the
    file, the read position, [gcount()] and the error state. *)
Record istream := mkIstream {
  content : list Byte.byte;
  pos : Z;
  gcount : Z;
  failbit : bool
}.

(** Modelled from the spec: [arrayOpen] is declared in vlsvreader.h.  The
    spec's ArrayOpenState: "byte offset of current array's payload, element
    count, per-element vector width, element byte width, declared type
    tag"; [offset] is a [streamoff] (a signed 64-bit integer), the three
    sizes are [uint64_t]. *)
Record ArrayOpenState := mkArrayOpen {
  offset : Z;
  tagName : string;
  arraySize : Z;
  vectorSize : Z;
  dataSize : Z;
  dataType : datatype
}.

(** Modelled from the spec: the declaration of [class VLSVReader] is not
    part of the sources; the members are those [readArray] and [loadArray]
    use.  The footer parser is an external collaborator ("given a tag name
    and attribute constraints, returns byte offset + array shape/type
    metadata"): the member [xmlReader] is represented by its
    [find(tagName, attribs)], with [None] for the NULL result. *)
Record VLSVReader := mkReader {
  fileOpen : bool;
  filein : istream;
  xmlReader : string -> Attribs -> option XMLNode;
  arrayOpen : ArrayOpenState
}.

Definition isspace (c : Ascii.ascii) : bool :=
  let n := Ascii.nat_of_ascii c in
  Nat.eqb n 32 || (Nat.leb 9 n && Nat.leb n 13).

Definition isdigit (c : Ascii.ascii) : bool :=
  let n := Ascii.nat_of_ascii c in Nat.leb 48 n && Nat.leb n 57.

Fixpoint skipSpaces (s : string) : string :=
  match s with
  | String c s' => if isspace c then skipSpaces s' else s
  | EmptyString => s
  end.

Fixpoint digitsValue (s : string) (acc : Z) : Z :=
  match s with
  | String c s' =>
      if isdigit c then digitsValue s' (acc * 10 + (Z.of_nat (Ascii.nat_of_ascii c) - 48))
      else acc
  | EmptyString => acc
  end.

(** [atoi]: blanks, a sign, decimal digits.  A number that does not fit is
    undefined in C; the model follows glibc ([strtol], which saturates at the
    [long] range, converted to [int]). *)
Definition atoi (s : string) : Z :=
  let s := skipSpaces s in
  let '(neg, s) :=
    match s with
    | String c s' =>
        if Nat.eqb (Ascii.nat_of_ascii c) 45 then (true, s')
        else if Nat.eqb (Ascii.nat_of_ascii c) 43 then (false, s')
        else (false, s)
    | EmptyString => (false, s)
    end in
  let v := digitsValue s 0 in
  let v := if neg then - v else v in
  signed32 (Z.max (- 2 ^ 63) (Z.min (2 ^ 63 - 1) v)).

(** The [datatype] attribute as [readArray] reads it ("unknown" is refused
    there) and as [loadArray] reads it. *)
Definition datatypeOfRead (s : string) : option datatype :=
  if String.eqb s "int" then Some INT
  else if String.eqb s "uint" then Some UINT
  else if String.eqb s "float" then Some FLOAT
  else None.

Definition datatypeOfLoad (s : string) : option datatype :=
  if String.eqb s "unknown" then Some UNKNOWN
  else if String.eqb s "int" then Some INT
  else if String.eqb s "uint" then Some UINT
  else if String.eqb s "float" then Some FLOAT
  else None.

Definition setArrayOpen (r : VLSVReader) (a : ArrayOpenState) : VLSVReader :=
  mkReader (fileOpen r) (filein r) (xmlReader r) a.

Definition setFilein (r : VLSVReader) (f : istream) : VLSVReader :=
  mkReader (fileOpen r) f (xmlReader r) (arrayOpen r).

(** "Copy array information from tag": the five assignments that come before
    the [datatype] attribute is looked at. *)
Definition copyArrayInfo (a : ArrayOpenState) (name : string) (node : XMLNode)
  : ArrayOpenState :=
  mkArrayOpen (atoi (value node)) name
    (wrap64 (atoi (attribute node "arraysize")))
    (wrap64 (atoi (attribute node "vectorsize")))
    (wrap64 (atoi (attribute node "datasize")))
    (dataType a).

Definition setDataType (a : ArrayOpenState) (d : datatype) : ArrayOpenState :=
  mkArrayOpen (offset a) (tagName a) (arraySize a) (vectorSize a) (dataSize a) d.

(** The bytes [start, start+n) of the file, as far as the file has them. *)
Definition fileRange (bytes : list Byte.byte) (start n : Z) : list Byte.byte :=
  firstn (Z.to_nat n) (skipn (Z.to_nat start) bytes).

(** [filein.clear(); filein.seekg(start); filein.read(buffer,readBytes)]:
    the stream afterwards and the bytes delivered.  A negative position
    fails the seek, and nothing is read then. *)
Definition seekRead (f : istream) (start readBytes : Z) : istream * list Byte.byte :=
  if start <? 0 then (mkIstream (content f) (pos f) 0 true, [])
  else
    let data := fileRange (content f) start readBytes in
    let n := Z.of_nat (length data) in
    (mkIstream (content f) (start + n) n (n <? readBytes), data).

(** [VLSVReader::readArray]: the result, the reader afterwards and the
    caller's buffer afterwards. *)
Definition readArray (r : VLSVReader) (name : string) (attribs : Attribs)
    (begin amount : Z) (buffer : list Byte.byte)
  : bool * VLSVReader * list Byte.byte :=
  if negb (fileOpen r) then (false, r, buffer) else
  (* If zero-length read was requested, exit immediately *)
  if amount =? 0 then (true, r, buffer) else
  match xmlReader r name attribs with
  | None => (false, r, buffer)
  | Some node =>
      let a := copyArrayInfo (arrayOpen r) name node in
      match datatypeOfRead (attribute node "datatype") with
      | None => (false, setArrayOpen r a, buffer)
      | Some d =>
          let a := setDataType a d in
          let r := setArrayOpen r a in
          if arraySize a =? 0 then (false, r, buffer) else
          if vectorSize a =? 0 then (false, r, buffer) else
          if dataSize a =? 0 then (false, r, buffer) else
          if arraySize a <? wrap64 (begin + amount) then (false, r, buffer) else
          let start := signed64 (offset a + begin * vectorSize a * dataSize a) in
          let readBytes := signed64 (amount * vectorSize a * dataSize a) in
          let '(f, data) := seekRead (filein r) start readBytes in
          let buffer := data ++ skipn (length data) buffer in
          if negb (gcount f =? readBytes) then (false, setFilein r f, buffer)
          else (true, setFilein r f, buffer)
      end
  end.

(** [VLSVReader::loadArray]. *)
Definition loadArray (r : VLSVReader) (name : string) (attribs : Attribs)
  : bool * VLSVReader :=
  if negb (fileOpen r) then (false, r) else
  match xmlReader r name attribs with
  | None => (false, r)
  | Some node =>
      let a := copyArrayInfo (arrayOpen r) name node in
      match datatypeOfLoad (attribute node "datatype") with
      | None => (false, setArrayOpen r a)
      | Some d =>
          let a := setDataType a d in
          let r := setArrayOpen r a in
          if arraySize a =? 0 then (false, r) else
          if vectorSize a =? 0 then (false, r) else
          if dataSize a =? 0 then (false, r) else
          (true, r)
      end
  end.

(** ** The process group *)

(** The collective calls a process makes, in order. *)
Inductive CollectiveOp :=
| BcastSuccess
| BcastOffset
| BcastArraySize
| BcastVectorSize
| BcastDataType
| BcastDataSize.

(** [MPI_Bcast(&x,1,type,root,comm)] over the values [x] of all processes,
    listed by rank: afterwards every process holds the root's value. *)
Definition MPI_Bcast {A : Type} (root : nat) (xs : list A) : list A :=
  match xs !! root with
  | Some v => map (fun _ => v) xs
  | None => xs
  end.

(** What one process holds when [getArrayInfo] returns: the result, its
    reader and the collective calls it made. *)
Record ProcessResult := mkResult {
  returned : bool;
  reader : VLSVReader;
  collectives : list CollectiveOp
}.

(** [VLSVParReader::getArrayInfo(tagName,attribs)] run by every process of the
    group; [procs] lists the readers by rank.  Each process first computes
    [success] (the master through [loadArray]), then takes part in the
    broadcast of [globalSuccess], and only with a non-zero flag in the five
    broadcasts of the members of [arrayOpen]. *)
Definition getArrayInfo (masterRank : nat) (procs : list VLSVReader)
    (name : string) (attribs : Attribs) : list ProcessResult :=
  let local : list (bool * VLSVReader) :=
    imap (fun myRank r =>
            if Nat.eqb myRank masterRank then loadArray r name attribs
            else (true, r)) procs in
  let globalSuccess :=
    MPI_Bcast masterRank (map (fun x : bool * VLSVReader => if fst x then 1 else 0) local) in
  let offsets := MPI_Bcast masterRank (map (fun x : bool * VLSVReader => offset (arrayOpen (snd x))) local) in
  let arraySizes := MPI_Bcast masterRank (map (fun x : bool * VLSVReader => arraySize (arrayOpen (snd x))) local) in
  let vectorSizes := MPI_Bcast masterRank (map (fun x : bool * VLSVReader => vectorSize (arrayOpen (snd x))) local) in
  let dataTypes := MPI_Bcast masterRank (map (fun x : bool * VLSVReader => dataType (arrayOpen (snd x))) local) in
  let dataSizes := MPI_Bcast masterRank (map (fun x : bool * VLSVReader => dataSize (arrayOpen (snd x))) local) in
  imap (fun myRank (x : bool * VLSVReader) =>
          if nth myRank globalSuccess 0 =? 0 then mkResult false (snd x) [BcastSuccess]
          else
            mkResult true
              (setArrayOpen (snd x)
                 (mkArrayOpen (nth myRank offsets 0) (tagName (arrayOpen (snd x)))
                    (nth myRank arraySizes 0) (nth myRank vectorSizes 0)
                    (nth myRank dataSizes 0) (nth myRank dataTypes UNKNOWN)))
              [BcastSuccess; BcastOffset; BcastArraySize; BcastVectorSize;
               BcastDataType; BcastDataSize])
       local.

(** ** Metadata queries *)

(** [VLSVReader::getArrayAttributes]: the result and [attribsOut]
    afterwards. *)
Definition VLSVReader_getArrayAttributes (r : VLSVReader) (name : string) (attribsIn : Attribs)
    (attribsOut : gmap string string) : bool * gmap string string :=
  if negb (fileOpen r) then (false, attribsOut) else
  match xmlReader r name attribsIn with
  | None => (false, attribsOut)
  | Some node => (true, attributes node)
  end.

(** [VLSVReader::getArrayInfo(tagName,attribs,arraySize,vectorSize,dataType,
    dataSize)]: the result and the four output variables afterwards.  The
    three sizes are assigned before the [datatype] attribute is looked at. *)
Definition VLSVReader_getArrayInfo (r : VLSVReader) (name : string) (attribs : Attribs)
    (arraySize vectorSize : Z) (dataType : datatype) (dataSize : Z)
  : bool * (Z * Z * datatype * Z) :=
  if negb (fileOpen r) then (false, (arraySize, vectorSize, dataType, dataSize)) else
  match xmlReader r name attribs with
  | None => (false, (arraySize, vectorSize, dataType, dataSize))
  | Some node =>
      let arraySize := wrap64 (atoi (attribute node "arraysize")) in
      let vectorSize := wrap64 (atoi (attribute node "vectorsize")) in
      let dataSize := wrap64 (atoi (attribute node "datasize")) in
      match datatypeOfLoad (attribute node "datatype") with
      | None => (false, (arraySize, vectorSize, dataType, dataSize))
      | Some d => (true, (arraySize, vectorSize, d, dataSize))
      end
  end.

(** ** Attributes across the process group *)

(** [s.c_str()] as [strncpy] and the [std::string] constructor read it: the
    characters before the first NUL. *)
Fixpoint c_str (s : string) : string :=
  match s with
  | EmptyString => EmptyString
  | String c s' => if Ascii.eqb c Ascii.zero then EmptyString else String c (c_str s')
  end.

Fixpoint firstChars (n : nat) (s : string) : string :=
  match n, s with
  | S n', String c s' => String c (firstChars n' s')
  | _, _ => EmptyString
  end.

(** One string through [strncpy(buf,s.c_str(),maxLength-1)], the broadcast
    of the 512 characters of [buf] and [std::string(buf)] on the receiver.
    A string of fewer than 511 characters arrives as it is ([strncpy] fills
    the rest of the 511 with NULs).  Of a longer one the first 511 characters
    are copied and [buf[511]], which nothing writes, ends the string if it
    holds NUL; if it does not, the receiver reads past the array, which is
    undefined: [None]. *)
Definition throughBuffer (last : Ascii.ascii) (s : string) : option string :=
  let c := c_str s in
  if (String.length c <? 511)%nat then Some c
  else if Ascii.eqb last Ascii.zero then Some (firstChars 511 c) else None.

(** The entries of a [std::map<string,string>] in the order its iterator
    visits them: by key. *)
Fixpoint insertSorted (p : string * string) (l : list (string * string))
  : list (string * string) :=
  match l with
  | [] => [p]
  | q :: l' => if String.leb (fst p) (fst q) then p :: l else q :: insertSorted p l'
  end.

Definition sortedEntries (m : gmap string string) : list (string * string) :=
  foldr insertSorted [] (map_to_list m).

(** The loop of a process that is not the master: [attribsOut[attribName] =
    attribValue] for every pair of buffers received. *)
Fixpoint receiveAttributes (lastName lastValue : Ascii.ascii)
    (sent : list (string * string)) (attribsOut : gmap string string)
  : option (gmap string string) :=
  match sent with
  | [] => Some attribsOut
  | (k, v) :: rest =>
      match throughBuffer lastName k, throughBuffer lastValue v with
      | Some k', Some v' => receiveAttributes lastName lastValue rest (<[k' := v']> attribsOut)
      | _, _ => None
      end
  end.

(** [VLSVParReader::getArrayAttributes] run by every process of the group:
    [procs] lists by rank the reader and the map [attribsOut] of each;
    [lastName] and [lastValue] are what [attribName[511]] and
    [attribValue[511]] hold on the master.  The master resolves the tag and
    the flag is broadcast; with a non-zero flag the number of attributes and
    then every name and value are broadcast.  The result of a process is
    [None] where its behaviour is undefined. *)
Definition VLSVParReader_getArrayAttributes (lastName lastValue : Ascii.ascii)
    (masterRank : nat) (procs : list (VLSVReader * gmap string string))
    (name : string) (attribsIn : Attribs)
  : list (option (bool * gmap string string)) :=
  let local : list (bool * gmap string string) :=
    imap (fun myRank (x : VLSVReader * gmap string string) =>
            if Nat.eqb myRank masterRank
            then VLSVReader_getArrayAttributes (fst x) name attribsIn (snd x)
            else (true, snd x)) procs in
  let globalSuccess :=
    MPI_Bcast masterRank
      (map (fun x : bool * gmap string string => if fst x then 1 else 0) local) in
  let sent : list (list (string * string)) :=
    MPI_Bcast masterRank
      (map (fun x : bool * gmap string string => sortedEntries (snd x)) local) in
  imap (fun myRank (x : bool * gmap string string) =>
          if nth myRank globalSuccess 0 =? 0 then Some (false, snd x)
          else if Nat.eqb myRank masterRank then Some (fst x, snd x)
          else match receiveAttributes lastName lastValue (nth myRank sent []) (snd x) with
               | Some out => Some (fst x, out)
               | None => None
               end)
       local.

End vlsv.

(* ===================================================================== *)
(** * Concrete meshes and readers *)
(* ===================================================================== *)

Module Scenarios.
Import amr.
Import (notations) PrimFloat.

(** What the uninitialised locals hold in the scenarios. *)
Definition noLocalIDs : nat -> LocalID := fun _ => 0.

(** The unit cube, every block of level [startLevel] kept by [initialize]. *)
Definition unitCube (Nx0 Ny0 Nz0 maxRefLevel startLevel : Z) : AmrMesh :=
  snd (initialize (fun _ => false) (construct Nx0 Ny0 Nz0 4 4 4 maxRefLevel)
         0%float 1%float 0%float 1%float 0%float 1%float startLevel).

(** The mesh after [refine(g)]. *)
Definition afterRefine (M : AmrMesh) (g : GlobalID) : AmrMesh :=
  match refine noLocalIDs 8 M g with
  | Some (_, M') => M'
  | None => M
  end.

(** One root block, sixteen refinement levels allowed. *)
Definition deepOctree : AmrMesh := unitCube 1 1 1 16 0.

(** One root block, one refinement level allowed, the eight blocks of
    level 1 present. *)
Definition octree1 : AmrMesh := unitCube 1 1 1 1 1.

(** One root block, three refinement levels allowed, the eight blocks of
    level 1 present (ids 1..8). *)
Definition octree3 : AmrMesh := unitCube 1 1 1 3 1.

(** [octree3] after [refine(1)]: block (1,0,0,0) is replaced by its
    children 9, 10, 13, 14, 25, 26, 29, 30. *)
Definition mesh1 : AmrMesh := afterRefine octree3 1.

(** [mesh1] after [refine(13)]: block (2,0,1,0) is replaced by its children
    on level 3, and balancing refines block 3 = (1,0,1,0). *)
Definition mesh2 : AmrMesh := afterRefine mesh1 13.

(** The mesh after [refine] of the block at the address [a]. *)
Definition refineAt (M : AmrMesh) (a : Z * Z * Z * Z) : AmrMesh :=
  let '(l, i, j, k) := a in
  match refine noLocalIDs 16 M (getGlobalID M l i j k) with
  | Some (_, M') => M'
  | None => M
  end.

(** The unit cube with twelve refinement levels allowed, refined along the
    edge x = y = 0 towards the plane z = 1/2 from both sides: down to level
    11 below the plane and to level 10 above it.  141 leaves. *)
Definition tower12 : AmrMesh :=
  fold_left refineAt
    [ (0,0,0,0);
      (1,0,0,0); (1,0,0,1);
      (2,0,0,1); (2,0,0,2);
      (3,0,0,3); (3,0,0,4);
      (4,0,0,7); (4,0,0,8);
      (5,0,0,15); (5,0,0,16);
      (6,0,0,31); (6,0,0,32);
      (7,0,0,63); (7,0,0,64);
      (8,0,0,127); (8,0,0,128);
      (9,0,0,255); (9,0,0,256);
      (10,0,0,511) ]
    (unitCube 1 1 1 12 0).

(** [mesh1] with a refine callback that answers with the ids it was handed. *)
Definition echoMesh : AmrMesh :=
  snd (registerCallbacks mesh1 None None None (Some (fun _ _ ids => ids))).

(** Two base blocks along x on [0,2]x[0,1]x[0,1], no refinement; the first
    draw of [rand()] leaves block 0 out, block 1 is present. *)
Definition holeMesh : AmrMesh :=
  snd (initialize (fun n => Nat.eqb n 0) (construct 2 1 1 4 4 4 0)
         0%float 2%float 0%float 1%float 0%float 1%float 0).

(** A file of sixteen bytes and a footer that knows one array, "A": three
    elements of one two-byte integer each, stored from byte 4 on. *)
Definition someBytes : list Byte.byte :=
  [Byte.x00; Byte.x01; Byte.x02; Byte.x03; Byte.x04; Byte.x05; Byte.x06; Byte.x07;
   Byte.x08; Byte.x09; Byte.x0a; Byte.x0b; Byte.x0c; Byte.x0d; Byte.x0e; Byte.x0f].

Definition nodeA : vlsv.XMLNode :=
  vlsv.mkXMLNode "4"
    (<["arraysize" := "3"]> (<["vectorsize" := "1"]> (<["datasize" := "2"]>
       (<["datatype" := "int"]> ∅)))).

Definition footerA : string -> vlsv.Attribs -> option vlsv.XMLNode :=
  fun name _ => if String.eqb name "A" then Some nodeA else None.

Definition noArray : vlsv.ArrayOpenState := vlsv.mkArrayOpen 0 "" 0 0 0 vlsv.UNKNOWN.

(** An open reader of that file, and a process that has no footer. *)
Definition readerA : vlsv.VLSVReader :=
  vlsv.mkReader true (vlsv.mkIstream someBytes 16 0 false) footerA noArray.

Definition worker : vlsv.VLSVReader :=
  vlsv.mkReader true (vlsv.mkIstream [] 0 0 false) (fun _ _ => None) noArray.

(** A tag of datatype "unknown", and a tag without the attribute
    [arraysize]; a reader whose footer answers every query with it. *)
Definition nodeU : vlsv.XMLNode :=
  vlsv.mkXMLNode "4"
    (<["arraysize" := "3"]> (<["vectorsize" := "1"]> (<["datasize" := "2"]>
       (<["datatype" := "unknown"]> ∅)))).

Definition readerU : vlsv.VLSVReader :=
  vlsv.mkReader true (vlsv.mkIstream someBytes 16 0 false) (fun _ _ => Some nodeU) noArray.

Definition nodeNoSize : vlsv.XMLNode :=
  vlsv.mkXMLNode "4" (<["vectorsize" := "1"]> (<["datasize" := "2"]> (<["datatype" := "int"]> ∅))).

Definition readerNoSize : vlsv.VLSVReader :=
  vlsv.mkReader true (vlsv.mkIstream someBytes 16 0 false) (fun _ _ => Some nodeNoSize) noArray.

End Scenarios.

(* ===================================================================== *)
(** * Facts about the machine arithmetic *)
(* ===================================================================== *)

Module MachineFacts.
Import Machine.

Lemma wrap32_small x : 0 <= x < 2 ^ 32 -> wrap32 x = x.
Proof. intros; unfold wrap32; apply Z.mod_small; lia. Qed.
Lemma wrap64_small x : 0 <= x < 2 ^ 64 -> wrap64 x = x.
Proof. intros; unfold wrap64; apply Z.mod_small; lia. Qed.
Lemma double_to_uint32_small x : 0 <= x < 2 ^ 32 -> double_to_uint32 x = x.
Proof.
  intros; unfold double_to_uint32.
  destruct (Z.ltb_spec x (2 ^ 63)); [apply wrap32_small|]; lia.
Qed.
Lemma double_to_uint64_small x : 0 <= x < 2 ^ 64 -> double_to_uint64 x = x.
Proof.
  intros; unfold double_to_uint64. destruct (Z.ltb_spec x (2 ^ 64)); lia.
Qed.
Lemma round_double_small x : x < 2 ^ 53 -> round_double x = x.
Proof.
  intros; unfold round_double. destruct (Z.ltb_spec x (2 ^ 53)); [reflexivity|lia].
Qed.

Lemma signed64_small x : 0 <= x < 2 ^ 63 -> signed64 x = x.
Proof.
  intros H. unfold signed64, wrap64. rewrite Z.mod_small by lia.
  destruct (Z.ltb_spec x (2 ^ 63)); lia.
Qed.

Lemma wrap64_range x : 0 <= wrap64 x < 2 ^ 64.
Proof. unfold wrap64. apply Z.mod_pos_bound. lia. Qed.

End MachineFacts.

(* ===================================================================== *)
(** * Facts about the mesh index *)
(* ===================================================================== *)

Module AmrFacts.
Import Machine MachineFacts amr Scenarios.
Import (notations) PrimFloat.

(** ** The offsets table and the address map *)

Lemma pow8_split l : 0 <= l -> 8 ^ l = 2 ^ l * 2 ^ l * 2 ^ l.
Proof.
  intros. change 8 with (2 * 2 * 2). rewrite !Z.pow_mul_l. reflexivity.
Qed.

Lemma offN_bound N0 n : 0 <= N0 -> 0 <= offN N0 n <= N0 * 8 ^ Z.of_nat n.
Proof.
  intros HN. induction n as [|n IH].
  - simpl. lia.
  - cbn [offN]. rewrite Nat2Z.inj_succ, Z.pow_succ_r by lia.
    assert (0 < 8 ^ Z.of_nat n) by (apply Z.pow_pos_nonneg; lia). nia.
Qed.

Lemma offN_mono N0 a b : 0 <= N0 -> (a <= b)%nat -> offN N0 a <= offN N0 b.
Proof.
  intros HN Hab. induction Hab as [|b Hab IH]; [lia|].
  cbn [offN]. assert (0 < 8 ^ Z.of_nat b) by (apply Z.pow_pos_nonneg; lia). nia.
Qed.

Lemma fillOffsets_eq N0 n : forall i,
  0 <= N0 -> N0 * 8 ^ Z.of_nat (i + n) < 2 ^ 53 ->
  fillOffsets N0 (offN N0 i) (Z.of_nat (S i)) n = map (offN N0) (seq (S i) n).
Proof.
  induction n as [|n IH]; intros i HN Hb; [reflexivity|].
  cbn [fillOffsets seq map].
  replace (Z.of_nat (S i) - 1) with (Z.of_nat i) by lia.
  assert (Hs : 0 <= offN N0 (S i) < 2 ^ 53).
  { pose proof (offN_bound N0 (S i) HN).
    assert (8 ^ Z.of_nat (S i) <= 8 ^ Z.of_nat (i + S n)) by (apply Z.pow_le_mono_r; lia).
    nia. }
  assert (Hi : offN N0 i <= offN N0 (S i)) by (apply offN_mono; [exact HN|lia]).
  rewrite (round_double_small (offN N0 i)) by lia.
  change (offN N0 i + N0 * 8 ^ Z.of_nat i) with (offN N0 (S i)).
  rewrite round_double_small by lia.
  rewrite double_to_uint64_small by lia.
  f_equal. replace (Z.of_nat (S i) + 1) with (Z.of_nat (S (S i))) by lia.
  apply IH; [exact HN|]. replace (S i + n)%nat with (i + S n)%nat by lia. exact Hb.
Qed.

Lemma buildOffsets_eq N0 L :
  0 <= N0 -> 0 <= L -> N0 * 8 ^ L < 2 ^ 53 ->
  buildOffsets N0 L = map (offN N0) (seq 0 (S (Z.to_nat L))).
Proof.
  intros HN HL Hb. unfold buildOffsets. cbn [seq map offN]. f_equal.
  apply (fillOffsets_eq N0 (Z.to_nat L) 0 HN).
  rewrite Nat.add_0_l, Z2Nat.id by lia. exact Hb.
Qed.

Lemma upper_bound_map_offN N0 (n : nat) : forall (s : nat) (v : Z) (t : nat),
  0 <= N0 ->
  (s <= t < s + n)%nat ->
  offN N0 t <= v ->
  ((S t < s + n)%nat -> v < offN N0 (S t)) ->
  upper_bound (map (offN N0) (seq s n)) v = Z.of_nat (S t - s).
Proof.
  induction n as [|n IH]; intros s v t HN Hst Hlo Hhi; [lia|].
  cbn [seq map upper_bound].
  assert (offN N0 s <= v) by (pose proof (offN_mono N0 s t HN); lia).
  destruct (Z.ltb_spec v (offN N0 s)); [lia|].
  destruct (Nat.eq_dec s t) as [->|Hne].
  - destruct n as [|n].
    + cbn. lia.
    + cbn [seq map upper_bound].
      destruct (Z.ltb_spec v (offN N0 (S t))); [lia|].
      exfalso. assert (v < offN N0 (S t)) by (apply Hhi; lia). lia.
  - rewrite (IH (S s) v t HN); [lia|lia|exact Hlo|]. intros; apply Hhi; lia.
Qed.

Section Fits.
Variable M : AmrMesh.
Hypothesis HF : fits M.

Lemma fits_offsets : offsets M = map (offN (N_blocks0 M)) (seq 0 (S (Z.to_nat (refLevelMaxAllowed M)))).
Proof.
  destruct HF as (Hx & Hy & Hz & HL & Hb & HN & Ho).
  rewrite Ho. apply buildOffsets_eq; [nia|lia|].
  rewrite HN. lia.
Qed.

Lemma fits_N0_pos : 1 <= N_blocks0 M.
Proof. destruct HF as (Hx & Hy & Hz & HL & Hb & HN & Ho). rewrite HN. nia. Qed.

Lemma offsetAt_fits l : 0 <= l <= refLevelMaxAllowed M ->
  offsetAt M l = offN (N_blocks0 M) (Z.to_nat l).
Proof.
  intros Hl. unfold offsetAt. rewrite fits_offsets.
  rewrite (nth_indep _ 0 (offN (N_blocks0 M) 0)) by (rewrite length_map, length_seq; lia).
  rewrite map_nth. rewrite seq_nth by lia. reflexivity.
Qed.

Lemma pow2_level_bound l : 0 <= l <= refLevelMaxAllowed M ->
  1 <= 2 ^ l /\ bboxAt M 0 * bboxAt M 1 * bboxAt M 2 * (2 ^ l * 2 ^ l * 2 ^ l) < 2 ^ 32.
Proof.
  intros Hl. destruct HF as (Hx & Hy & Hz & HL & Hb & HN & Ho).
  assert (1 <= 2 ^ l) by (pose proof (Z.pow_pos_nonneg 2 l); lia).
  split; [assumption|].
  rewrite <- pow8_split by lia.
  assert (8 ^ l <= 8 ^ refLevelMaxAllowed M) by (apply Z.pow_le_mono_r; lia).
  nia.
Qed.

Lemma offN_succ_level l : 0 <= l ->
  offN (N_blocks0 M) (Z.to_nat (l + 1)) =
  offN (N_blocks0 M) (Z.to_nat l) + N_blocks0 M * (2 ^ l * 2 ^ l * 2 ^ l).
Proof.
  intros Hl. rewrite Z2Nat.inj_add by lia. rewrite Nat.add_1_r. cbn [offN].
  rewrite Z2Nat.id by lia. rewrite pow8_split by lia. reflexivity.
Qed.

Lemma idOf_range l i j k : validAddr M l i j k ->
  offN (N_blocks0 M) (Z.to_nat l) <= idOf M l i j k
  < offN (N_blocks0 M) (Z.to_nat l) + N_blocks0 M * (2 ^ l * 2 ^ l * 2 ^ l).
Proof.
  intros (Hl & Hi & Hj & Hk). unfold idOf.
  destruct (pow2_level_bound l Hl) as [Hp Hb].
  destruct HF as (Hx & Hy & Hz & HL & _ & HN & Ho). rewrite HN.
  set (P := 2 ^ l) in *. set (X := bboxAt M 0) in *. set (Y := bboxAt M 1) in *.
  set (Z0 := bboxAt M 2) in *.
  assert (0 <= j * (X * P) + i < Y * P * (X * P)) by nia.
  assert (k * (Y * P * (X * P)) + (Y * P * (X * P)) <= Z0 * P * (Y * P * (X * P))) by nia.
  split; [nia|]. nia.
Qed.

Lemma idOf_small l i j k : validAddr M l i j k -> 0 <= idOf M l i j k < 2 ^ 33.
Proof.
  intros Hv. pose proof (idOf_range l i j k Hv) as Hr.
  destruct Hv as (Hl & _). destruct (pow2_level_bound l Hl) as [Hp Hb].
  pose proof (offN_bound (N_blocks0 M) (Z.to_nat l)) as Ho.
  rewrite Z2Nat.id in Ho by lia. rewrite pow8_split in Ho by lia.
  pose proof fits_N0_pos.
  destruct HF as (Hx & Hy & Hz & HL & _ & HN & _). rewrite HN in *. lia.
Qed.

Lemma getGlobalID_exact l i j k : validAddr M l i j k ->
  getGlobalID M l i j k = idOf M l i j k.
Proof.
  intros Hv. pose proof (idOf_small l i j k Hv) as Hs.
  pose proof (idOf_range l i j k Hv) as Hr.
  destruct Hv as (Hl & Hi & Hj & Hk).
  destruct (pow2_level_bound l Hl) as [Hp Hb].
  unfold getGlobalID. rewrite offsetAt_fits by exact Hl.
  destruct HF as (Hx & Hy & Hz & HL & _ & HN & Ho).
  unfold idOf in *.
  set (P := 2 ^ l) in *. set (X := bboxAt M 0) in *. set (Y := bboxAt M 1) in *.
  set (Z0 := bboxAt M 2) in *.
  assert (HP32 : 0 <= P < 2 ^ 32) by nia.
  rewrite (double_to_uint32_small P HP32).
  assert (0 <= j * (X * P) + i < Y * P * (X * P)) by nia.
  assert (k * (Y * P * (X * P)) + (Y * P * (X * P)) <= Z0 * P * (Y * P * (X * P))) by nia.
  rewrite (wrap32_small (k * Y * X * P * P)) by nia.
  rewrite (wrap32_small (j * X * P)) by nia.
  rewrite wrap64_small by lia.
  lia.
Qed.

Lemma level_small l : 0 <= l <= refLevelMaxAllowed M -> 0 <= l < 2 ^ 32.
Proof.
  intros Hl. destruct (pow2_level_bound l Hl) as [Hp Hb].
  destruct HF as (Hx & Hy & Hz & HL & _ & HN & Ho).
  assert (l < 2 ^ l) by (apply Z.pow_gt_lin_r; lia).
  set (P := 2 ^ l) in *.
  assert (1 <= bboxAt M 0 * bboxAt M 1 * bboxAt M 2) by nia.
  assert (P <= P * P * P) by nia.
  nia.
Qed.

Lemma upper_bound_fits l g : 0 <= l <= refLevelMaxAllowed M ->
  offN (N_blocks0 M) (Z.to_nat l) <= g
  < offN (N_blocks0 M) (Z.to_nat l) + N_blocks0 M * (2 ^ l * 2 ^ l * 2 ^ l) ->
  upper_bound (offsets M) g = l + 1.
Proof.
  intros Hl Hg. rewrite fits_offsets.
  pose proof fits_N0_pos.
  rewrite (upper_bound_map_offN _ _ 0%nat g (Z.to_nat l)); [lia|lia|lia|lia|].
  intros _. cbn [offN]. rewrite Z2Nat.id by lia. rewrite pow8_split by lia. lia.
Qed.

Lemma getIndices_idOf l i j k : validAddr M l i j k ->
  getIndices M (idOf M l i j k) = (l, i, j, k).
Proof.
  intros Hv. pose proof (idOf_small l i j k Hv) as Hs.
  pose proof (idOf_range l i j k Hv) as Hr.
  destruct Hv as (Hl & Hi & Hj & Hk).
  pose proof (level_small l Hl) as Hl32.
  destruct (pow2_level_bound l Hl) as [Hp Hb].
  unfold getIndices.
  rewrite (upper_bound_fits l _ Hl Hr).
  replace (l + 1 - 1) with l by lia. rewrite (wrap32_small l Hl32).
  rewrite offsetAt_fits by exact Hl.
  destruct HF as (Hx & Hy & Hz & HL & _ & HN & Ho).
  unfold idOf in *.
  set (P := 2 ^ l) in *. set (X := bboxAt M 0) in *. set (Y := bboxAt M 1) in *.
  set (Z0 := bboxAt M 2) in *. set (O := offN (N_blocks0 M) (Z.to_nat l)) in *.
  assert (HP32 : 0 <= P < 2 ^ 32) by nia.
  rewrite (double_to_uint64_small P) by lia.
  assert (HX : 0 < X * P < 2 ^ 32) by nia.
  assert (HY : 0 < Y * P < 2 ^ 32) by nia.
  assert (HXY : 0 < Y * P * (X * P) < 2 ^ 32) by nia.
  rewrite (wrap64_small (X * P)) by lia.
  rewrite (wrap64_small (Y * P)) by lia.
  rewrite (wrap64_small (Y * P * (X * P))) by lia.
  assert (Hji : 0 <= j * (X * P) + i < Y * P * (X * P)) by nia.
  assert (Hkb : k * (Y * P * (X * P)) + (Y * P * (X * P)) <= Z0 * P * (Y * P * (X * P))) by nia.
  assert (Hk32 : 0 <= k < 2 ^ 32) by nia.
  replace (O + k * (Y * P * (X * P)) + j * (X * P) + i - O)
    with (k * (Y * P * (X * P)) + (j * (X * P) + i)) by lia.
  rewrite (wrap64_small (k * (Y * P * (X * P)) + (j * (X * P) + i))) by nia.
  assert (Ek : (k * (Y * P * (X * P)) + (j * (X * P) + i)) / (Y * P * (X * P)) = k).
  { symmetry. apply (Z.div_unique _ _ k (j * (X * P) + i)); [lia|lia]. }
  rewrite Ek. rewrite (wrap32_small k Hk32).
  replace (k * (Y * P * (X * P)) + (j * (X * P) + i) - k * (Y * P) * (X * P))
    with (j * (X * P) + i) by lia.
  rewrite (wrap64_small (j * (X * P) + i)) by lia.
  assert (Ej : (j * (X * P) + i) / (X * P) = j).
  { symmetry. apply (Z.div_unique _ _ j i); [lia|lia]. }
  rewrite Ej. rewrite (wrap32_small j) by nia.
  replace (j * (X * P) + i - j * (X * P)) with i by lia.
  rewrite (wrap32_small i) by nia. reflexivity.
Qed.

(** On a mesh that fits the machine ranges [getIndices] inverts
    [getGlobalID] on every address within the grid. *)
Lemma getIndices_getGlobalID l i j k : validAddr M l i j k ->
  getIndices M (getGlobalID M l i j k) = (l, i, j, k).
Proof.
  intros Hv. rewrite getGlobalID_exact by exact Hv. apply getIndices_idOf, Hv.
Qed.

Lemma childAddrs_spec i j k a b c :
  In (a, b, c) (childAddrs i j k) <->
  (a = 2 * i \/ a = 2 * i + 1) /\ (b = 2 * j \/ b = 2 * j + 1) /\ (c = 2 * k \/ c = 2 * k + 1).
Proof.
  unfold childAddrs. cbn [In]. split.
  - intros H. repeat (destruct H as [H|H]; [inversion H; lia|]). destruct H.
  - intros ([-> | ->] & [-> | ->] & [-> | ->]); tauto.
Qed.

Lemma validAddr_bounds l i j k : validAddr M l i j k ->
  0 <= i < 2 ^ 32 /\ 0 <= j < 2 ^ 32 /\ 0 <= k < 2 ^ 32 /\
  0 < bboxAt M 0 * 2 ^ l < 2 ^ 32 /\ 0 < bboxAt M 1 * 2 ^ l < 2 ^ 32 /\
  0 < bboxAt M 2 * 2 ^ l < 2 ^ 32.
Proof.
  intros (Hl & Hi & Hj & Hk). destruct (pow2_level_bound l Hl) as [Hp Hb].
  destruct HF as (Hx & Hy & Hz & HL & _ & HN & Ho).
  set (P := 2 ^ l) in *. set (X := bboxAt M 0) in *. set (Y := bboxAt M 1) in *.
  set (Z0 := bboxAt M 2) in *.
  assert (HPP : 1 <= P * P) by nia.
  assert (1 <= Y * Z0 * (P * P)) by nia.
  assert (1 <= X * Z0 * (P * P)) by nia.
  assert (1 <= X * Y * (P * P)) by nia.
  assert (X * P <= X * P * (Y * Z0 * (P * P))) by nia.
  assert (Y * P <= Y * P * (X * Z0 * (P * P))) by nia.
  assert (Z0 * P <= Z0 * P * (X * Y * (P * P))) by nia.
  assert (X * P < 2 ^ 32) by lia.
  assert (Y * P < 2 ^ 32) by lia.
  assert (Z0 * P < 2 ^ 32) by lia.
  repeat split; try lia; nia.
Qed.

Lemma validAddr_child l i j k a b c : validAddr M l i j k -> l < refLevelMaxAllowed M ->
  In (a, b, c) (childAddrs i j k) -> validAddr M (l + 1) a b c.
Proof.
  intros (Hl & Hi & Hj & Hk) HlL Hin. apply childAddrs_spec in Hin.
  unfold validAddr. rewrite Z.pow_add_r, Z.pow_1_r by lia.
  set (P := 2 ^ l) in *. nia.
Qed.

Lemma validAddr_parent l i j k : validAddr M l i j k -> 0 < l ->
  validAddr M (l - 1) (i / 2) (j / 2) (k / 2).
Proof.
  intros (Hl & Hi & Hj & Hk) Hl0. unfold validAddr.
  replace (2 ^ l) with (2 * 2 ^ (l - 1)) in * by (rewrite <- Z.pow_succ_r by lia; f_equal; lia).
  set (P := 2 ^ (l - 1)) in *.
  pose proof (Z.div_mod i 2 ltac:(lia)). pose proof (Z.mod_pos_bound i 2 ltac:(lia)).
  pose proof (Z.div_mod j 2 ltac:(lia)). pose proof (Z.mod_pos_bound j 2 ltac:(lia)).
  pose proof (Z.div_mod k 2 ltac:(lia)). pose proof (Z.mod_pos_bound k 2 ltac:(lia)).
  repeat split; try lia; nia.
Qed.

Lemma getChildren_getGlobalID l i j k : validAddr M l i j k -> l < refLevelMaxAllowed M ->
  getChildren M (getGlobalID M l i j k) =
  map (fun a => getGlobalID M (l + 1) (fst (fst a)) (snd (fst a)) (snd a)) (childAddrs i j k).
Proof.
  intros Hv HlL. unfold getChildren. rewrite (getIndices_getGlobalID l i j k Hv).
  pose proof (validAddr_bounds l i j k Hv) as (Hi & Hj & Hk & _).
  assert (Hv1 : validAddr M (l + 1) (2 * i + 1) (2 * j + 1) (2 * k + 1)).
  { apply (validAddr_child l i j k); [exact Hv|exact HlL|]. apply childAddrs_spec. lia. }
  pose proof (validAddr_bounds _ _ _ _ Hv1) as (Hi1 & Hj1 & Hk1 & _).
  destruct Hv as (Hl & _). pose proof (level_small (l + 1) ltac:(lia)).
  rewrite (wrap32_small (l + 1)) by lia.
  destruct (Z.ltb_spec (refLevelMaxAllowed M) (l + 1)); [lia|].
  unfold octet, childAddrs. cbn [map fst snd].
  rewrite (wrap32_small (i * 2)), (wrap32_small (j * 2)), (wrap32_small (k * 2)) by lia.
  rewrite (wrap32_small (i * 2 + 1)), (wrap32_small (j * 2 + 1)), (wrap32_small (k * 2 + 1)) by lia.
  replace (i * 2) with (2 * i) by lia. replace (j * 2) with (2 * j) by lia.
  replace (k * 2) with (2 * k) by lia. reflexivity.
Qed.

Lemma getParent_getGlobalID l i j k : validAddr M l i j k -> 0 < l ->
  getParent M (getGlobalID M l i j k) = getGlobalID M (l - 1) (i / 2) (j / 2) (k / 2).
Proof.
  intros Hv Hl0. unfold getParent. rewrite (getIndices_getGlobalID l i j k Hv).
  destruct (Z.eqb_spec l 0); [lia|].
  destruct Hv as (Hl & _). pose proof (level_small (l - 1) ltac:(lia)).
  rewrite (wrap32_small (l - 1)) by lia. reflexivity.
Qed.

Lemma getParent_level0 i j k : validAddr M 0 i j k ->
  getParent M (getGlobalID M 0 i j k) = getGlobalID M 0 i j k.
Proof.
  intros Hv. unfold getParent. rewrite (getIndices_getGlobalID 0 i j k Hv). reflexivity.
Qed.

Lemma in_offs3 d : In d offs3 <-> d = -1 \/ d = 0 \/ d = 1.
Proof. unfold offs3. cbn [In]. intuition lia. Qed.

Lemma wrap32_guard N x : 0 < N < 2 ^ 32 -> -1 <= x <= N ->
  ((N <=? wrap32 x) = false <-> 0 <= x < N).
Proof.
  intros HN Hx. destruct (Z.eq_dec x (-1)) as [->|Hne].
  - change (wrap32 (-1)) with (2 ^ 32 - 1).
    destruct (Z.leb_spec N (2 ^ 32 - 1)); split; intros; try discriminate; lia.
  - rewrite wrap32_small by lia.
    destruct (Z.leb_spec N x); split; intros; try discriminate; try lia; reflexivity.
Qed.

Lemma in_getNeighbors l i j k n : validAddr M l i j k ->
  In n (getNeighbors M (getGlobalID M l i j k)) <->
  exists di dj dk, In di offs3 /\ In dj offs3 /\ In dk offs3 /\
    ~ (di = 0 /\ dj = 0 /\ dk = 0) /\
    validAddr M l (i + di) (j + dj) (k + dk) /\
    n = getGlobalID M l (i + di) (j + dj) (k + dk).
Proof.
  intros Hv. unfold getNeighbors. rewrite (getIndices_getGlobalID l i j k Hv).
  pose proof (validAddr_bounds l i j k Hv) as (Hi & Hj & Hk & HX & HY & HZ).
  rewrite !double_to_uint32_small by lia.
  destruct Hv as (Hl & Hvi & Hvj & Hvk).
  set (NX := bboxAt M 0 * 2 ^ l) in *. set (NY := bboxAt M 1 * 2 ^ l) in *.
  set (NZ := bboxAt M 2 * 2 ^ l) in *.
  rewrite in_flat_map. split.
  - intros (dk & Hdk & H).
    pose proof (proj1 (in_offs3 dk) Hdk) as Hdk'.
    destruct (NZ <=? wrap32 (k + dk)) eqn:Ek; [destruct H|].
    apply (wrap32_guard NZ) in Ek; [|lia|lia].
    apply in_flat_map in H. destruct H as (dj & Hdj & H).
    pose proof (proj1 (in_offs3 dj) Hdj) as Hdj'.
    destruct (NY <=? wrap32 (j + dj)) eqn:Ej; [destruct H|].
    apply (wrap32_guard NY) in Ej; [|lia|lia].
    apply in_flat_map in H. destruct H as (di & Hdi & H).
    pose proof (proj1 (in_offs3 di) Hdi) as Hdi'.
    destruct (NX <=? wrap32 (i + di)) eqn:Ei; [destruct H|].
    apply (wrap32_guard NX) in Ei; [|lia|lia].
    destruct ((di =? 0) && ((dj =? 0) && (dk =? 0))) eqn:E0; [destruct H|].
    destruct H as [H|[]].
    rewrite !wrap32_small in H by lia.
    exists di, dj, dk. repeat split; try assumption; lia.
  - intros (di & dj & dk & Hdi & Hdj & Hdk & Hnz & (_ & Hvi' & Hvj' & Hvk') & ->).
    pose proof (proj1 (in_offs3 dk) Hdk) as Hdk'.
    pose proof (proj1 (in_offs3 dj) Hdj) as Hdj'.
    pose proof (proj1 (in_offs3 di) Hdi) as Hdi'.
    fold NX in Hvi'. fold NY in Hvj'. fold NZ in Hvk'.
    exists dk. split; [exact Hdk|].
    rewrite (proj2 (wrap32_guard NZ (k + dk) ltac:(lia) ltac:(lia)) Hvk').
    apply in_flat_map. exists dj. split; [exact Hdj|].
    rewrite (proj2 (wrap32_guard NY (j + dj) ltac:(lia) ltac:(lia)) Hvj').
    apply in_flat_map. exists di. split; [exact Hdi|].
    rewrite (proj2 (wrap32_guard NX (i + di) ltac:(lia) ltac:(lia)) Hvi').
    destruct ((di =? 0) && ((dj =? 0) && (dk =? 0))) eqn:E0.
    + exfalso. apply Hnz. apply andb_true_iff in E0. destruct E0 as [E1 E2].
      apply andb_true_iff in E2. destruct E2 as [E2 E3]. lia.
    + rewrite !wrap32_small by lia. left; reflexivity.
Qed.
End Fits.

Section Blocks.
Variable M : AmrMesh.
Hypothesis HF : fits M.

Lemma validBlock_inv g : validBlock M g ->
  exists l i j k, validAddr M l i j k /\ g = getGlobalID M l i j k /\ getIndices M g = (l, i, j, k).
Proof.
  unfold validBlock. destruct (getIndices M g) as [[[l i] j] k]. intros [Hv Hg].
  exists l, i, j, k. auto.
Qed.

Lemma validBlock_intro l i j k : validAddr M l i j k -> validBlock M (getGlobalID M l i j k).
Proof.
  intros Hv. unfold validBlock. rewrite (getIndices_getGlobalID M HF l i j k Hv). auto.
Qed.

Lemma levelOf_getGlobalID l i j k : validAddr M l i j k -> levelOf M (getGlobalID M l i j k) = l.
Proof. intros Hv. unfold levelOf. rewrite (getIndices_getGlobalID M HF l i j k Hv). reflexivity. Qed.

Lemma validBlock_level g : validBlock M g -> 0 <= levelOf M g <= refLevelMaxAllowed M.
Proof.
  intros Hg. destruct (validBlock_inv g Hg) as (l & i & j & k & Hv & -> & _).
  rewrite levelOf_getGlobalID by exact Hv. apply Hv.
Qed.

Lemma children_spec g c : validBlock M g -> levelOf M g < refLevelMaxAllowed M ->
  In c (getChildren M g) ->
  validBlock M c /\ levelOf M c = levelOf M g + 1 /\ getParent M c = g.
Proof.
  intros Hg HL Hc. destruct (validBlock_inv g Hg) as (l & i & j & k & Hv & -> & _).
  rewrite levelOf_getGlobalID in * by exact Hv.
  rewrite (getChildren_getGlobalID M HF l i j k Hv HL) in Hc.
  apply in_map_iff in Hc. destruct Hc as ([[a b] c'] & <- & Hin). cbn [fst snd].
  pose proof (validAddr_child M l i j k a b c' Hv HL Hin) as Hvc.
  split; [apply validBlock_intro, Hvc|].
  split; [apply levelOf_getGlobalID, Hvc|].
  rewrite (getParent_getGlobalID M HF _ _ _ _ Hvc) by (destruct Hv; lia).
  apply childAddrs_spec in Hin.
  replace (l + 1 - 1) with l by lia.
  f_equal; Z.div_mod_to_equations; lia.
Qed.

Lemma children_length g : validBlock M g -> levelOf M g < refLevelMaxAllowed M ->
  length (getChildren M g) = 8%nat.
Proof.
  intros Hg HL. destruct (validBlock_inv g Hg) as (l & i & j & k & Hv & -> & _).
  rewrite levelOf_getGlobalID in * by exact Hv.
  rewrite (getChildren_getGlobalID M HF l i j k Hv HL). reflexivity.
Qed.

Lemma neighbors_spec g n : validBlock M g -> In n (getNeighbors M g) ->
  validBlock M n /\ levelOf M n = levelOf M g.
Proof.
  intros Hg Hn. destruct (validBlock_inv g Hg) as (l & i & j & k & Hv & -> & _).
  apply (in_getNeighbors M HF l i j k n Hv) in Hn.
  destruct Hn as (di & dj & dk & _ & _ & _ & _ & Hvn & ->).
  split; [apply validBlock_intro, Hvn|].
  rewrite !levelOf_getGlobalID by assumption. reflexivity.
Qed.

Lemma parent_spec n : validBlock M n -> 0 < levelOf M n ->
  validBlock M (getParent M n) /\ levelOf M (getParent M n) = levelOf M n - 1.
Proof.
  intros Hn Hl. destruct (validBlock_inv n Hn) as (l & i & j & k & Hv & -> & _).
  rewrite levelOf_getGlobalID in * by exact Hv.
  rewrite (getParent_getGlobalID M HF l i j k Hv Hl).
  pose proof (validAddr_parent M l i j k Hv Hl) as Hvp.
  split; [apply validBlock_intro, Hvp|apply levelOf_getGlobalID, Hvp].
Qed.

Lemma parent_level0 n : validBlock M n -> levelOf M n = 0 -> getParent M n = n.
Proof.
  intros Hn Hl. destruct (validBlock_inv n Hn) as (l & i & j & k & Hv & -> & _).
  rewrite levelOf_getGlobalID in * by exact Hv. subst l.
  apply (getParent_level0 M HF), Hv.
Qed.

Lemma ancestor_level a b : isAncestor M a b -> levelOf M a < levelOf M b.
Proof.
  unfold isAncestor, levelOf.
  destruct (getIndices M a) as [[[la ia] ja] ka], (getIndices M b) as [[[lb ib] jb] kb].
  tauto.
Qed.

Lemma ancestor_parent c : validBlock M c -> 0 < levelOf M c -> isAncestor M (getParent M c) c.
Proof.
  intros Hc Hl. destruct (validBlock_inv c Hc) as (l & i & j & k & Hv & -> & _).
  rewrite levelOf_getGlobalID in * by exact Hv.
  rewrite (getParent_getGlobalID M HF l i j k Hv Hl).
  pose proof (validAddr_parent M l i j k Hv Hl) as Hvp.
  unfold isAncestor. rewrite !(getIndices_getGlobalID M HF) by assumption.
  replace (l - (l - 1)) with 1 by lia. rewrite Z.pow_1_r. repeat split; lia.
Qed.

Lemma div_pow2_succ x d : 0 <= d -> x / 2 ^ (d + 1) = x / 2 / 2 ^ d.
Proof.
  intros Hd. rewrite Z.pow_add_r, Z.pow_1_r by lia.
  rewrite (Z.mul_comm (2 ^ d) 2). rewrite Z.div_div; [reflexivity|lia|].
  apply Z.pow_pos_nonneg; lia.
Qed.

(** An ancestor of [c] is the parent of [c] or an ancestor of it. *)
Lemma ancestor_of_child x c : validBlock M x -> validBlock M c -> 0 < levelOf M c ->
  isAncestor M x c -> x = getParent M c \/ isAncestor M x (getParent M c).
Proof.
  intros Hx Hc Hl Ha.
  destruct (validBlock_inv c Hc) as (l & i & j & k & Hv & -> & _).
  destruct (validBlock_inv x Hx) as (lx & ix & jx & kx & Hvx & -> & _).
  rewrite levelOf_getGlobalID in * by exact Hv.
  rewrite (getParent_getGlobalID M HF l i j k Hv Hl).
  pose proof (validAddr_parent M l i j k Hv Hl) as Hvp.
  unfold isAncestor in *. rewrite !(getIndices_getGlobalID M HF) in * by assumption.
  destruct Ha as (Hlt & Hi & Hj & Hk).
  destruct (Z.eq_dec lx (l - 1)) as [->|Hne].
  - left. replace (l - (l - 1)) with 1 in * by lia. rewrite Z.pow_1_r in *.
    subst. reflexivity.
  - right. replace (l - lx) with ((l - 1 - lx) + 1) in * by lia.
    rewrite !div_pow2_succ in * by lia. repeat split; try lia; assumption.
Qed.

(** What has [c] as an ancestor has the parent of [c] as one. *)
Lemma ancestor_lift c x : validBlock M c -> validBlock M x -> 0 < levelOf M c ->
  isAncestor M c x -> isAncestor M (getParent M c) x.
Proof.
  intros Hc Hx Hl Ha.
  destruct (validBlock_inv c Hc) as (l & i & j & k & Hv & -> & _).
  destruct (validBlock_inv x Hx) as (lx & ix & jx & kx & Hvx & -> & _).
  rewrite levelOf_getGlobalID in * by exact Hv.
  rewrite (getParent_getGlobalID M HF l i j k Hv Hl).
  pose proof (validAddr_parent M l i j k Hv Hl) as Hvp.
  unfold isAncestor in *. rewrite !(getIndices_getGlobalID M HF) in * by assumption.
  destruct Ha as (Hlt & Hi & Hj & Hk).
  replace (lx - (l - 1)) with ((lx - l) + 1) by lia.
  rewrite !(Z.pow_add_r 2 (lx - l) 1), !Z.pow_1_r by lia.
  assert (0 < 2 ^ (lx - l)) by (apply Z.pow_pos_nonneg; lia).
  rewrite <- !Z.div_div by lia. rewrite Hi, Hj, Hk. repeat split; lia.
Qed.
End Blocks.

Lemma exists_block_true (m : gmap Z Z) g : exists_block m g = true <-> is_Some (m !! g).
Proof.
  unfold exists_block. destruct (m !! g) eqn:E; split; intros H; try discriminate; eauto.
  destruct H as [? H]; discriminate.
Qed.

Lemma exists_block_false (m : gmap Z Z) g : exists_block m g = false <-> m !! g = None.
Proof. unfold exists_block. destruct (m !! g); split; intros; congruence. Qed.

Lemma map_insert_present k v (m : gmap Z Z) x :
  is_Some (map_insert k v m !! x) <-> x = k \/ is_Some (m !! x).
Proof.
  unfold map_insert. destruct (m !! k) eqn:E.
  - split; [auto|]. intros [->|H]; [rewrite E; eauto|exact H].
  - destruct (decide (k = x)) as [->|Hne].
    + rewrite lookup_insert_eq. split; eauto.
    + rewrite lookup_insert_ne by exact Hne. split; [auto|]. intros [->|H]; [congruence|exact H].
Qed.

Lemma insertPairs_present (f : nat -> Z) (ps : list (nat * Z)) : forall (m : gmap Z Z) x,
  is_Some (fold_left (fun acc p => map_insert (snd p) (f (fst p)) acc) ps m !! x) <->
  In x (map snd ps) \/ is_Some (m !! x).
Proof.
  induction ps as [|p ps IH]; intros m x; cbn [fold_left map In].
  - tauto.
  - rewrite IH, map_insert_present.
    split; intros H; repeat (destruct H as [H|H]); subst; auto.
Qed.

Lemma map_snd_combine_seq (ids : list Z) : forall s, map snd (combine (seq s (length ids)) ids) = ids.
Proof. induction ids as [|a ids IH]; intros s; cbn; [reflexivity|]. f_equal. apply IH. Qed.

Lemma insertAll_present ids f (m : gmap Z Z) x :
  is_Some (insertAll ids f m !! x) <-> In x ids \/ is_Some (m !! x).
Proof. unfold insertAll. rewrite insertPairs_present, map_snd_combine_seq. tauto. Qed.

Lemma delete_present (m : gmap Z Z) g x : is_Some (delete g m !! x) <-> x <> g /\ is_Some (m !! x).
Proof.
  destruct (decide (g = x)) as [->|Hne].
  - rewrite lookup_delete_eq. split; [intros [? H]; discriminate|tauto].
  - rewrite lookup_delete_ne by exact Hne. split; [intros; split; [congruence|assumption]|tauto].
Qed.

Lemma not_present (m : gmap Z Z) x : m !! x = None <-> ~ is_Some (m !! x).
Proof. rewrite eq_None_not_Some. tauto. Qed.

Section Refine.
Variable indeterminate : nat -> LocalID.
Variable M : AmrMesh.
Hypothesis HF : fits M.

Local Abbreviation WF m := (validTable M m /\ leafSet M m).

Lemma getChildren_octet g l i j k : getIndices M g = (l, i, j, k) ->
  validBlock M g -> l < refLevelMaxAllowed M ->
  octet M (wrap32 (l + 1)) (wrap32 (i * 2)) (wrap32 (j * 2)) (wrap32 (k * 2)) = getChildren M g.
Proof.
  intros E Hg Hl. unfold getChildren. rewrite E.
  pose proof (validBlock_level M HF g Hg) as Hlv. unfold levelOf in Hlv. rewrite E in Hlv.
  pose proof (level_small M HF (l + 1) ltac:(lia)).
  rewrite (wrap32_small (l + 1)) by lia.
  destruct (Z.ltb_spec (refLevelMaxAllowed M) (l + 1)); [lia|reflexivity].
Qed.

Lemma step_WF m g f : WF m -> is_Some (m !! g) -> levelOf M g < refLevelMaxAllowed M ->
  WF (insertAll (getChildren M g) f (delete g m)).
Proof.
  intros [Hval Hleaf] Hg Hl. pose proof (Hval g Hg) as Hvg.
  assert (Hdom : forall x, is_Some (insertAll (getChildren M g) f (delete g m) !! x) ->
                 In x (getChildren M g) \/ (x <> g /\ is_Some (m !! x))).
  { intros x Hx. apply insertAll_present in Hx. rewrite delete_present in Hx. exact Hx. }
  split.
  - intros x Hx. destruct (Hdom x Hx) as [Hc|[_ Hm]].
    + apply (children_spec M HF g x Hvg Hl Hc).
    + apply Hval, Hm.
  - intros a b Ha Hb Hanc.
    destruct (Hdom a Ha) as [Hca|[Hag Hma]], (Hdom b Hb) as [Hcb|[Hbg Hmb]].
    + destruct (children_spec M HF g a Hvg Hl Hca) as (_ & La & _).
      destruct (children_spec M HF g b Hvg Hl Hcb) as (_ & Lb & _).
      pose proof (ancestor_level M a b Hanc). lia.
    + destruct (children_spec M HF g a Hvg Hl Hca) as (Hva & La & Pa).
      pose proof (validBlock_level M HF g Hvg).
      apply (Hleaf g b Hg Hmb). rewrite <- Pa.
      apply (ancestor_lift M HF a b Hva (Hval b Hmb)); [lia|exact Hanc].
    + destruct (children_spec M HF g b Hvg Hl Hcb) as (Hvb & Lb & Pb).
      pose proof (validBlock_level M HF g Hvg).
      destruct (ancestor_of_child M HF a b (Hval a Hma) Hvb ltac:(lia) Hanc) as [E|E].
      * rewrite Pb in E. contradiction.
      * rewrite Pb in E. apply (Hleaf a g Hma Hg E).
    + apply (Hleaf a b Hma Hmb Hanc).
Qed.

Lemma gone_stable b m m' : validBlock M b -> levelOf M b < refLevelMaxAllowed M ->
  WF m' -> gone M m b ->
  (forall x, is_Some (m !! x) -> m' !! x = None -> levelOf M x <= levelOf M b) ->
  gone M m' b.
Proof.
  intros Hvb Hl [Hval' Hleaf'] [Hb Hch] Hrem.
  assert (Hch' : forall c, In c (getChildren M b) -> is_Some (m' !! c)).
  { intros c Hc. destruct (m' !! c) eqn:E; [eauto|].
    pose proof (Hrem c (Hch c Hc) E).
    destruct (children_spec M HF b c Hvb Hl Hc) as (_ & Lc & _). lia. }
  split; [|exact Hch'].
  apply not_present. intros Hb'.
  pose proof (children_length M HF b Hvb Hl) as Hlen.
  destruct (getChildren M b) as [|c cs] eqn:Ec; [discriminate|].
  assert (Hc : In c (getChildren M b)) by (rewrite Ec; left; reflexivity).
  rewrite <- Ec in Hch'.
  destruct (children_spec M HF b c Hvb Hl Hc) as (Hvc & Lc & Pc).
  pose proof (validBlock_level M HF b Hvb).
  apply (Hleaf' b c Hb' (Hch' c Hc)). rewrite <- Pc.
  apply (ancestor_parent M HF c Hvc). lia.
Qed.

Lemma removedBelow_refl q m : removedBelow M q m m.
Proof. intros x Hx Hn. rewrite Hn in Hx. destruct Hx; discriminate. Qed.

Lemma removedBelow_trans q m1 m2 m3 : q <= refLevelMaxAllowed M ->
  validTable M m1 -> WF m3 ->
  removedBelow M q m1 m2 -> removedBelow M q m2 m3 -> removedBelow M q m1 m3.
Proof.
  intros Hq Hv1 Hwf3 H12 H23 x Hx1 Hx3.
  destruct (m2 !! x) eqn:E2.
  - apply (H23 x); [rewrite E2; eauto|exact Hx3].
  - destruct (H12 x Hx1 E2) as [Hlt Hg]. split; [exact Hlt|].
    intros Hlv. apply (gone_stable x m2 m3); [apply Hv1, Hx1|lia|exact Hwf3|apply Hg, Hlv|].
    intros y Hy2 Hy3. destruct (H23 y Hy2 Hy3). lia.
Qed.

Lemma refineIDs_S n m g l i j k :
  getIndices M g = (l, i, j, k) -> exists_block m g = true ->
  (l =? refLevelMaxAllowed M) = false ->
  exists f,
    refineIDs indeterminate (S n) M m g =
    match fold_left (balanceStep (refineIDs indeterminate n M) M) (getNeighbors M g)
            (Some (insertAll (octet M (wrap32 (l + 1)) (wrap32 (i * 2)) (wrap32 (j * 2))
                                (wrap32 (k * 2))) f (delete g m)))
    with Some m' => Some (true, m') | None => None end.
Proof.
  intros E Hex Hl. cbn [refineIDs]. rewrite Hex, E, Hl. cbn [negb].
  eexists. reflexivity.
Qed.

Lemma balance_loop n l : refineSpec indeterminate M n -> 0 <= l <= refLevelMaxAllowed M ->
  (Z.to_nat l <= n)%nat ->
  forall nbrs m_s,
    (forall nb, In nb nbrs -> validBlock M nb /\ levelOf M nb = l) ->
    WF m_s ->
    exists m_e,
      fold_left (balanceStep (refineIDs indeterminate n M) M) nbrs (Some m_s) = Some m_e /\
      WF m_e /\ removedBelow M l m_s m_e /\
      (forall nb, In nb nbrs -> getParent M nb <> nb ->
         is_Some (m_s !! getParent M nb) \/ gone M m_s (getParent M nb) ->
         gone M m_e (getParent M nb)).
Proof.
  intros IHn Hl Hfuel. induction nbrs as [|nb rest IH]; intros m_s Hnbrs Hwf.
  - exists m_s. cbn [fold_left]. split; [reflexivity|]. split; [exact Hwf|].
    split; [apply removedBelow_refl|]. intros ? [].
  - cbn [fold_left].
    destruct (Hnbrs nb (or_introl eq_refl)) as [Hvnb Hlnb].
    (* the table after the head's turn *)
    assert (Hk : exists m_k,
      balanceStep (refineIDs indeterminate n M) M (Some m_s) nb = Some m_k /\
      WF m_k /\ removedBelow M l m_s m_k /\
      (getParent M nb <> nb -> is_Some (m_s !! getParent M nb) -> gone M m_k (getParent M nb)) /\
      (m_s !! getParent M nb = None -> m_k = m_s)).
    { unfold balanceStep. destruct (Z.eqb_spec (getParent M nb) nb) as [Ep|Ep].
      - exists m_s. split; [reflexivity|]. split; [exact Hwf|].
        split; [apply removedBelow_refl|]. split; [intros H; contradiction|reflexivity].
      - destruct (exists_block m_s (getParent M nb)) eqn:Ex.
        + apply exists_block_true in Ex.
          assert (Hl0 : 0 < l).
          { destruct (Z.eq_dec l 0) as [->|]; [|lia].
            exfalso. apply Ep. apply (parent_level0 M HF nb Hvnb Hlnb). }
          destruct (parent_spec M HF nb Hvnb ltac:(lia)) as [HvB HlB].
          destruct (IHn m_s (getParent M nb) Hwf Ex ltac:(lia) ltac:(lia))
            as (m_k & Hr & Hwfk & Hgone & Hrem & _ & _).
          rewrite Hr. exists m_k. split; [reflexivity|]. split; [exact Hwfk|].
          split; [|split].
          * replace l with (levelOf M (getParent M nb) + 1) by lia. exact Hrem.
          * intros _ _. exact Hgone.
          * intros Hn. rewrite Hn in Ex. destruct Ex; discriminate.
        + exists m_s. split; [reflexivity|]. split; [exact Hwf|].
          split; [apply removedBelow_refl|]. split; [|reflexivity].
          intros _ HS. apply exists_block_false in Ex. rewrite Ex in HS. destruct HS; discriminate. }
    destruct Hk as (m_k & Hstep & Hwfk & Hremk & Hgk & Hsame).
    rewrite Hstep.
    destruct (IH m_k (fun x Hx => Hnbrs x (or_intror Hx)) Hwfk) as (m_e & Hfold & Hwfe & Hreme & Hpe).
    exists m_e. split; [exact Hfold|]. split; [exact Hwfe|].
    split; [apply (removedBelow_trans l m_s m_k m_e); try assumption; [lia|apply Hwf]|].
    intros nb' Hin Hp Hpre.
    destruct (Hnbrs nb' Hin) as [Hvnb' Hlnb'].
    assert (Hl0 : 0 < l).
    { destruct (Z.eq_dec l 0) as [->|]; [|lia].
      exfalso. apply Hp. apply (parent_level0 M HF nb' Hvnb' Hlnb'). }
    destruct (parent_spec M HF nb' Hvnb' ltac:(lia)) as [HvB HlB].
    (* after the head's turn the parent is in the table or already replaced *)
    assert (Hmid : is_Some (m_k !! getParent M nb') \/ gone M m_k (getParent M nb')).
    { destruct Hpre as [Hs|Hg].
      - destruct (m_k !! getParent M nb') eqn:Ek; [left; eauto|right].
        apply (Hremk _ Hs Ek). lia.
      - right. apply (gone_stable _ m_s m_k); try assumption; [lia|].
        intros y Hy Hy'. destruct (Hremk y Hy Hy'). lia. }
    destruct Hin as [<-|Hin].
    + assert (Hgk' : gone M m_k (getParent M nb)).
      { destruct Hpre as [Hs|Hg]; [apply Hgk; assumption|].
        rewrite (Hsame (proj1 Hg)). exact Hg. }
      apply (gone_stable _ m_k m_e); try assumption; [lia|].
      intros y Hy Hy'. destruct (Hreme y Hy Hy'). lia.
    + apply (Hpe nb' Hin Hp Hmid).
Qed.

Lemma refineIDs_spec n : refineSpec indeterminate M n.
Proof.
  induction n as [|n IHn]; intros m g Hwf Hg Hl Hfuel; [lia|].
  pose proof (proj1 Hwf g Hg) as Hvg.
  pose proof (validBlock_level M HF g Hvg) as Hlv.
  destruct (getIndices M g) as [[[l i] j] k] eqn:E.
  assert (El : levelOf M g = l) by (unfold levelOf; rewrite E; reflexivity).
  rewrite El in *.
  destruct (refineIDs_S n m g l i j k E (proj2 (exists_block_true m g) Hg)
              (proj2 (Z.eqb_neq l (refLevelMaxAllowed M)) ltac:(lia))) as (f & Hr).
  rewrite Hr. rewrite (getChildren_octet g l i j k E Hvg Hl).
  set (m1 := insertAll (getChildren M g) f (delete g m)).
  assert (Hwf1 : WF m1) by (apply step_WF; [exact Hwf|exact Hg|lia]).
  assert (Hm1 : forall x, is_Some (m1 !! x) <-> In x (getChildren M g) \/ (x <> g /\ is_Some (m !! x))).
  { intros x. unfold m1. rewrite insertAll_present, delete_present. tauto. }
  assert (Hg1 : gone M m1 g).
  { split.
    - apply not_present. intros H. apply Hm1 in H. destruct H as [Hc|[Hne _]]; [|congruence].
      destruct (children_spec M HF g g Hvg ltac:(lia) Hc) as (_ & Lc & _). lia.
    - intros c Hc. apply Hm1. left; exact Hc. }
  destruct (balance_loop n l IHn ltac:(lia) ltac:(lia) (getNeighbors M g) m1
              (fun nb Hnb => match neighbors_spec M HF g nb Hvg Hnb with
                             | conj a b => conj a (eq_trans b El) end) Hwf1)
    as (m_e & Hfold & Hwfe & Hreme & Hpe).
  rewrite Hfold. exists m_e. split; [reflexivity|]. split; [exact Hwfe|].
  split; [|split; [|split]].
  - apply (gone_stable g m1 m_e); try assumption; [lia|].
    intros y Hy Hy'. destruct (Hreme y Hy Hy'). lia.
  - intros x Hx Hx'. destruct (Z.eq_dec x g) as [->|Hne].
    + split; [lia|]. intros _.
      apply (gone_stable g m1 m_e); try assumption; [lia|].
      intros y Hy Hy'. destruct (Hreme y Hy Hy'). lia.
    + assert (H1 : is_Some (m1 !! x)) by (apply Hm1; right; tauto).
      destruct (Hreme x H1 Hx'). split; lia.
  - intros nb Hnb Hp Hpm. apply (Hpe nb Hnb Hp). left. apply Hm1. right. split; [|exact Hpm].
    destruct (neighbors_spec M HF g nb Hvg Hnb) as [Hvnb Hlnb].
    intros Heq.
    assert (0 < levelOf M nb).
    { destruct (Z.eq_dec (levelOf M nb) 0) as [E0|]; [|pose proof (validBlock_level M HF nb Hvnb); lia].
      exfalso. apply Hp. apply (parent_level0 M HF nb Hvnb E0). }
    destruct (parent_spec M HF nb Hvnb ltac:(lia)) as [_ HlB].
    rewrite Heq in HlB. lia.
  - intros x Hx Hne Hx'.
    assert (H1 : is_Some (m1 !! x)) by (apply Hm1; right; tauto).
    destruct (Hreme x H1 Hx'). lia.
Qed.
End Refine.

Section Balance.
Variable indeterminate : nat -> LocalID.
Variable M : AmrMesh.
Hypothesis HF : fits M.

Lemma axisTouch_coarse l ib i : 0 < l -> axisTouch (l - 1) ib l i ->
  2 * ib - 1 <= i <= 2 * ib + 2.
Proof.
  intros Hl [H1 H2].
  replace (2 ^ l) with (2 * 2 ^ (l - 1)) in * by (rewrite <- Z.pow_succ_r by lia; f_equal; lia).
  assert (0 < 2 ^ (l - 1)) by (apply Z.pow_pos_nonneg; lia).
  set (Q := 2 ^ (l - 1)) in *. nia.
Qed.

Lemma towards_spec ib i : 2 * ib - 1 <= i <= 2 * ib + 2 ->
  In (towards ib i) offs3 /\ (i + towards ib i) / 2 = ib /\
  (towards ib i = 0 -> i / 2 = ib).
Proof.
  intros H. unfold towards.
  destruct (Z.eqb_spec i (2 * ib - 1)); [|destruct (Z.eqb_spec i (2 * ib + 2))];
    (split; [apply in_offs3; lia|]); split; try (intros; Z.div_mod_to_equations; lia).
Qed.

Lemma coarse_neighbor B g : validBlock M B -> validBlock M g ->
  levelOf M B = levelOf M g - 1 -> touching M B g -> ~ isAncestor M B g ->
  exists nb, In nb (getNeighbors M g) /\ getParent M nb = B /\ getParent M nb <> nb.
Proof.
  intros HB Hg Hlv Ht Hna.
  destruct (validBlock_inv M B HB) as (lb & ib & jb & kb & HvB & -> & EB).
  destruct (validBlock_inv M g Hg) as (l & i & j & k & Hv & -> & Eg).
  rewrite !(levelOf_getGlobalID M HF) in Hlv by assumption. subst lb.
  unfold touching in Ht. rewrite EB, Eg in Ht. destruct Ht as (Ti & Tj & Tk).
  assert (Hl0 : 0 < l) by (destruct HvB; lia).
  apply (axisTouch_coarse l ib i Hl0) in Ti. apply (axisTouch_coarse l jb j Hl0) in Tj.
  apply (axisTouch_coarse l kb k Hl0) in Tk.
  destruct (towards_spec ib i Ti) as (Di & Pi & Zi).
  destruct (towards_spec jb j Tj) as (Dj & Pj & Zj).
  destruct (towards_spec kb k Tk) as (Dk & Pk & Zk).
  set (di := towards ib i) in *. set (dj := towards jb j) in *. set (dk := towards kb k) in *.
  assert (Hvn : validAddr M l (i + di) (j + dj) (k + dk)).
  { destruct HvB as (HlB & HiB & HjB & HkB), Hv as (Hl & Hi & Hj & Hk).
    unfold validAddr.
    replace (2 ^ l) with (2 * 2 ^ (l - 1)) in * by (rewrite <- Z.pow_succ_r by lia; f_equal; lia).
    set (Q := 2 ^ (l - 1)) in *.
    repeat split; try lia; Z.div_mod_to_equations; nia. }
  exists (getGlobalID M l (i + di) (j + dj) (k + dk)).
  assert (Hpar : getParent M (getGlobalID M l (i + di) (j + dj) (k + dk))
                 = getGlobalID M (l - 1) ib jb kb).
  { rewrite (getParent_getGlobalID M HF _ _ _ _ Hvn Hl0). rewrite Pi, Pj, Pk. reflexivity. }
  split; [|split].
  - apply (in_getNeighbors M HF l i j k _ Hv). exists di, dj, dk.
    repeat split; try assumption; try apply Hvn.
    intros (Z1 & Z2 & Z3). apply Hna. unfold isAncestor. rewrite EB, Eg.
    replace (l - (l - 1)) with 1 by lia. rewrite Z.pow_1_r.
    repeat split; [lia|apply Zi, Z1|apply Zj, Z2|apply Zk, Z3].
  - exact Hpar.
  - rewrite Hpar. intros Heq.
    pose proof (f_equal (levelOf M) Heq) as Hlev.
    rewrite !(levelOf_getGlobalID M HF) in Hlev by assumption. lia.
Qed.

Lemma refineIDs_balanced fuel m g :
  validTable M m -> leafSet M m -> balanced M m ->
  is_Some (m !! g) -> levelOf M g < refLevelMaxAllowed M ->
  (Z.to_nat (levelOf M g) < fuel)%nat ->
  exists m', refineIDs indeterminate fuel M m g = Some (true, m') /\
    m' !! g = None /\
    length (getChildren M g) = 8%nat /\
    (forall c, In c (getChildren M g) ->
       is_Some (m' !! c) /\ levelOf M c = levelOf M g + 1) /\
    (forall B, is_Some (m !! B) -> B <> g -> touching M B g ->
       (is_Some (m' !! B) /\ levelOf M g <= levelOf M B <= levelOf M g + 1)
       \/ (m' !! B = None /\ length (getChildren M B) = 8%nat /\
           levelOf M B = levelOf M g - 1 /\
           forall c, In c (getChildren M B) ->
             is_Some (m' !! c) /\ levelOf M c = levelOf M g)).
Proof.
  intros Hval Hleaf Hbal Hg Hl Hfuel.
  destruct (refineIDs_spec indeterminate M HF fuel m g (conj Hval Hleaf) Hg Hl Hfuel)
    as (m' & Hr & Hwf' & [Hgn Hgc] & Hrem & Hnb & Hkeep).
  pose proof (Hval g Hg) as Hvg.
  exists m'. split; [exact Hr|]. split; [exact Hgn|].
  split; [apply (children_length M HF g Hvg Hl)|].
  split.
  { intros c Hc. split; [apply Hgc, Hc|apply (children_spec M HF g c Hvg Hl Hc)]. }
  intros B HB Hne Ht.
  pose proof (Hval B HB) as HvB.
  pose proof (Hbal B g HB Hg Ht) as Hd.
  assert (Hchild : forall b, validBlock M b -> levelOf M b < refLevelMaxAllowed M ->
            gone M m' b -> forall c, In c (getChildren M b) ->
            is_Some (m' !! c) /\ levelOf M c = levelOf M b + 1).
  { intros b Hvb Hlb [_ Hc] c Hin. split; [apply Hc, Hin|apply (children_spec M HF b c Hvb Hlb Hin)]. }
  destruct (Z.eq_dec (levelOf M B) (levelOf M g - 1)) as [Elow|Enlow].
  - right.
    destruct (coarse_neighbor B g HvB Hvg Elow Ht (Hleaf B g HB Hg)) as (nb & Hin & Hp & Hpn).
    assert (HgB : gone M m' B).
    { rewrite <- Hp. apply (Hnb nb Hin Hpn). rewrite Hp. exact HB. }
    split; [apply HgB|]. split; [apply (children_length M HF B HvB); lia|].
    split; [lia|]. intros c Hc.
    destruct (Hchild B HvB ltac:(lia) HgB c Hc). split; [assumption|lia].
  - left. destruct (m' !! B) eqn:EB'; [split; [eauto|lia]|].
    pose proof (Hkeep B HB Hne EB'). lia.
Qed.
End Balance.

(** ** The executable checks are sound *)

Lemma keysOf_present (m : gmap Z Z) g : is_Some (m !! g) -> In g (keysOf m).
Proof.
  intros [x Hx]. unfold keysOf. apply in_map_iff. exists (g, x). split; [reflexivity|].
  apply list_elem_of_In. apply elem_of_map_to_list. exact Hx.
Qed.

Lemma fitsb_sound M : fitsb M = true -> fits M.
Proof.
  unfold fitsb, fits. rewrite !andb_true_iff. intros [H Ho].
  apply bool_decide_eq_true in Ho. repeat split; try lia. exact Ho.
Qed.

Lemma validBlockb_sound M g : validBlockb M g = true -> validBlock M g.
Proof.
  unfold validBlockb, validBlock, validAddrb, validAddr.
  destruct (getIndices M g) as [[[l i] j] k]. lia.
Qed.

Lemma isAncestorb_complete M a b : isAncestor M a b -> isAncestorb M a b = true.
Proof.
  unfold isAncestorb, isAncestor.
  destruct (getIndices M a) as [[[la ia] ja] ka], (getIndices M b) as [[[lb ib] jb] kb].
  intros (H1 & H2 & H3 & H4). rewrite H2, H3, H4, !Z.eqb_refl.
  destruct (Z.ltb_spec la lb); [reflexivity|lia].
Qed.

Lemma touchingb_complete M a b : touching M a b -> touchingb M a b = true.
Proof.
  unfold touchingb, touching, axisTouchb, axisTouch.
  destruct (getIndices M a) as [[[la ia] ja] ka], (getIndices M b) as [[[lb ib] jb] kb].
  intros ([? ?] & [? ?] & [? ?]).
  rewrite !andb_true_iff, !Z.leb_le. tauto.
Qed.

Lemma wellFormedb_sound M : wellFormedb M = true -> wellFormed M.
Proof.
  unfold wellFormedb, wellFormed. rewrite !andb_true_iff.
  intros [[[Hf Hv] Hl] Hb].
  split; [apply fitsb_sound, Hf|]. split; [|split].
  - intros g Hg. apply validBlockb_sound.
    apply (proj1 (forallb_forall _ _) Hv g (keysOf_present _ g Hg)).
  - intros a b Ha Hb' Hanc.
    pose proof (proj1 (forallb_forall _ _) Hl a (keysOf_present _ a Ha)) as H1.
    pose proof (proj1 (forallb_forall _ _) H1 b (keysOf_present _ b Hb')) as H2.
    cbv beta in H2. rewrite (isAncestorb_complete M a b Hanc) in H2. discriminate.
  - intros a b Ha Hb' Ht.
    pose proof (proj1 (forallb_forall _ _) Hb a (keysOf_present _ a Ha)) as H1.
    pose proof (proj1 (forallb_forall _ _) H1 b (keysOf_present _ b Hb')) as H2.
    cbv beta in H2. rewrite (touchingb_complete M a b Ht) in H2. cbn [negb orb] in H2. lia.
Qed.

Lemma balancedLeavesb_sound M : balancedLeavesb M = true ->
  validTable M (globalIDs M) /\ leafSet M (globalIDs M) /\ balanced M (globalIDs M).
Proof.
  unfold balancedLeavesb. rewrite !andb_true_iff.
  intros [[Hv Hl] Hb]. split; [|split].
  - intros g Hg. apply validBlockb_sound.
    apply (proj1 (forallb_forall _ _) Hv g (keysOf_present _ g Hg)).
  - intros a b Ha Hb' Hanc.
    pose proof (proj1 (forallb_forall _ _) Hl a (keysOf_present _ a Ha)) as H1.
    pose proof (proj1 (forallb_forall _ _) H1 b (keysOf_present _ b Hb')) as H2.
    cbv beta in H2. rewrite (isAncestorb_complete M a b Hanc) in H2. discriminate.
  - intros a b Ha Hb' Ht.
    pose proof (proj1 (forallb_forall _ _) Hb a (keysOf_present _ a Ha)) as H1.
    pose proof (proj1 (forallb_forall _ _) H1 b (keysOf_present _ b Hb')) as H2.
    cbv beta in H2. rewrite (touchingb_complete M a b Ht) in H2. cbn [negb orb] in H2.
    apply andb_true_iff in H2. lia.
Qed.

Lemma indexableb_sound M : indexableb M = true -> indexable M.
Proof.
  unfold indexableb, indexable. rewrite andb_true_iff. intros [H0 Hl].
  split; [apply Z.eqb_eq, H0|].
  intros l Hin. pose proof (proj1 (forallb_forall _ _) Hl l Hin) as H. cbv beta in H.
  apply negb_true_iff, Z.eqb_neq in H. exact H.
Qed.

(** A mesh that fits is indexable: on every level [Ny*Nx] lies between 1 and
    [2^32]. *)
Lemma fits_indexable M : fits M -> indexable M.
Proof.
  intros HF. pose proof (fits_offsets M HF) as Ho.
  pose proof HF as (Hx & Hy & Hz & HL & Hb & HN & _).
  unfold indexable. rewrite Ho. split; [reflexivity|].
  rewrite length_map, length_seq. intros l Hin.
  apply list_elem_of_In, elem_of_seqZ in Hin.
  assert (Hl : 0 <= l <= refLevelMaxAllowed M) by lia.
  destruct (pow2_level_bound M HF l Hl) as [Hp Hbd].
  unfold divisor. set (P := 2 ^ l) in *.
  set (X := bboxAt M 0) in *. set (Y := bboxAt M 1) in *. set (Z0 := bboxAt M 2) in *.
  assert (HP : P < 2 ^ 32) by nia.
  rewrite double_to_uint64_small by lia.
  assert (0 < Y * P * (X * P) < 2 ^ 32) by nia.
  rewrite (wrap64_small (Y * P)), (wrap64_small (X * P)) by nia.
  rewrite wrap64_small by lia. lia.
Qed.

Lemma mesh1_wellFormed : wellFormed mesh1.
Proof. apply wellFormedb_sound. vm_compute. reflexivity. Qed.

Lemma mesh2_wellFormed : wellFormed mesh2.
Proof. apply wellFormedb_sound. vm_compute. reflexivity. Qed.

(** ** Addressing *)

(** C1, at an address the code can be given.  A single root block with
    sixteen refinement levels is a mesh like any other, and [(16,0,0,1)] lies
    within the grid of level 16, but [k*bbox[1]*bbox[0]*multiplier*multiplier]
    is formed in [uint32_t] and [1*1*1*65536*65536] wraps to 0: the address
    gets the id of [(16,0,0,0)], and [getIndices] returns that address. *)
Theorem getGlobalID_wraps_at_level_16 :
  validAddr deepOctree 16 0 0 1 /\
  getGlobalID deepOctree 16 0 0 1 = getGlobalID deepOctree 16 0 0 0 /\
  getIndices deepOctree (getGlobalID deepOctree 16 0 0 1) = (16, 0, 0, 0).
Proof.
  split; [|split]; [|vm_compute; reflexivity..].
  unfold validAddr. vm_compute. repeat split; congruence.
Qed.

(** ** Sibling neighbours *)

(** Where the round trip of C1 holds: on a mesh with fewer than [2^32]
    blocks on its finest level, [getIndices] gives back every address
    within the grid from the id [getGlobalID] forms for it. *)
Theorem getGlobalID_round_trip M l i j k :
  fits M -> validAddr M l i j k ->
  getIndices M (getGlobalID M l i j k) = (l, i, j, k).
Proof. intros HF Hv. exact (getIndices_getGlobalID M HF l i j k Hv). Qed.

Lemma getGlobalID_round_trip_witness :
  getIndices octree3 (getGlobalID octree3 3 5 7 2) = (3, 5, 7, 2).
Proof.
  apply getGlobalID_round_trip.
  - apply fitsb_sound. vm_compute. reflexivity.
  - repeat split; vm_compute; first [reflexivity | discriminate].
Defined.

(** [getSiblingNeighbors] returns 56 ids for every block, whatever the
    position of its octet. *)
Lemma getSiblingNeighbors_length M g : length (getSiblingNeighbors M g) = 56%nat.
Proof. unfold getSiblingNeighbors. destruct (getIndices M g) as [[[l i] j] k]. reflexivity. Qed.

Lemma in_offs4 d : In d offs4 <-> d = -1 \/ d = 0 \/ d = 1 \/ d = 2.
Proof. unfold offs4. cbn [In]. intuition lia. Qed.

(** The members of [getSiblingNeighbors], as the loops produce them. *)
Lemma in_getSiblingNeighbors M g n :
  In n (getSiblingNeighbors M g) <->
  exists di dj dk, In di offs4 /\ In dj offs4 /\ In dk offs4 /\
    insideOctet di dj dk = false /\
    let '(l, i, j, k) := getIndices M g in
    n = getGlobalID M l (wrap32 (wrap32 (i - i mod 2) + di))
          (wrap32 (wrap32 (j - j mod 2) + dj)) (wrap32 (wrap32 (k - k mod 2) + dk)).
Proof.
  unfold getSiblingNeighbors. destruct (getIndices M g) as [[[l i] j] k].
  rewrite in_flat_map. split.
  - intros (dk & Hdk & H). apply in_flat_map in H. destruct H as (dj & Hdj & H).
    apply in_flat_map in H. destruct H as (di & Hdi & H).
    destruct (insideOctet di dj dk) eqn:E; [destruct H|].
    destruct H as [H|[]]. exists di, dj, dk. auto.
  - intros (di & dj & dk & Hdi & Hdj & Hdk & E & ->).
    exists dk. split; [exact Hdk|]. apply in_flat_map. exists dj. split; [exact Hdj|].
    apply in_flat_map. exists di. split; [exact Hdi|]. rewrite E. left. reflexivity.
Qed.

Section Siblings.
Variable M : AmrMesh.
Hypothesis HF : fits M.

(** The base of the octet of a block within the grid. *)
Lemma octet_base_small l i j k : validAddr M l i j k ->
  wrap32 (i - i mod 2) = i - i mod 2 /\ wrap32 (j - j mod 2) = j - j mod 2
  /\ wrap32 (k - k mod 2) = k - k mod 2.
Proof.
  intros Hv. pose proof (validAddr_bounds M HF l i j k Hv) as (Hi & Hj & Hk & _).
  pose proof (Z.mod_pos_bound i 2 ltac:(lia)). pose proof (Z.mod_pos_bound j 2 ltac:(lia)).
  pose proof (Z.mod_pos_bound k 2 ltac:(lia)).
  pose proof (Z.mod_le i 2 ltac:(lia) ltac:(lia)). pose proof (Z.mod_le j 2 ltac:(lia) ltac:(lia)).
  pose proof (Z.mod_le k 2 ltac:(lia) ltac:(lia)).
  rewrite !wrap32_small by lia. auto.
Qed.

(** Every block of the grid next to the octet, and outside it, is among the
    ids [getSiblingNeighbors] returns. *)
Lemma getSiblingNeighbors_valid l i j k di dj dk : validAddr M l i j k ->
  In di offs4 -> In dj offs4 -> In dk offs4 -> insideOctet di dj dk = false ->
  validAddr M l (i - i mod 2 + di) (j - j mod 2 + dj) (k - k mod 2 + dk) ->
  In (getGlobalID M l (i - i mod 2 + di) (j - j mod 2 + dj) (k - k mod 2 + dk))
     (getSiblingNeighbors M (getGlobalID M l i j k)).
Proof.
  intros Hv Hdi Hdj Hdk Hout Hvn. apply in_getSiblingNeighbors.
  exists di, dj, dk. repeat (split; [assumption|]).
  rewrite (getIndices_getGlobalID M HF l i j k Hv).
  destruct (octet_base_small l i j k Hv) as (-> & -> & ->).
  pose proof (validAddr_bounds M HF _ _ _ _ Hvn) as (Hi & Hj & Hk & _).
  rewrite !wrap32_small by lia. reflexivity.
Qed.

Lemma getSiblings_getGlobalID l i j k : validAddr M l i j k -> 0 < l ->
  getSiblings M (getGlobalID M l i j k)
  = getChildren M (getGlobalID M (l - 1) (i / 2) (j / 2) (k / 2)).
Proof.
  intros Hv Hl. pose proof (validAddr_parent M l i j k Hv Hl) as Hvp.
  rewrite (getChildren_getGlobalID M HF _ _ _ _ Hvp) by (destruct Hv; lia).
  unfold getSiblings. rewrite (getIndices_getGlobalID M HF l i j k Hv).
  destruct (octet_base_small l i j k Hv) as (-> & -> & ->).
  pose proof (validAddr_bounds M HF l i j k Hv) as (Hi & Hj & Hk & HX & HY & HZ).
  assert (Ei : i - i mod 2 = 2 * (i / 2)) by (Z.div_mod_to_equations; lia).
  assert (Ej : j - j mod 2 = 2 * (j / 2)) by (Z.div_mod_to_equations; lia).
  assert (Ek : k - k mod 2 = 2 * (k / 2)) by (Z.div_mod_to_equations; lia).
  rewrite Ei, Ej, Ek.
  assert (Hv1 : validAddr M l (2 * (i / 2) + 1) (2 * (j / 2) + 1) (2 * (k / 2) + 1)).
  { replace l with (l - 1 + 1) by lia.
    apply (validAddr_child M (l - 1) (i / 2) (j / 2) (k / 2)); [exact Hvp|destruct Hv; lia|].
    apply childAddrs_spec. lia. }
  pose proof (validAddr_bounds M HF _ _ _ _ Hv1) as (Hi1 & Hj1 & Hk1 & _).
  unfold octet, childAddrs. cbn [map fst snd].
  rewrite !wrap32_small by lia.
  replace (l - 1 + 1) with l by lia. reflexivity.
Qed.

Lemma siblings_of_child g c : validBlock M g -> levelOf M g < refLevelMaxAllowed M ->
  In c (getChildren M g) -> getSiblings M c = getChildren M g.
Proof.
  intros Hg Hl Hc. destruct (children_spec M HF g c Hg Hl Hc) as (Hvc & Lc & Pc).
  pose proof (validBlock_level M HF g Hg) as Hlv.
  destruct (validBlock_inv M c Hvc) as (l & i & j & k & Hv & -> & _).
  rewrite (levelOf_getGlobalID M HF l i j k Hv) in Lc.
  rewrite (getSiblings_getGlobalID l i j k Hv) by lia.
  rewrite <- (getParent_getGlobalID M HF l i j k Hv) by lia. rewrite Pc. reflexivity.
Qed.

Lemma getGlobalID_inj l i j k l' i' j' k' : validAddr M l i j k -> validAddr M l' i' j' k' ->
  getGlobalID M l i j k = getGlobalID M l' i' j' k' -> (l, i, j, k) = (l', i', j', k').
Proof.
  intros Hv Hv' E. rewrite <- (getIndices_getGlobalID M HF l i j k Hv).
  rewrite E. apply (getIndices_getGlobalID M HF), Hv'.
Qed.

Lemma children_NoDup g : validBlock M g -> levelOf M g < refLevelMaxAllowed M ->
  List.NoDup (getChildren M g).
Proof.
  intros Hg Hl. destruct (validBlock_inv M g Hg) as (l & i & j & k & Hv & -> & _).
  rewrite (levelOf_getGlobalID M HF l i j k Hv) in Hl.
  rewrite (getChildren_getGlobalID M HF l i j k Hv Hl).
  apply Finite.Injective_map_NoDup_in.
  - intros [[a b] c] [[a' b'] c'] Hin Hin' E. cbn [fst snd] in E.
    pose proof (getGlobalID_inj _ _ _ _ _ _ _ _
                  (validAddr_child M l i j k a b c Hv Hl Hin)
                  (validAddr_child M l i j k a' b' c' Hv Hl Hin') E) as E'.
    congruence.
  - unfold childAddrs. repeat constructor; cbn [In]; intros H;
      repeat (destruct H as [H|H]; [inversion H; lia|]); destruct H.
Qed.
End Siblings.

(** C6, at a block of the boundary.  The octet of block 1 of [octree1] is the
    whole domain, so it has no neighbour inside the domain; the code still
    returns 56 ids, among them id 3, a member of the octet itself (the index
    [i+2 = 2] is not clipped and [(1,2,0,0)] gets the id of [(1,0,1,0)]); no
    returned id that touches the block lies outside the octet. *)
Theorem getSiblingNeighbors_not_clipped :
  length (getSiblingNeighbors octree1 1) = 56%nat /\
  getSiblings octree1 1 = [1; 2; 3; 4; 5; 6; 7; 8] /\
  In 3 (getSiblingNeighbors octree1 1) /\
  forall n, In n (getSiblingNeighbors octree1 1) ->
    touchingb octree1 n 1 = true -> In n (getSiblings octree1 1).
Proof.
  split; [reflexivity|]. split; [vm_compute; reflexivity|].
  split; [vm_compute; tauto|].
  intros n Hn. vm_compute in Hn.
  repeat (destruct Hn as [<-|Hn]; [vm_compute; try discriminate; tauto|]). destruct Hn.
Qed.

(** ** coarsen *)

Lemma getIndices_range M g l i j k : getIndices M g = (l, i, j, k) ->
  0 <= l < 2 ^ 32 /\ 0 <= i < 2 ^ 32 /\ 0 <= j < 2 ^ 32 /\ 0 <= k < 2 ^ 32.
Proof.
  unfold getIndices. intros H. injection H as <- <- <- <-.
  unfold wrap32. repeat split; apply Z.mod_pos_bound; lia.
Qed.

Lemma octet_base_range i : 0 <= i < 2 ^ 32 ->
  0 <= i - i mod 2 /\ i - i mod 2 + 1 < 2 ^ 32 /\ i - i mod 2 <= i.
Proof.
  intros Hi. change (2 ^ 32) with 4294967296 in *. Z.div_mod_to_equations. lia.
Qed.

Lemma in_octet M l i0 j0 k0 i j k :
  0 <= i0 -> i0 + 1 < 2 ^ 32 -> 0 <= j0 -> j0 + 1 < 2 ^ 32 -> 0 <= k0 -> k0 + 1 < 2 ^ 32 ->
  inOctet i0 j0 k0 i j k ->
  In (getGlobalID M l i j k) (octet M l i0 j0 k0).
Proof.
  intros Hi0 Hi1 Hj0 Hj1 Hk0 Hk1 (Hi & Hj & Hk). unfold octet.
  rewrite !wrap32_small by lia. cbn [In].
  assert (Ei : i = i0 \/ i = i0 + 1) by lia.
  assert (Ej : j = j0 \/ j = j0 + 1) by lia.
  assert (Ek : k = k0 \/ k = k0 + 1) by lia.
  destruct Ei as [-> | ->], Ej as [-> | ->], Ek as [-> | ->]; tauto.
Qed.

Lemma in_octet_child M l i j k a b c :
  0 <= i -> 0 <= j -> 0 <= k ->
  (a = 0 \/ a = 1) -> (b = 0 \/ b = 1) -> (c = 0 \/ c = 1) ->
  2 * i + a < 2 ^ 32 -> 2 * j + b < 2 ^ 32 -> 2 * k + c < 2 ^ 32 ->
  In (getGlobalID M l (2 * i + a) (2 * j + b) (2 * k + c))
     (octet M l (wrap32 (i * 2)) (wrap32 (j * 2)) (wrap32 (k * 2))).
Proof.
  intros Hi Hj Hk Ha Hb Hc Hia Hjb Hkc. unfold octet.
  rewrite (wrap32_small (i * 2)), (wrap32_small (j * 2)), (wrap32_small (k * 2)) by lia.
  cbn [In].
  destruct Ha as [-> | ->], Hb as [-> | ->], Hc as [-> | ->];
    rewrite ?Z.add_0_r; rewrite ?wrap32_small by lia;
    replace (i * 2) with (2 * i) by lia; replace (j * 2) with (2 * j) by lia;
    replace (k * 2) with (2 * k) by lia; tauto.
Qed.

Section Ops.
Variable indeterminate : nat -> LocalID.

(** C3.  On a mesh where [getIndices] is defined, [coarsen(id)] returns
    [false] and leaves the mesh as it is when [id] is absent, when it is on
    level 0, when the block at one of the eight addresses of its octet is
    absent, or when the block at an address around the octet (one step away
    at most along each axis, outside the octet, with an id that stands for
    that address) has a child in the table.  [(l,i,j,k)] is the address of
    [id], [(i0,j0,k0)] the base of its octet, and the children of the block
    at [(l,i',j',k')] are the blocks at [(l+1,2i'+a,2j'+b,2k'+c)], the
    indices being [uint32_t] values. *)
Theorem coarsen_refuses M g :
  indexable M -> refLevelMaxAllowed M < 256 ->
  let '(l, i, j, k) := getIndices M g in
  let i0 := i - i mod 2 in
  let j0 := j - j mod 2 in
  let k0 := k - k mod 2 in
  globalIDs M !! g = None
  \/ l = 0
  \/ (exists i' j' k',
        inOctet i0 j0 k0 i' j' k' /\ globalIDs M !! getGlobalID M l i' j' k' = None)
  \/ (exists i' j' k' a b c,
        aroundOctet i0 j0 k0 i' j' k'
        /\ getIndices M (getGlobalID M l i' j' k') = (l, i', j', k')
        /\ l < refLevelMaxAllowed M
        /\ (a = 0 \/ a = 1) /\ (b = 0 \/ b = 1) /\ (c = 0 \/ c = 1)
        /\ 2 * i' + a < 2 ^ 32 /\ 2 * j' + b < 2 ^ 32 /\ 2 * k' + c < 2 ^ 32
        /\ is_Some (globalIDs M !! getGlobalID M (l + 1) (2 * i' + a) (2 * j' + b)
                                  (2 * k' + c))) ->
  coarsen indeterminate M g = Returned false M.
Proof.
  intros _ Hmax. unfold coarsen.
  destruct (getIndices M g) as [[[l i] j] k] eqn:Ei. cbv zeta.
  intros H.
  destruct (exists_block (globalIDs M) g) eqn:Eg; cbn [negb]; [|reflexivity].
  destruct (Z.eqb_spec l 0) as [El|El]; [reflexivity|].
  destruct (existsb _ (getSiblingNeighbors M g)) eqn:En; [reflexivity|].
  destruct (existsb _ (getSiblings M g)) eqn:Es; [reflexivity|].
  exfalso.
  destruct (getIndices_range M g l i j k Ei) as (Hl & Hi & Hj & Hk).
  destruct (octet_base_range i Hi) as (Hi0 & Hi1 & Hi2).
  destruct (octet_base_range j Hj) as (Hj0 & Hj1 & Hj2).
  destruct (octet_base_range k Hk) as (Hk0 & Hk1 & Hk2).
  destruct H as [H|[H|[H|H]]].
  - apply exists_block_true in Eg. rewrite H in Eg. destruct Eg; discriminate.
  - contradiction.
  - destruct H as (i' & j' & k' & Hin & Habs).
    apply not_true_iff_false in Es. apply Es.
    apply existsb_exists. exists (getGlobalID M l i' j' k'). split.
    + unfold getSiblings. rewrite Ei. rewrite !wrap32_small by lia.
      apply in_octet; assumption.
    + apply negb_true_iff, exists_block_false, Habs.
  - destruct H as (i' & j' & k' & a & b & c & Har & Hdec & Hlv & Ha & Hb & Hc
                   & Hia & Hjb & Hkc & Hp).
    destruct (getIndices_range M _ l i' j' k' Hdec) as (_ & Hi' & Hj' & Hk').
    destruct Har as (Hai & Haj & Hak & Hout).
    apply not_true_iff_false in En. apply En.
    apply existsb_exists. exists (getGlobalID M l i' j' k'). split.
    + apply in_getSiblingNeighbors.
      exists (i' - (i - i mod 2)), (j' - (j - j mod 2)), (k' - (k - k mod 2)).
      split; [apply in_offs4; lia|]. split; [apply in_offs4; lia|].
      split; [apply in_offs4; lia|]. split.
      * unfold insideOctet. unfold inOctet in Hout.
        destruct (Z.eqb_spec (i' - (i - i mod 2)) 0), (Z.eqb_spec (i' - (i - i mod 2)) 1),
          (Z.eqb_spec (j' - (j - j mod 2)) 0), (Z.eqb_spec (j' - (j - j mod 2)) 1),
          (Z.eqb_spec (k' - (k - k mod 2)) 0), (Z.eqb_spec (k' - (k - k mod 2)) 1);
          cbn; try reflexivity; exfalso; apply Hout; lia.
      * rewrite Ei. rewrite (wrap32_small (i - i mod 2)), (wrap32_small (j - j mod 2)),
          (wrap32_small (k - k mod 2)) by lia.
        replace (i - i mod 2 + (i' - (i - i mod 2))) with i' by lia.
        replace (j - j mod 2 + (j' - (j - j mod 2))) with j' by lia.
        replace (k - k mod 2 + (k' - (k - k mod 2))) with k' by lia.
        rewrite !wrap32_small by lia. reflexivity.
    + apply existsb_exists.
      exists (getGlobalID M (l + 1) (2 * i' + a) (2 * j' + b) (2 * k' + c)).
      split; [|apply exists_block_true, Hp].
      unfold getChildren. rewrite Hdec.
      rewrite (wrap32_small (l + 1)) by lia.
      destruct (Z.ltb_spec (refLevelMaxAllowed M) (l + 1)); [lia|].
      apply in_octet_child; assumption || lia.
Qed.
End Ops.

(** On [mesh2]: block 17 at (2,0,2,0) is not coarsened because block 13 at
    (2,0,1,0), next to its octet, has the child 89 at (3,0,2,0) in the table;
    block 9 at (2,0,0,0) is not coarsened because its sibling 13 is absent. *)
Lemma coarsen_refuses_witness :
  (is_Some (globalIDs mesh2 !! 89) /\ coarsen noLocalIDs mesh2 17 = Returned false mesh2)
  /\ (globalIDs mesh2 !! 13 = None /\ coarsen noLocalIDs mesh2 9 = Returned false mesh2).
Proof.
  assert (HI : indexable mesh2) by (apply indexableb_sound; vm_compute; reflexivity).
  assert (HL : refLevelMaxAllowed mesh2 < 256) by (vm_compute; reflexivity).
  assert (H89 : is_Some (globalIDs mesh2 !! 89))
    by (apply exists_block_true; vm_compute; reflexivity).
  assert (H13 : globalIDs mesh2 !! 13 = None)
    by (apply exists_block_false; vm_compute; reflexivity).
  split; (split; [assumption|]).
  - pose proof (coarsen_refuses noLocalIDs mesh2 17 HI HL) as H.
    assert (E : getIndices mesh2 17 = (2, 0, 2, 0)) by (vm_compute; reflexivity).
    rewrite E in H. cbv zeta in H. apply H. right; right; right.
    exists 0, 1, 0, 0, 0, 0.
    split; [unfold aroundOctet, inOctet; change (0 mod 2) with 0; change (2 mod 2) with 0; lia|].
    split; [vm_compute; reflexivity|]. split; [vm_compute; reflexivity|].
    repeat (split; [lia|]). exact H89.
  - pose proof (coarsen_refuses noLocalIDs mesh2 9 HI HL) as H.
    assert (E : getIndices mesh2 9 = (2, 0, 0, 0)) by (vm_compute; reflexivity).
    rewrite E in H. cbv zeta in H. apply H. right; right; left.
    exists 0, 1, 0. split; [unfold inOctet; change (0 mod 2) with 0; lia|]. exact H13.
Defined.

(** ** checkBlock *)

(** C10.  On a mesh where [getIndices] is defined (the base grid is not
    empty), a block of the maximum refinement level that is absent from the
    table has no children ([getChildren] returns the empty list), so
    [checkBlock] answers [true] for it, the answer it gives when the block
    is in the table. *)
Theorem checkBlock_max_level M g fuel :
  indexable M ->
  refLevelMaxAllowed M < 256 ->
  levelOf M g = refLevelMaxAllowed M ->
  globalIDs M !! g = None ->
  getChildren M g = []
  /\ checkBlock (S fuel) M g = Some true
  /\ forall l, checkBlock (S fuel) (setGlobalIDs M (<[g := l]> (globalIDs M))) g = Some true.
Proof.
  intros _ HL Hlv Habs.
  assert (Hc : getChildren M g = []).
  { unfold getChildren. unfold levelOf in Hlv.
    destruct (getIndices M g) as [[[l i] j] k] eqn:E. subst l.
    assert (0 <= refLevelMaxAllowed M).
    { pose proof (f_equal (fun t => fst (fst (fst t))) E) as E'. cbn in E'.
      unfold getIndices in E'. cbn in E'. rewrite <- E'. unfold wrap32.
      apply Z.mod_pos_bound. lia. }
    rewrite wrap32_small by lia.
    destruct (Z.ltb_spec (refLevelMaxAllowed M) (refLevelMaxAllowed M + 1)); [reflexivity|lia]. }
  split; [exact Hc|]. split.
  - cbn [checkBlock]. unfold exists_block. rewrite Habs, Hc. reflexivity.
  - intros l. cbn [checkBlock]. unfold exists_block. cbn [globalIDs setGlobalIDs].
    rewrite lookup_insert_eq. reflexivity.
Qed.

Lemma checkBlock_max_level_witness :
  globalIDs holeMesh !! 0 = None /\ checkBlock 1 holeMesh 0 = Some true.
Proof.
  assert (Ha : globalIDs holeMesh !! 0 = None) by (vm_compute; reflexivity).
  split; [exact Ha|].
  destruct (checkBlock_max_level holeMesh 0 0) as (_ & H & _);
    [apply indexableb_sound; vm_compute; reflexivity
    |vm_compute; reflexivity|vm_compute; reflexivity|exact Ha|exact H].
Defined.

(** ** refine *)

(** C2 fails where the addressing leaves the machine ranges.  [tower12] is
    reached through the constructor, [initialize] and twenty calls of
    [refine]; its 141 blocks are blocks of the grid, leaves only and 2:1
    balanced.  Block [g] at (11,0,0,1023) lies below the plane z = 1/2 and
    block [B] at (10,0,0,512) above it; they touch.  [refine(g)] returns
    [true]: the neighbour (11,0,0,1024) of [g], whose parent is [B], gets the
    id of (11,0,0,0), because [1024*2048*2048] wraps to 0 in [uint32_t]; [B]
    is not refined, and the eight children of [g], of level 12, are in the
    table next to [B] of level 10. *)
Theorem refine_breaks_balance :
  let g := 5517906505 in
  let B := 690262601 in
  indexable tower12
  /\ (validTable tower12 (globalIDs tower12) /\ leafSet tower12 (globalIDs tower12)
      /\ balanced tower12 (globalIDs tower12))
  /\ g = getGlobalID tower12 11 0 0 1023 /\ getIndices tower12 g = (11, 0, 0, 1023)
  /\ B = getGlobalID tower12 10 0 0 512 /\ getIndices tower12 B = (10, 0, 0, 512)
  /\ is_Some (globalIDs tower12 !! g) /\ is_Some (globalIDs tower12 !! B)
  /\ touching tower12 B g
  /\ exists M', refine noLocalIDs 16 tower12 g = Some (true, M')
       /\ is_Some (globalIDs M' !! B)
       /\ forall c, In c (getChildren tower12 g) ->
            is_Some (globalIDs M' !! c) /\ levelOf tower12 c - levelOf tower12 B = 2.
Proof.
  cbv zeta.
  split; [apply indexableb_sound; vm_compute; reflexivity|].
  split; [apply balancedLeavesb_sound; vm_compute; reflexivity|].
  split; [vm_compute; reflexivity|]. split; [vm_compute; reflexivity|].
  split; [vm_compute; reflexivity|]. split; [vm_compute; reflexivity|].
  split; [apply exists_block_true; vm_compute; reflexivity|].
  split; [apply exists_block_true; vm_compute; reflexivity|].
  split; [vm_compute; repeat split; discriminate|].
  exists (refineAt tower12 (11, 0, 0, 1023)).
  split; [vm_compute; reflexivity|].
  split; [apply exists_block_true; vm_compute; reflexivity|].
  assert (H : forallb (fun c =>
                exists_block (globalIDs (refineAt tower12 (11, 0, 0, 1023))) c
                && (levelOf tower12 c - levelOf tower12 690262601 =? 2))
              (getChildren tower12 5517906505) = true) by (vm_compute; reflexivity).
  intros c Hc. pose proof (proj1 (forallb_forall _ _) H c Hc) as H1. cbv beta in H1.
  apply andb_true_iff in H1. destruct H1 as [H1 H2].
  split; [apply exists_block_true, H1|apply Z.eqb_eq, H2].
Qed.

(** Within the machine ranges C2 holds.  On a well-formed mesh (valid
    blocks, leaves only, 2:1 balanced, addressing within the machine ranges,
    [fits]) [refine] returns with a result once
    the fuel exceeds the maximum level; it returns [true] exactly for a block
    of the table below the maximum level; and then the block is gone, its
    eight children are in the table, and every block [B] that was in the
    table and touches the refined block is still there, or was replaced by
    its eight children; in both cases the levels of what is there and of
    each new child differ by at most 1. *)
Theorem refine_keeps_balance indeterminate M g fuel :
  wellFormed M -> (Z.to_nat (refLevelMaxAllowed M) < fuel)%nat ->
  exists b M', refine indeterminate fuel M g = Some (b, M') /\
    (b = true <-> is_Some (globalIDs M !! g) /\ levelOf M g < refLevelMaxAllowed M) /\
    (b = true ->
       globalIDs M' !! g = None /\
       length (getChildren M g) = 8%nat /\
       (forall c, In c (getChildren M g) -> is_Some (globalIDs M' !! c)) /\
       (forall B c, is_Some (globalIDs M !! B) -> B <> g -> touching M B g ->
          In c (getChildren M g) ->
          (is_Some (globalIDs M' !! B) /\ Z.abs (levelOf M B - levelOf M c) <= 1)
          \/ (globalIDs M' !! B = None /\ length (getChildren M B) = 8%nat /\
              forall c', In c' (getChildren M B) ->
                is_Some (globalIDs M' !! c') /\ Z.abs (levelOf M c' - levelOf M c) <= 1))).
Proof.
  intros (HF & Hval & Hleaf & Hbal) Hfuel. unfold refine.
  destruct fuel as [|n]; [lia|].
  destruct (globalIDs M !! g) eqn:Eg.
  2:{ exists false, (setGlobalIDs M (globalIDs M)).
      cbn [refineIDs]. rewrite (proj2 (exists_block_false _ g) Eg). cbn [negb].
      split; [reflexivity|]. split; [|discriminate].
      split; [discriminate|]. intros [[? H] _]. discriminate. }
  assert (Hg : is_Some (globalIDs M !! g)) by (rewrite Eg; eauto).
  pose proof (validBlock_level M HF g (Hval g Hg)) as Hlv.
  destruct (Z.eq_dec (levelOf M g) (refLevelMaxAllowed M)) as [Emax|Emax].
  - exists false, (setGlobalIDs M (globalIDs M)).
    cbn [refineIDs]. rewrite (proj2 (exists_block_true _ g) Hg). cbn [negb].
    unfold levelOf in *. destruct (getIndices M g) as [[[l i] j] k].
    rewrite (proj2 (Z.eqb_eq l _) Emax).
    split; [reflexivity|]. split; [|discriminate].
    split; [discriminate|]. intros [_ H]. lia.
  - destruct (refineIDs_balanced indeterminate M HF (S n) (globalIDs M) g Hval Hleaf Hbal Hg
                ltac:(lia) ltac:(lia)) as (m' & Hr & Hgn & Hlen & Hch & Hnb).
    exists true, (setGlobalIDs M m'). rewrite <- Eg, Hr.
    split; [reflexivity|]. split; [split; [intros _; split; [exact Hg|lia]|reflexivity]|].
    intros _. cbn [globalIDs setGlobalIDs].
    split; [exact Hgn|]. split; [exact Hlen|]. split; [intros c Hc; apply (Hch c Hc)|].
    intros B c HB Hne Ht Hc. destruct (Hch c Hc) as [_ Hlc].
    destruct (Hnb B HB Hne Ht) as [[Hs Hl]|(Hn & Hl8 & Hl & Hcs)].
    + left. split; [exact Hs|lia].
    + right. split; [exact Hn|]. split; [exact Hl8|].
      intros c' Hc'. destruct (Hcs c' Hc'). split; [assumption|lia].
Qed.

Lemma refine_keeps_balance_witness :
  wellFormed mesh1 /\
  exists M', refine noLocalIDs 4 mesh1 13 = Some (true, M') /\ globalIDs M' !! 13 = None.
Proof.
  split; [exact mesh1_wellFormed|].
  destruct (refine_keeps_balance noLocalIDs mesh1 13 4 mesh1_wellFormed)
    as (b & M' & Hr & Hiff & Hprop); [vm_compute; lia|].
  assert (Hb : b = true).
  { apply Hiff. split; [vm_compute; eauto|vm_compute; reflexivity]. }
  subst b. exists M'. split; [exact Hr|]. apply (Hprop eq_refl).
Defined.

(** C5, on a mesh built by [initialize] and two calls of [refine].  Block 2
    of [mesh2] is a leaf of level 1; [refine] replaces it by its eight
    children and refines nothing else; [coarsen] on child 11 then returns
    [false] and changes nothing.  What refuses is id 13 in
    [getSiblingNeighbors]: it stands for the index [i+2 = 4], which is
    outside the grid, is the id of block (2,0,1,0), which does not touch the
    octet, and that block has children in the table. *)
Theorem refine_then_coarsen_refused indeterminate :
  exists M3,
    wellFormed mesh2 /\ levelOf mesh2 2 = 1 /\
    refine indeterminate 4 mesh2 2 = Some (true, M3) /\
    dom (globalIDs M3) = dom (globalIDs mesh2) ∖ {[2]} ∪ list_to_set (getChildren mesh2 2) /\
    In 11 (getChildren mesh2 2) /\
    coarsen indeterminate M3 11 = Returned false M3 /\
    In 13 (getSiblingNeighbors M3 11) /\ touchingb M3 13 11 = false.
Proof.
  eexists. split; [exact mesh2_wellFormed|]. split; [vm_compute; reflexivity|].
  split; [vm_compute; reflexivity|].
  split; [vm_compute; reflexivity|].
  split; [vm_compute; tauto|].
  split; [vm_compute; reflexivity|].
  split; [vm_compute; tauto|vm_compute; reflexivity].
Qed.

Lemma existsb_false {A : Type} (f : A -> bool) (l : list A) :
  (forall x, In x l -> f x = false) -> existsb f l = false.
Proof.
  intros H. apply not_true_iff_false. intros E. apply existsb_exists in E.
  destruct E as (x & Hx & Hf). rewrite (H x Hx) in Hf. discriminate.
Qed.

Lemma eraseAll_NoDup ids : forall (m : gmap Z Z),
  List.NoDup ids -> (forall x, In x ids -> is_Some (m !! x)) ->
  exists m', eraseAll ids m = Some m' /\
    forall x, is_Some (m' !! x) <-> is_Some (m !! x) /\ ~ In x ids.
Proof.
  induction ids as [|s ids IH]; intros m Hnd Hall.
  - exists m. split; [reflexivity|]. intros x. cbn [In]. tauto.
  - inversion Hnd as [|? ? Hs Hnd']; subst. cbn [eraseAll].
    rewrite (proj2 (exists_block_true m s) (Hall s (or_introl eq_refl))).
    destruct (IH (delete s m) Hnd') as (m' & He & Hm').
    { intros x Hx. apply delete_present. split; [intros ->; contradiction|].
      apply Hall. right; exact Hx. }
    exists m'. split; [exact He|]. intros x. rewrite Hm', delete_present. cbn [In].
    split; [intros [[? ?] ?]; split; [assumption|intros [?|?]; [congruence|contradiction]]|].
    intros [? Hn]. split; [split; [intros ->; apply Hn; left; reflexivity|assumption]|].
    intros ?. apply Hn. right; assumption.
Qed.

Lemma balance_loop_idle rec M nbrs (m : gmap Z Z) :
  (forall nb, In nb nbrs -> getParent M nb <> nb -> m !! getParent M nb = None) ->
  fold_left (balanceStep rec M) nbrs (Some m) = Some m.
Proof.
  induction nbrs as [|nb rest IH]; intros H; [reflexivity|].
  cbn [fold_left]. unfold balanceStep at 2.
  destruct (Z.eqb_spec (getParent M nb) nb) as [E|E].
  - apply IH. intros x Hx. apply H. right; exact Hx.
  - rewrite (proj2 (exists_block_false m _) (H nb (or_introl eq_refl) E)).
    apply IH. intros x Hx. apply H. right; exact Hx.
Qed.

Section RoundTrip.
Variable indeterminate : nat -> LocalID.

(** Where the round trip holds.  On a well-formed mesh, when [refine(g)]
    triggers no balancing (no parent of a neighbour is in the table), the
    table afterwards is the old one with [g] replaced by its children; and
    when no id of [getSiblingNeighbors] has a child in that table, [coarsen]
    on any of the children returns [true] and the table has the blocks it
    had before [refine]. *)
Lemma refine_then_coarsen_restores M g c fuel :
  wellFormed M -> (Z.to_nat (refLevelMaxAllowed M) < fuel)%nat ->
  is_Some (globalIDs M !! g) -> levelOf M g < refLevelMaxAllowed M ->
  (forall nb, In nb (getNeighbors M g) -> getParent M nb <> nb ->
     globalIDs M !! getParent M nb = None) ->
  In c (getChildren M g) ->
  exists M1, refine indeterminate fuel M g = Some (true, M1) /\
    dom (globalIDs M1) = dom (globalIDs M) ∖ {[g]} ∪ list_to_set (getChildren M g) /\
    ((forall n x, In n (getSiblingNeighbors M c) -> In x (getChildren M n) ->
        globalIDs M1 !! x = None) ->
     exists M2, coarsen indeterminate M1 c = Returned true M2 /\
       dom (globalIDs M2) = dom (globalIDs M)).
Proof.
  intros (HF & Hval & Hleaf & _) Hfuel Hg Hl Hidle Hc.
  pose proof (Hval g Hg) as Hvg.
  pose proof (validBlock_level M HF g Hvg) as Hlv.
  destruct fuel as [|n]; [lia|].
  destruct (getIndices M g) as [[[l i] j] k] eqn:E.
  assert (El : levelOf M g = l) by (unfold levelOf; rewrite E; reflexivity).
  destruct (refineIDs_S indeterminate M n (globalIDs M) g l i j k E
              (proj2 (exists_block_true _ g) Hg)
              (proj2 (Z.eqb_neq l (refLevelMaxAllowed M)) ltac:(lia))) as (f & Hr).
  rewrite (getChildren_octet M HF g l i j k E Hvg ltac:(lia)) in Hr.
  set (m1 := insertAll (getChildren M g) f (delete g (globalIDs M))) in *.
  assert (Hm1 : forall x, is_Some (m1 !! x) <->
                 In x (getChildren M g) \/ (x <> g /\ is_Some (globalIDs M !! x))).
  { intros x. unfold m1. rewrite insertAll_present, delete_present. tauto. }
  assert (Hpar : forall nb, In nb (getNeighbors M g) -> getParent M nb <> nb ->
                   m1 !! getParent M nb = None).
  { intros nb Hnb Hp. apply not_present. intros Hin. apply Hm1 in Hin.
    destruct Hin as [Hin|[_ Hin]].
    - destruct (neighbors_spec M HF g nb Hvg Hnb) as [Hvnb Hlnb].
      destruct (children_spec M HF g _ Hvg Hl Hin) as (_ & Lc & _).
      destruct (Z.eq_dec (levelOf M nb) 0) as [E0|E0].
      + apply Hp. apply (parent_level0 M HF nb Hvnb E0).
      + pose proof (validBlock_level M HF nb Hvnb).
        destruct (parent_spec M HF nb Hvnb ltac:(lia)) as [_ HlB]. lia.
    - rewrite (Hidle nb Hnb Hp) in Hin. destruct Hin; discriminate. }
  rewrite (balance_loop_idle _ M _ m1 Hpar) in Hr.
  exists (setGlobalIDs M m1). unfold refine. rewrite Hr.
  split; [reflexivity|]. cbn [globalIDs setGlobalIDs].
  split.
  { apply set_eq. intros x. rewrite elem_of_union, elem_of_difference, !elem_of_dom,
      elem_of_singleton, elem_of_list_to_set, list_elem_of_In, Hm1. tauto. }
  intros Hnone.
  destruct (children_spec M HF g c Hvg Hl Hc) as (Hvc & Lc & Pc).
  destruct (getIndices M c) as [[[lc ic] jc] kc] eqn:Ec.
  assert (Elc : lc = l + 1) by (rewrite El in Lc; unfold levelOf in Lc; rewrite Ec in Lc; lia).
  destruct (eraseAll_NoDup (getChildren M g) m1 (children_NoDup M HF g Hvg Hl))
    as (m2 & He & Hm2).
  { intros x Hx. apply Hm1. left; exact Hx. }
  eexists. split.
  - unfold coarsen. cbn [globalIDs setGlobalIDs].
    rewrite (proj2 (exists_block_true m1 c) (proj2 (Hm1 c) (or_introl Hc))). cbn [negb].
    change (getIndices (setGlobalIDs M m1) c) with (getIndices M c). rewrite Ec.
    destruct (Z.eqb_spec lc 0) as [E0|_]; [lia|].
    change (getSiblingNeighbors (setGlobalIDs M m1) c) with (getSiblingNeighbors M c).
    rewrite existsb_false.
    2:{ intros nb Hnb. apply existsb_false. intros x Hx.
        change (getChildren (setGlobalIDs M m1) nb) with (getChildren M nb) in Hx.
        apply exists_block_false. apply (Hnone nb x Hnb Hx). }
    change (getSiblings (setGlobalIDs M m1) c) with (getSiblings M c).
    rewrite (siblings_of_child M HF g c Hvg Hl Hc).
    rewrite existsb_false.
    2:{ intros x Hx. apply negb_false_iff, exists_block_true, Hm1. left; exact Hx. }
    rewrite He. change (getParent (setGlobalIDs M m1) c) with (getParent M c).
    rewrite Pc. reflexivity.
  - cbn [globalIDs setGlobalIDs]. apply set_eq. intros x.
    rewrite !elem_of_dom, map_insert_present, Hm2, Hm1.
    split.
    + intros [->|[[Hx|[_ Hx]] Hn]]; [exact Hg|contradiction|exact Hx].
    + intros Hx. destruct (Z.eq_dec x g) as [->|Hne]; [left; reflexivity|right].
      split; [right; split; assumption|].
      intros Hin. destruct (children_spec M HF g x Hvg Hl Hin) as (Hvx & Lx & Px).
      apply (Hleaf g x Hg Hx). rewrite <- Px. apply (ancestor_parent M HF x Hvx). lia.
Qed.
End RoundTrip.

(** The round trip on [octree3]: [refine(1)] triggers no balancing, and no
    id of [getSiblingNeighbors(9)] has a child in the table. *)
Lemma octree3_wellFormed : wellFormed octree3.
Proof. apply wellFormedb_sound. vm_compute. reflexivity. Qed.

Lemma octree3_refine_idle nb : In nb (getNeighbors octree3 1) ->
  globalIDs octree3 !! getParent octree3 nb = None.
Proof.
  assert (Hidle : forallb (fun nb => negb (exists_block (globalIDs octree3) (getParent octree3 nb)))
                    (getNeighbors octree3 1) = true) by (vm_compute; reflexivity).
  intros Hnb. pose proof (proj1 (forallb_forall _ _) Hidle nb Hnb) as H1. cbv beta in H1.
  apply negb_true_iff, exists_block_false in H1. exact H1.
Qed.

Lemma octree3_coarsen_free n x :
  In n (getSiblingNeighbors octree3 9) -> In x (getChildren octree3 n) ->
  globalIDs (afterRefine octree3 1) !! x = None.
Proof.
  assert (Hfree : forallb (fun n => forallb (fun x =>
                      negb (exists_block (globalIDs (afterRefine octree3 1)) x))
                    (getChildren octree3 n)) (getSiblingNeighbors octree3 9) = true)
    by (vm_compute; reflexivity).
  intros Hn Hx.
  pose proof (proj1 (forallb_forall _ _) Hfree n Hn) as H1. cbv beta in H1.
  pose proof (proj1 (forallb_forall _ _) H1 x Hx) as H2. cbv beta in H2.
  apply negb_true_iff, exists_block_false in H2. exact H2.
Qed.

Lemma octree3_refine : refine noLocalIDs 4 octree3 1 = Some (true, afterRefine octree3 1).
Proof. vm_compute. reflexivity. Qed.

Lemma refine_then_coarsen_restores_witness :
  exists M2,
    refine noLocalIDs 4 octree3 1 = Some (true, afterRefine octree3 1) /\
    coarsen noLocalIDs (afterRefine octree3 1) 9 = Returned true M2 /\
    dom (globalIDs M2) = dom (globalIDs octree3).
Proof.
  destruct (refine_then_coarsen_restores noLocalIDs octree3 1 9 4 octree3_wellFormed)
    as (M1 & Hr & _ & Hco).
  - vm_compute. lia.
  - vm_compute. eauto.
  - vm_compute. reflexivity.
  - intros nb Hnb _. exact (octree3_refine_idle nb Hnb).
  - vm_compute. tauto.
  - assert (E : M1 = afterRefine octree3 1).
    { pose proof octree3_refine as E. rewrite Hr in E. congruence. }
    subst M1. destruct (Hco octree3_coarsen_free) as (M2 & Hc & Hd).
    exists M2. split; [exact Hr|]. split; [exact Hc|exact Hd].
Defined.

(** ** The operations keep the mesh well-formed *)

Section Touch.
Variable M : AmrMesh.
Hypothesis HF : fits M.

Lemma axisTouch_sym la ia lb ib : axisTouch la ia lb ib -> axisTouch lb ib la ia.
Proof. unfold axisTouch. tauto. Qed.

Lemma touching_sym a b : touching M a b -> touching M b a.
Proof.
  unfold touching.
  destruct (getIndices M a) as [[[la ia] ja] ka], (getIndices M b) as [[[lb ib] jb] kb].
  intros (H1 & H2 & H3). split; [|split]; apply axisTouch_sym; assumption.
Qed.

Lemma axisTouch_parent la ia lb ib : 0 < la -> 0 <= lb ->
  axisTouch la ia lb ib -> axisTouch (la - 1) (ia / 2) lb ib.
Proof.
  intros Hla Hlb [H1 H2]. unfold axisTouch.
  replace (2 ^ la) with (2 * 2 ^ (la - 1)) in * by (rewrite <- Z.pow_succ_r by lia; f_equal; lia).
  assert (0 < 2 ^ (la - 1)) by (apply Z.pow_pos_nonneg; lia).
  assert (0 < 2 ^ lb) by (apply Z.pow_pos_nonneg; lia).
  set (P := 2 ^ (la - 1)) in *. set (Q := 2 ^ lb) in *.
  pose proof (Z.div_mod ia 2 ltac:(lia)). pose proof (Z.mod_pos_bound ia 2 ltac:(lia)).
  set (h := ia / 2) in *. split; nia.
Qed.

(** What touches a block touches its parent. *)
Lemma touching_parent a b : validBlock M a -> validBlock M b -> 0 < levelOf M a ->
  touching M a b -> touching M (getParent M a) b.
Proof.
  intros Ha Hb Hl.
  destruct (validBlock_inv M a Ha) as (la & ia & ja & ka & Hva & -> & Ea).
  destruct (validBlock_inv M b Hb) as (lb & ib & jb & kb & Hvb & -> & Eb).
  rewrite (levelOf_getGlobalID M HF) in Hl by assumption.
  rewrite (getParent_getGlobalID M HF _ _ _ _ Hva Hl).
  unfold touching. rewrite Ea, Eb.
  rewrite (getIndices_getGlobalID M HF _ _ _ _ (validAddr_parent M la ia ja ka Hva Hl)).
  intros (H1 & H2 & H3). destruct Hvb as (Hlb & _).
  split; [|split]; apply axisTouch_parent; try assumption; lia.
Qed.

(** The ids [getNeighbors] returns touch the block. *)
Lemma neighbor_touching g nb : validBlock M g -> In nb (getNeighbors M g) -> touching M nb g.
Proof.
  intros Hg Hn. destruct (validBlock_inv M g Hg) as (l & i & j & k & Hv & -> & Eg).
  apply (in_getNeighbors M HF l i j k nb Hv) in Hn.
  destruct Hn as (di & dj & dk & Hdi & Hdj & Hdk & _ & Hvn & ->).
  apply in_offs3 in Hdi, Hdj, Hdk.
  unfold touching. rewrite Eg, (getIndices_getGlobalID M HF _ _ _ _ Hvn).
  assert (0 < 2 ^ l) by (apply Z.pow_pos_nonneg; destruct Hv; lia).
  unfold axisTouch. repeat split; nia.
Qed.
End Touch.

(** [refine] on a balanced table [m0].  Inside the recursion the table is
    not balanced (the children of the block meet coarser blocks that are
    still to be refined); what holds throughout is stated relative to
    [m0]. *)
Section Closure.
Variable indeterminate : nat -> LocalID.
Variable M : AmrMesh.
Hypothesis HF : fits M.
Variable m0 : gmap Z Z.
Hypothesis Hval0 : validTable M m0.
Hypothesis Hleaf0 : leafSet M m0.
Hypothesis Hbal0 : balanced M m0.

Lemma staysOut_trans m1 m2 m3 : staysOut m0 m1 m2 -> staysOut m0 m2 m3 -> staysOut m0 m1 m3.
Proof. intros H12 H23 x Hx H1. apply (H23 x Hx), (H12 x Hx H1). Qed.

Lemma closedNew_trans m1 m2 m3 :
  closedNew M m0 m1 m2 -> staysOut m0 m2 m3 -> closedNew M m0 m2 m3 -> closedNew M m0 m1 m3.
Proof.
  intros H12 S23 H23 B Y HB0 HB1 HB3 HY0 Ht Hl.
  destruct (m2 !! B) eqn:E2.
  - apply (H23 B Y); try assumption. rewrite E2; eauto.
  - apply (S23 Y HY0). apply (H12 B Y); assumption.
Qed.

(** A block of the table that is the parent of a neighbour of an original
    block is an original block. *)
Lemma neighbor_parent_original m g nb :
  validTable M m -> fromOriginal M m0 m -> is_Some (m0 !! g) ->
  In nb (getNeighbors M g) -> getParent M nb <> nb ->
  is_Some (m !! getParent M nb) -> is_Some (m0 !! getParent M nb).
Proof.
  intros Hval Hfrom Hg Hnb Hp HX.
  pose proof (Hval0 g Hg) as Hvg.
  destruct (neighbors_spec M HF g nb Hvg Hnb) as [Hvnb Hlnb].
  pose proof (validBlock_level M HF nb Hvnb) as Hlv.
  assert (Hl0 : 0 < levelOf M nb).
  { destruct (Z.eq_dec (levelOf M nb) 0) as [E0|]; [|lia].
    exfalso. apply Hp. apply (parent_level0 M HF nb Hvnb E0). }
  destruct (parent_spec M HF nb Hvnb Hl0) as [HvX HlX].
  destruct (Hfrom _ HX) as [H0|(HlX0 & HB & _)]; [exact H0|exfalso].
  pose proof (Hval0 _ HB) as HvB.
  destruct (parent_spec M HF _ HvX HlX0) as [_ HlB].
  pose proof (neighbor_touching M HF g nb Hvg Hnb) as Ht.
  apply (touching_parent M HF nb g Hvnb Hvg Hl0) in Ht.
  apply (touching_parent M HF _ g HvX Hvg HlX0) in Ht.
  pose proof (Hbal0 _ g HB Hg Ht). lia.
Qed.

Lemma closure_loop n g : closureSpec indeterminate M m0 n ->
  is_Some (m0 !! g) -> (Z.to_nat (levelOf M g) <= n)%nat ->
  forall nbrs m_s,
    (forall nb, In nb nbrs -> In nb (getNeighbors M g)) ->
    (validTable M m_s /\ leafSet M m_s) -> fromOriginal M m0 m_s ->
    exists m_e,
      fold_left (balanceStep (refineIDs indeterminate n M) M) nbrs (Some m_s) = Some m_e /\
      (validTable M m_e /\ leafSet M m_e) /\ fromOriginal M m0 m_e /\
      staysOut m0 m_s m_e /\ closedNew M m0 m_s m_e /\
      (forall nb, In nb nbrs -> getParent M nb <> nb ->
         is_Some (m0 !! getParent M nb) -> m_e !! getParent M nb = None).
Proof.
  intros IHn Hg Hfuel.
  pose proof (Hval0 g Hg) as Hvg.
  pose proof (validBlock_level M HF g Hvg) as Hlvg.
  induction nbrs as [|nb rest IH]; intros m_s Hnbrs Hwf Hfrom.
  - exists m_s. cbn [fold_left]. split; [reflexivity|]. split; [exact Hwf|].
    split; [exact Hfrom|]. split; [intros x _ H; exact H|].
    split; [|intros ? []].
    intros B Y _ HB HB'. rewrite HB' in HB. destruct HB; discriminate.
  - cbn [fold_left].
    pose proof (Hnbrs nb (or_introl eq_refl)) as Hnb.
    destruct (neighbors_spec M HF g nb Hvg Hnb) as [Hvnb Hlnb].
    assert (Hk : exists m_k,
      balanceStep (refineIDs indeterminate n M) M (Some m_s) nb = Some m_k /\
      (validTable M m_k /\ leafSet M m_k) /\ fromOriginal M m0 m_k /\
      staysOut m0 m_s m_k /\ closedNew M m0 m_s m_k /\
      (getParent M nb <> nb -> is_Some (m0 !! getParent M nb) ->
       m_k !! getParent M nb = None)).
    { assert (Hidle : (getParent M nb <> nb -> m_s !! getParent M nb = None) ->
        (validTable M m_s /\ leafSet M m_s) /\ fromOriginal M m0 m_s /\
        staysOut m0 m_s m_s /\ closedNew M m0 m_s m_s /\
        (getParent M nb <> nb -> is_Some (m0 !! getParent M nb) ->
         m_s !! getParent M nb = None)).
      { intros Hn. split; [exact Hwf|]. split; [exact Hfrom|].
        split; [intros x _ H; exact H|]. split; [|intros Hp _; apply Hn, Hp].
        intros B Y _ HB HB'. rewrite HB' in HB. destruct HB; discriminate. }
      unfold balanceStep. destruct (Z.eqb_spec (getParent M nb) nb) as [Ep|Ep].
      - exists m_s. split; [reflexivity|]. apply Hidle. intros; contradiction.
      - destruct (exists_block m_s (getParent M nb)) eqn:Ex.
        + apply exists_block_true in Ex.
          assert (Hl0 : 0 < levelOf M nb).
          { destruct (Z.eq_dec (levelOf M nb) 0) as [E0|];
              [|pose proof (validBlock_level M HF nb Hvnb); lia].
            exfalso. apply Ep. apply (parent_level0 M HF nb Hvnb E0). }
          destruct (parent_spec M HF nb Hvnb Hl0) as [HvX HlX].
          pose proof (neighbor_parent_original m_s g nb (proj1 Hwf) Hfrom Hg Hnb Ep Ex) as HX0.
          destruct (IHn m_s (getParent M nb) Hwf Hfrom Ex HX0 ltac:(lia) ltac:(lia))
            as (m_k & Hr & Hwfk & Hout & Hfromk & Hstay & Hclosed).
          rewrite Hr. exists m_k. split; [reflexivity|]. split; [exact Hwfk|].
          split; [exact Hfromk|]. split; [exact Hstay|]. split; [exact Hclosed|].
          intros _ _. exact Hout.
        + exists m_s. split; [reflexivity|]. apply Hidle. intros _.
          apply exists_block_false, Ex. }
    destruct Hk as (m_k & Hstep & Hwfk & Hfromk & Hstayk & Hclosedk & Hpk).
    rewrite Hstep.
    destruct (IH m_k (fun x Hx => Hnbrs x (or_intror Hx)) Hwfk Hfromk)
      as (m_e & Hfold & Hwfe & Hfrome & Hstaye & Hclosede & Hpe).
    exists m_e. split; [exact Hfold|]. split; [exact Hwfe|]. split; [exact Hfrome|].
    split; [apply (staysOut_trans m_s m_k m_e); assumption|].
    split; [apply (closedNew_trans m_s m_k m_e); assumption|].
    intros nb' [<-|Hin] Hp H0.
    + apply (Hstaye _ H0). apply Hpk; assumption.
    + apply Hpe; assumption.
Qed.

Lemma refineIDs_closure n : closureSpec indeterminate M m0 n.
Proof.
  induction n as [|n IHn]; intros m g Hwf Hfrom Hg Hg0 Hl Hfuel; [lia|].
  pose proof (proj1 Hwf g Hg) as Hvg.
  pose proof (validBlock_level M HF g Hvg) as Hlv.
  destruct (getIndices M g) as [[[l i] j] k] eqn:E.
  assert (El : levelOf M g = l) by (unfold levelOf; rewrite E; reflexivity).
  destruct (refineIDs_S indeterminate M n m g l i j k E (proj2 (exists_block_true m g) Hg)
              (proj2 (Z.eqb_neq l (refLevelMaxAllowed M)) ltac:(lia))) as (f & Hr).
  rewrite Hr. rewrite (getChildren_octet M HF g l i j k E Hvg ltac:(lia)).
  set (m1 := insertAll (getChildren M g) f (delete g m)).
  assert (Hwf1 : validTable M m1 /\ leafSet M m1) by (apply step_WF; assumption).
  assert (Hm1 : forall x, is_Some (m1 !! x) <-> In x (getChildren M g) \/ (x <> g /\ is_Some (m !! x))).
  { intros x. unfold m1. rewrite insertAll_present, delete_present. tauto. }
  assert (Hchild : forall x, In x (getChildren M g) -> ~ is_Some (m0 !! x)).
  { intros x Hx H0. destruct (children_spec M HF g x Hvg Hl Hx) as (Hvx & Lx & Px).
    apply (Hleaf0 g x Hg0 H0). rewrite <- Px. apply (ancestor_parent M HF x Hvx). lia. }
  assert (Hg1 : m1 !! g = None).
  { apply not_present. intros H. apply Hm1 in H. destruct H as [Hc|[Hne _]]; [|congruence].
    apply (Hchild g Hc Hg0). }
  assert (Hstay1 : staysOut m0 m m1).
  { intros x Hx0 Hx. apply not_present. intros H. apply Hm1 in H.
    destruct H as [Hc|[_ H]]; [apply (Hchild x Hc Hx0)|].
    exact (proj1 (not_present m x) Hx H). }
  assert (Hfrom1 : fromOriginal M m0 m1).
  { intros x Hx. apply Hm1 in Hx. destruct Hx as [Hc|[Hne Hx]].
    - right. destruct (children_spec M HF g x Hvg Hl Hc) as (Hvx & Lx & Px).
      rewrite Px. split; [lia|]. split; assumption.
    - destruct (Hfrom x Hx) as [H0|(H1 & H2 & H3)]; [left; exact H0|right].
      split; [exact H1|]. split; [exact H2|]. apply (Hstay1 _ H2 H3). }
  destruct (closure_loop n g IHn Hg0 ltac:(lia) (getNeighbors M g) m1 (fun _ H => H) Hwf1 Hfrom1)
    as (m_e & Hfold & Hwfe & Hfrome & Hstaye & Hclosede & Hpe).
  rewrite Hfold. exists m_e. split; [reflexivity|]. split; [exact Hwfe|].
  split; [apply (Hstaye g Hg0 Hg1)|]. split; [exact Hfrome|].
  split; [apply (staysOut_trans m m1 m_e); assumption|].
  intros B Y HB0 HB HB' HY0 Ht HlY.
  destruct (Z.eq_dec B g) as [->|Hne].
  - destruct (coarse_neighbor M HF Y g (Hval0 Y HY0) Hvg HlY Ht (Hleaf0 Y g HY0 Hg0))
      as (nb & Hin & Hp & Hpn).
    rewrite <- Hp. apply (Hpe nb Hin Hpn). rewrite Hp. exact HY0.
  - apply (Hclosede B Y); try assumption. apply Hm1. right. split; assumption.
Qed.

(** The table [refineIDs] returns for a block of a balanced table is
    balanced. *)
Lemma closure_balanced m' :
  validTable M m' -> fromOriginal M m0 m' -> closedNew M m0 m0 m' -> balanced M m'.
Proof.
  intros Hval' Hfrom Hclosed.
  assert (Hhalf : forall a b, is_Some (m' !! a) -> is_Some (m' !! b) -> touching M a b ->
            levelOf M a - levelOf M b <= 1).
  { intros a b Ha Hb Ht.
    pose proof (Hval' a Ha) as Hva. pose proof (Hval' b Hb) as Hvb.
    destruct (Hfrom a Ha) as [Ha0|(Hla & HA0 & HA')], (Hfrom b Hb) as [Hb0|(Hlb & HB0 & HB')].
    - pose proof (Hbal0 a b Ha0 Hb0 Ht). lia.
    - pose proof (Hval0 _ HB0) as HvB.
      destruct (parent_spec M HF b Hvb Hlb) as [_ LB].
      apply touching_sym in Ht. apply (touching_parent M HF b a Hvb Hva Hlb) in Ht.
      apply touching_sym in Ht. pose proof (Hbal0 _ _ Ha0 HB0 Ht). lia.
    - pose proof (Hval0 _ HA0) as HvA.
      destruct (parent_spec M HF a Hva Hla) as [_ LA].
      apply (touching_parent M HF a b Hva Hvb Hla) in Ht.
      pose proof (Hbal0 _ _ HA0 Hb0 Ht) as Hd.
      destruct (Z.eq_dec (levelOf M b) (levelOf M (getParent M a) - 1)) as [Elow|]; [|lia].
      exfalso.
      assert (HA0' : is_Some (m0 !! getParent M a)) by exact HA0.
      apply touching_sym in Ht.
      pose proof (Hclosed _ b HA0 HA0' HA' Hb0 Ht Elow) as Hn.
      rewrite Hn in Hb. destruct Hb; discriminate.
    - pose proof (Hval0 _ HA0) as HvA. pose proof (Hval0 _ HB0) as HvB.
      destruct (parent_spec M HF a Hva Hla) as [_ LA].
      destruct (parent_spec M HF b Hvb Hlb) as [_ LB].
      apply (touching_parent M HF a b Hva Hvb Hla) in Ht.
      apply touching_sym in Ht. apply (touching_parent M HF b _ Hvb HvA Hlb) in Ht.
      pose proof (Hbal0 _ _ HB0 HA0 Ht). lia. }
  intros a b Ha Hb Ht.
  pose proof (Hhalf a b Ha Hb Ht). pose proof (Hhalf b a Hb Ha (touching_sym M a b Ht)). lia.
Qed.
End Closure.

(** The predicates read the geometry members only. *)
Lemma wellFormed_setGlobalIDs M m :
  fits M -> validTable M m -> leafSet M m -> balanced M m ->
  wellFormed (setGlobalIDs M m).
Proof. intros HF Hv Hl Hb. exact (conj HF (conj Hv (conj Hl Hb))). Qed.

(** [refine] keeps a well-formed mesh well-formed, whatever it returns. *)
Theorem refine_wellFormed indeterminate M g fuel :
  wellFormed M -> (Z.to_nat (refLevelMaxAllowed M) < fuel)%nat ->
  exists b M', refine indeterminate fuel M g = Some (b, M') /\ wellFormed M'.
Proof.
  intros (HF & Hval & Hleaf & Hbal) Hfuel. unfold refine.
  destruct fuel as [|n]; [lia|].
  destruct (globalIDs M !! g) as [lid|] eqn:Eg.
  - assert (Hg : is_Some (globalIDs M !! g)) by (rewrite Eg; eauto).
    pose proof (Hval g Hg) as Hvg.
    pose proof (validBlock_level M HF g Hvg) as Hlv.
    destruct (Z.eq_dec (levelOf M g) (refLevelMaxAllowed M)) as [Emax|Emax].
    + exists false, (setGlobalIDs M (globalIDs M)). cbn [refineIDs].
      rewrite (proj2 (exists_block_true _ g) Hg). cbn [negb].
      unfold levelOf in Emax. destruct (getIndices M g) as [[[l i] j] k].
      rewrite (proj2 (Z.eqb_eq l _) Emax).
      split; [reflexivity|apply wellFormed_setGlobalIDs; assumption].
    + destruct (refineIDs_closure indeterminate M HF (globalIDs M) Hval Hleaf Hbal (S n)
                  (globalIDs M) g (conj Hval Hleaf) (fun x H => or_introl H) Hg Hg
                  ltac:(lia) ltac:(lia))
        as (m' & Hr & [Hval' Hleaf'] & _ & Hfrom & _ & Hclosed).
      rewrite Hr. exists true, (setGlobalIDs M m'). split; [reflexivity|].
      apply wellFormed_setGlobalIDs; try assumption.
      apply (closure_balanced M HF (globalIDs M) Hval Hbal m' Hval' Hfrom Hclosed).
  - exists false, (setGlobalIDs M (globalIDs M)). cbn [refineIDs].
    rewrite (proj2 (exists_block_false _ g) Eg). cbn [negb].
    split; [reflexivity|apply wellFormed_setGlobalIDs; assumption].
Qed.

Lemma refine_wellFormed_witness :
  wellFormed mesh1 /\
  exists b M', refine noLocalIDs 4 mesh1 13 = Some (b, M') /\ wellFormed M'.
Proof.
  split; [exact mesh1_wellFormed|].
  apply (refine_wellFormed noLocalIDs mesh1 13 4 mesh1_wellFormed). vm_compute. lia.
Defined.

Lemma existsb_false_inv {A : Type} (f : A -> bool) (l : list A) :
  existsb f l = false -> forall x, In x l -> f x = false.
Proof.
  intros H x Hx. destruct (f x) eqn:E; [|reflexivity].
  rewrite <- H. symmetry. apply existsb_exists. exists x. auto.
Qed.

Section Coarse.
Variable M : AmrMesh.
Hypothesis HF : fits M.

(** A block below level 0 is one of the children of its parent. *)
Lemma child_of_parent b : validBlock M b -> 0 < levelOf M b ->
  In b (getChildren M (getParent M b)).
Proof.
  intros Hb Hl. destruct (validBlock_inv M b Hb) as (l & i & j & k & Hv & -> & _).
  rewrite (levelOf_getGlobalID M HF) in Hl by assumption.
  rewrite (getParent_getGlobalID M HF _ _ _ _ Hv Hl).
  rewrite (getChildren_getGlobalID M HF _ _ _ _ (validAddr_parent M l i j k Hv Hl))
    by (destruct Hv; lia).
  apply in_map_iff. exists (i, j, k). cbn [fst snd].
  split; [f_equal; lia|]. apply childAddrs_spec.
  repeat split; Z.div_mod_to_equations; lia.
Qed.

(** An ancestor of the parent of [c] is an ancestor of [c]. *)
Lemma ancestor_of_parent b c : validBlock M c -> validBlock M b -> 0 < levelOf M c ->
  isAncestor M b (getParent M c) -> isAncestor M b c.
Proof.
  intros Hc Hb Hl Ha.
  destruct (validBlock_inv M c Hc) as (l & i & j & k & Hv & -> & _).
  destruct (validBlock_inv M b Hb) as (lb & ib & jb & kb & Hvb & -> & _).
  rewrite (levelOf_getGlobalID M HF) in Hl by assumption.
  rewrite (getParent_getGlobalID M HF l i j k Hv Hl) in Ha.
  pose proof (validAddr_parent M l i j k Hv Hl) as Hvp.
  unfold isAncestor in *. rewrite !(getIndices_getGlobalID M HF) in * by assumption.
  destruct Ha as (Hlt & Hi & Hj & Hk).
  replace (l - lb) with ((l - 1 - lb) + 1) by lia.
  rewrite !div_pow2_succ by lia. repeat split; try lia; assumption.
Qed.

(** What lies below [P] is a child of [P] or lies below one. *)
Lemma ancestor_descend P : validBlock M P -> levelOf M P < refLevelMaxAllowed M ->
  forall (n : nat) b, (Z.to_nat (levelOf M b) <= n)%nat -> validBlock M b -> isAncestor M P b ->
  exists s, In s (getChildren M P) /\ (s = b \/ isAncestor M s b).
Proof.
  intros HP HlP. induction n as [|n IH]; intros b Hn Hb Ha;
    pose proof (ancestor_level M P b Ha) as Hlt;
    pose proof (validBlock_level M HF P HP) as HlvP.
  - lia.
  - assert (Hl : 0 < levelOf M b) by lia.
    destruct (parent_spec M HF b Hb Hl) as [Hvp Hlp].
    destruct (ancestor_of_child M HF P b HP Hb Hl Ha) as [E|Ha'].
    + exists b. split; [rewrite E; apply (child_of_parent b Hb Hl)|left; reflexivity].
    + destruct (IH (getParent M b) ltac:(lia) Hvp Ha') as (s & Hs & [E|Hsa]).
      * exists s. split; [exact Hs|right]. rewrite E. apply (ancestor_parent M HF b Hb Hl).
      * exists s. split; [exact Hs|right].
        apply (ancestor_of_parent s b Hb); [|exact Hl|exact Hsa].
        apply (children_spec M HF P s HP HlP Hs).
Qed.

(** Along one axis: what meets an interval meets one of its halves. *)
Lemma axisTouch_child lb ib l ip : 0 <= lb -> 0 <= l -> axisTouch lb ib l ip ->
  exists i, (i = 2 * ip \/ i = 2 * ip + 1) /\ axisTouch lb ib (l + 1) i.
Proof.
  intros Hlb Hl [H1 H2]. unfold axisTouch.
  rewrite Z.pow_add_r, Z.pow_1_r by lia.
  assert (0 < 2 ^ l) by (apply Z.pow_pos_nonneg; lia).
  assert (0 < 2 ^ lb) by (apply Z.pow_pos_nonneg; lia).
  set (P := 2 ^ l) in *. set (Q := 2 ^ lb) in *.
  destruct (Z_le_gt_dec (ib * (P * 2)) ((2 * ip + 1) * Q)).
  - exists (2 * ip). split; [left; reflexivity|]. split; nia.
  - exists (2 * ip + 1). split; [right; reflexivity|]. split; nia.
Qed.

(** What touches a block touches one of its children. *)
Lemma touching_child P b : validBlock M P -> levelOf M P < refLevelMaxAllowed M ->
  validBlock M b -> touching M b P ->
  exists s, In s (getChildren M P) /\ touching M b s.
Proof.
  intros HP Hl Hb Ht.
  destruct (validBlock_inv M P HP) as (l & i & j & k & Hv & -> & EP).
  destruct (validBlock_inv M b Hb) as (lb & ib & jb & kb & Hvb & -> & Eb).
  rewrite (levelOf_getGlobalID M HF) in Hl by assumption.
  unfold touching in Ht. rewrite Eb, EP in Ht. destruct Ht as (T1 & T2 & T3).
  assert (Hl0 : 0 <= l) by (destruct Hv; lia).
  assert (Hlb0 : 0 <= lb) by (destruct Hvb; lia).
  destruct (axisTouch_child lb ib l i Hlb0 Hl0 T1) as (i' & Hi & Ti).
  destruct (axisTouch_child lb jb l j Hlb0 Hl0 T2) as (j' & Hj & Tj).
  destruct (axisTouch_child lb kb l k Hlb0 Hl0 T3) as (k' & Hk & Tk).
  assert (Hin : In (i', j', k') (childAddrs i j k)) by (apply childAddrs_spec; auto).
  exists (getGlobalID M (l + 1) i' j' k'). split.
  - rewrite (getChildren_getGlobalID M HF l i j k Hv Hl).
    apply in_map_iff. exists (i', j', k'). split; [reflexivity|exact Hin].
  - unfold touching. rewrite Eb.
    rewrite (getIndices_getGlobalID M HF _ _ _ _ (validAddr_child M l i j k i' j' k' Hv Hl Hin)).
    auto.
Qed.

(** A block of the level of [c] that touches the parent of [c] is one of
    the ids [getSiblingNeighbors] returns or a sibling of [c]. *)
Lemma sibling_neighbor_complete c n : validBlock M c -> 0 < levelOf M c ->
  validBlock M n -> levelOf M n = levelOf M c -> touching M n (getParent M c) ->
  In n (getSiblingNeighbors M c) \/ In n (getChildren M (getParent M c)).
Proof.
  intros Hc Hl Hn Hln Ht.
  destruct (validBlock_inv M c Hc) as (l & i & j & k & Hv & -> & Ec).
  destruct (validBlock_inv M n Hn) as (l' & i' & j' & k' & Hv' & -> & En).
  rewrite !(levelOf_getGlobalID M HF) in * by assumption. subst l'.
  pose proof (validAddr_parent M l i j k Hv Hl) as Hvp.
  rewrite (getParent_getGlobalID M HF _ _ _ _ Hv Hl) in *.
  unfold touching in Ht. rewrite En, (getIndices_getGlobalID M HF _ _ _ _ Hvp) in Ht.
  destruct Ht as (T1 & T2 & T3).
  apply axisTouch_sym, (axisTouch_coarse l _ _ Hl) in T1.
  apply axisTouch_sym, (axisTouch_coarse l _ _ Hl) in T2.
  apply axisTouch_sym, (axisTouch_coarse l _ _ Hl) in T3.
  assert (Ei : i - i mod 2 = 2 * (i / 2)) by (Z.div_mod_to_equations; lia).
  assert (Ej : j - j mod 2 = 2 * (j / 2)) by (Z.div_mod_to_equations; lia).
  assert (Ek : k - k mod 2 = 2 * (k / 2)) by (Z.div_mod_to_equations; lia).
  set (di := i' - 2 * (i / 2)). set (dj := j' - 2 * (j / 2)). set (dk := k' - 2 * (k / 2)).
  assert (Hi' : i' = i - i mod 2 + di) by (unfold di; lia).
  assert (Hj' : j' = j - j mod 2 + dj) by (unfold dj; lia).
  assert (Hk' : k' = k - k mod 2 + dk) by (unfold dk; lia).
  destruct (insideOctet di dj dk) eqn:Eo.
  - right. rewrite (getChildren_getGlobalID M HF _ _ _ _ Hvp) by (destruct Hv; lia).
    apply in_map_iff. exists (i', j', k'). cbn [fst snd].
    split; [f_equal; lia|]. apply childAddrs_spec.
    unfold insideOctet in Eo. apply andb_true_iff in Eo. destruct Eo as [Eo E3].
    apply andb_true_iff in Eo. destruct Eo as [E1 E2].
    apply orb_true_iff in E1, E2, E3. unfold di, dj, dk in *. lia.
  - left. rewrite Hi', Hj', Hk'.
    apply (getSiblingNeighbors_valid M HF l i j k di dj dk Hv);
      try (apply in_offs4; unfold di, dj, dk; lia); [exact Eo|].
    rewrite <- Hi', <- Hj', <- Hk'. exact Hv'.
Qed.
End Coarse.

(** [coarsen] returns (it does not reach [exit(1)]) and keeps a well-formed
    mesh well-formed, whatever it returns. *)
Theorem coarsen_wellFormed indeterminate M c :
  wellFormed M ->
  exists b M', coarsen indeterminate M c = Returned b M' /\ wellFormed M'.
Proof.
  intros HWF. pose proof HWF as (HF & Hval & Hleaf & Hbal). unfold coarsen.
  destruct (exists_block (globalIDs M) c) eqn:Ec; cbn [negb]; [|eauto].
  apply exists_block_true in Ec. pose proof (Hval c Ec) as Hvc.
  pose proof (validBlock_level M HF c Hvc) as Hlv.
  destruct (getIndices M c) as [[[l i] j] k] eqn:E.
  assert (El : levelOf M c = l) by (unfold levelOf; rewrite E; reflexivity).
  destruct (Z.eqb_spec l 0) as [|Hl0]; [eauto|].
  assert (Hl : 0 < levelOf M c) by lia.
  destruct (existsb _ (getSiblingNeighbors M c)) eqn:En; [eauto|].
  destruct (existsb _ (getSiblings M c)) eqn:Es; [eauto|].
  destruct (parent_spec M HF c Hvc Hl) as [HvP HlP].
  set (P := getParent M c) in *.
  assert (HlP' : levelOf M P < refLevelMaxAllowed M) by lia.
  assert (Esib : getSiblings M c = getChildren M P).
  { apply (siblings_of_child M HF P c HvP HlP'). apply (child_of_parent M HF c Hvc Hl). }
  rewrite Esib in *.
  assert (Hsib : forall s, In s (getChildren M P) -> is_Some (globalIDs M !! s)).
  { intros s Hs. apply exists_block_true, negb_false_iff.
    apply (existsb_false_inv _ _ Es s Hs). }
  assert (Hnb : forall n x, In n (getSiblingNeighbors M c) -> In x (getChildren M n) ->
            globalIDs M !! x = None).
  { intros n x Hn Hx. apply exists_block_false.
    apply (existsb_false_inv _ _ (existsb_false_inv _ _ En n Hn) x Hx). }
  destruct (eraseAll_NoDup (getChildren M P) (globalIDs M) (children_NoDup M HF P HvP HlP') Hsib)
    as (m2 & He & Hm2).
  rewrite He. eexists true, _. split; [reflexivity|].
  set (m' := map_insert P _ m2).
  assert (Hm' : forall x, is_Some (m' !! x) <->
            x = P \/ (is_Some (globalIDs M !! x) /\ ~ In x (getChildren M P))).
  { intros x. unfold m'. rewrite map_insert_present, Hm2. tauto. }
  (* a sibling and what touches the parent *)
  assert (Hnear : forall b, is_Some (globalIDs M !! b) -> ~ In b (getChildren M P) ->
            touching M b P -> levelOf M P <= levelOf M b <= levelOf M P + 1).
  { intros b Hb Hnot Ht. pose proof (Hval b Hb) as Hvb.
    destruct (touching_child M HF P b HvP HlP' Hvb Ht) as (s & Hs & Hts).
    destruct (children_spec M HF P s HvP HlP' Hs) as (Hvs & Ls & Ps).
    pose proof (Hbal b s Hb (Hsib s Hs) Hts) as Hd.
    destruct (Z.eq_dec (levelOf M b) (levelOf M P + 2)) as [Efine|]; [exfalso|lia].
    assert (Hlb : 0 < levelOf M b) by lia.
    destruct (parent_spec M HF b Hvb Hlb) as [Hvn Hln].
    pose proof (touching_parent M HF b P Hvb HvP Hlb Ht) as Htn.
    destruct (sibling_neighbor_complete M HF c (getParent M b) Hvc Hl Hvn ltac:(lia) Htn)
      as [Hin|Hin].
    - pose proof (Hnb _ b Hin (child_of_parent M HF b Hvb Hlb)) as Hnone.
      rewrite Hnone in Hb. destruct Hb; discriminate.
    - apply (Hleaf _ b (Hsib _ Hin) Hb). apply (ancestor_parent M HF b Hvb Hlb). }
  apply wellFormed_setGlobalIDs; [exact HF| | |].
  - intros x Hx. apply Hm' in Hx. destruct Hx as [->|[Hx _]]; [exact HvP|apply Hval, Hx].
  - intros a b Ha Hb Hanc. apply Hm' in Ha, Hb.
    destruct Ha as [->|[Ha Hna]], Hb as [->|[Hb Hnb']].
    + pose proof (ancestor_level M P P Hanc). lia.
    + destruct (ancestor_descend M HF P HvP HlP' (Z.to_nat (levelOf M b)) b (le_n _)
                  (Hval b Hb) Hanc) as (s & Hs & [->|Hsa]); [contradiction|].
      apply (Hleaf s b (Hsib s Hs) Hb Hsa).
    + apply (Hleaf a c Ha Ec). apply (ancestor_of_parent M HF a c Hvc (Hval a Ha) Hl Hanc).
    + apply (Hleaf a b Ha Hb Hanc).
  - assert (Hhalf : forall b, is_Some (globalIDs M !! b) -> ~ In b (getChildren M P) ->
              touching M b P -> -1 <= levelOf M b - levelOf M P <= 1).
    { intros b Hb Hnot Ht. pose proof (Hnear b Hb Hnot Ht). lia. }
    intros a b Ha Hb Ht. apply Hm' in Ha, Hb.
    destruct Ha as [->|[Ha Hna]], Hb as [->|[Hb Hnb']].
    + lia.
    + pose proof (Hhalf b Hb Hnb' (touching_sym M _ _ Ht)). lia.
    + pose proof (Hhalf a Ha Hna Ht). lia.
    + apply (Hbal a b Ha Hb Ht).
Qed.

Lemma coarsen_wellFormed_witness :
  wellFormed mesh1 /\
  exists b M', coarsen noLocalIDs mesh1 9 = Returned b M' /\ wellFormed M'.
Proof.
  split; [exact mesh1_wellFormed|].
  apply (coarsen_wellFormed noLocalIDs mesh1 9 mesh1_wellFormed).
Defined.

(** The table the loop of [initialize] fills holds blocks of level
    [refLevel] only. *)
Lemma initialize_loop M (HF : fits M) (skip : nat -> bool) (lid : GlobalID -> LocalID) r :
  forall (cells : list (Z * Z * Z)) (st : nat * gmap Z Z),
  (forall i j k, In (i, j, k) cells -> validAddr M r i j k) ->
  (forall g, is_Some (snd st !! g) -> validBlock M g /\ levelOf M g = r) ->
  forall g,
    is_Some (snd (fold_left (fun (st : nat * gmap Z Z) (c : Z * Z * Z) =>
                    let '(n, m) := st in
                    let '(i, j, k) := c in
                    if skip n then (S n, m)
                    else (S n, map_insert (getGlobalID M r i j k)
                                 (lid (getGlobalID M r i j k)) m))
                  cells st) !! g) ->
    validBlock M g /\ levelOf M g = r.
Proof.
  induction cells as [|[[i j] k] rest IH]; intros [n m] Hc Hm g; cbn [fold_left].
  - apply Hm.
  - apply IH.
    + intros i' j' k' Hin. apply Hc. right; exact Hin.
    + intros x. destruct (skip n); cbn [snd]; [apply Hm|].
      rewrite map_insert_present. intros [->|Hx]; [|apply Hm, Hx].
      pose proof (Hc i j k (or_introl eq_refl)) as Hv.
      split; [apply (validBlock_intro M HF), Hv|apply (levelOf_getGlobalID M HF), Hv].
Qed.

(** A table of blocks of one level is a balanced set of leaves. *)
Lemma one_level_wellFormed M m r : fits M ->
  (forall g, is_Some (m !! g) -> validBlock M g /\ levelOf M g = r) ->
  wellFormed (setGlobalIDs M m).
Proof.
  intros HF H. apply wellFormed_setGlobalIDs; [exact HF| | |].
  - intros g Hg. apply (H g Hg).
  - intros a b Ha Hb Hanc. pose proof (ancestor_level M a b Hanc).
    destruct (H a Ha), (H b Hb). lia.
  - intros a b Ha Hb _. destruct (H a Ha), (H b Hb). lia.
Qed.

(** The constructor followed by [initialize] gives a well-formed mesh when
    the finest level has fewer than [2^32] blocks: blocks of the start level
    only. *)
Theorem initialize_wellFormed skip Nx0 Ny0 Nz0 xCells yCells zCells maxRefLevel
    xmin xmax ymin ymax zmin zmax refLevel :
  1 <= Nx0 -> 1 <= Ny0 -> 1 <= Nz0 -> 0 <= refLevel <= maxRefLevel ->
  Nx0 * Ny0 * Nz0 * 8 ^ maxRefLevel < 2 ^ 32 ->
  exists M',
    initialize skip (construct Nx0 Ny0 Nz0 xCells yCells zCells maxRefLevel)
      xmin xmax ymin ymax zmin zmax refLevel = (true, M')
    /\ wellFormed M'
    /\ forall g, is_Some (globalIDs M' !! g) -> levelOf M' g = refLevel.
Proof.
  intros Hx Hy Hz Hr Hsmall.
  assert (H8 : 1 <= 8 ^ maxRefLevel) by (apply (Z.pow_le_mono_r 8 0); lia).
  assert (HN : 0 <= Nx0 * Ny0 * Nz0 < 2 ^ 32) by nia.
  unfold initialize, construct.
  cbn [initialized refLevelMaxAllowed bbox N_blocks0 globalIDs meshLimits offsets
       callbackCoarsenBlock callbackCreateBlock callbackDeleteBlock callbackRefineBlock].
  destruct (Z.ltb_spec maxRefLevel refLevel) as [|_]; [lia|].
  rewrite (wrap32_small (Nx0 * Ny0 * Nz0)) by exact HN.
  set (B := [Nx0; Ny0; Nz0; xCells; yCells; zCells]).
  set (M1 := mkAmrMesh B (Nx0 * Ny0 * Nz0) maxRefLevel false
               (buildOffsets (Nx0 * Ny0 * Nz0) maxRefLevel) [] ∅ None None None None).
  assert (HF : fits M1).
  { unfold fits, M1, bboxAt, B. cbn. repeat split; try lia. }
  assert (Hv0 : validAddr M1 refLevel 0 0 0).
  { assert (0 < 2 ^ refLevel) by (apply Z.pow_pos_nonneg; lia).
    unfold validAddr, M1, bboxAt, B. cbn. repeat split; try lia; nia. }
  pose proof (validAddr_bounds M1 HF _ _ _ _ Hv0) as (_ & _ & _ & HX & HY & HZ).
  pose proof (level_small M1 HF refLevel Hr) as Hrs.
  assert (Hp : 0 < 2 ^ refLevel < 2 ^ 32).
  { assert (0 < 2 ^ refLevel) by (apply Z.pow_pos_nonneg; lia).
    unfold M1, bboxAt, B in HX. cbn in HX. nia. }
  rewrite (double_to_uint32_small (2 ^ refLevel)) by lia.
  change (bboxAt (mkAmrMesh B 0 maxRefLevel false [] [] ∅ None None None None))
    with (bboxAt M1) in *.
  unfold bboxAt.
  match goal with |- context [fold_left ?f ?cells ?st] =>
    pose proof (initialize_loop M1 HF skip (fun _ => INVALID_LOCALID) refLevel cells st) as Hloop;
    destruct (fold_left f cells st) as [n m] eqn:Efold
  end.
  eexists. split; [reflexivity|].
  assert (Hm : forall g, is_Some (m !! g) -> validBlock M1 g /\ levelOf M1 g = refLevel).
  { intros g Hg. apply Hloop; [| |exact Hg].
    - intros i j k Hin. apply in_flat_map in Hin. destruct Hin as (k' & Hk & Hin).
      apply in_flat_map in Hin. destruct Hin as (j' & Hj & Hin).
      apply in_map_iff in Hin. destruct Hin as (i' & E & Hi). inversion E; subst.
      apply list_elem_of_In, elem_of_seqZ in Hi, Hj, Hk.
      unfold bboxAt, M1, B in HX, HY, HZ. cbn in HX, HY, HZ.
      unfold M1, B in Hi, Hj, Hk. cbn [nth bbox] in Hi, Hj, Hk.
      rewrite wrap32_small in Hi, Hj, Hk by lia.
      unfold validAddr, bboxAt, M1, B. cbn. lia.
    - cbn [snd]. intros x Hx'. rewrite lookup_empty in Hx'. destruct Hx'; discriminate. }
  split.
  - exact (one_level_wellFormed M1 m refLevel HF Hm).
  - intros g Hg. apply (Hm g Hg).
Qed.

Lemma initialize_wellFormed_witness :
  exists M',
    initialize (fun _ => false) (construct 1 1 1 4 4 4 3)
      0%float 1%float 0%float 1%float 0%float 1%float 1 = (true, M')
    /\ wellFormed M'
    /\ forall g, is_Some (globalIDs M' !! g) -> levelOf M' g = 1.
Proof.
  apply (initialize_wellFormed (fun _ => false) 1 1 1 4 4 4 3); lia.
Defined.

(** ** getGlobalID(x,y,z) *)

Lemma find_map_seqZ {A : Type} (p : A -> bool) (f : Z -> A) (n : nat) : forall a,
  match find p (map f (seqZ a (Z.of_nat n))) with
  | Some v => exists r, a <= r < a + Z.of_nat n /\ v = f r /\ p v = true
                        /\ forall r', a <= r' < r -> p (f r') = false
  | None => forall r, a <= r < a + Z.of_nat n -> p (f r) = false
  end.
Proof.
  induction n as [|n IH]; intros a.
  - rewrite seqZ_nil by lia. cbn. intros; lia.
  - rewrite seqZ_cons by lia. cbn [map find].
    replace (Z.pred (Z.of_nat (S n))) with (Z.of_nat n) by lia.
    destruct (p (f a)) eqn:Ea.
    + exists a. split; [lia|]. split; [reflexivity|]. split; [exact Ea|]. intros; lia.
    + specialize (IH (Z.succ a)).
      destruct (find p (map f (seqZ (Z.succ a) (Z.of_nat n)))) as [v|].
      * destruct IH as (r & Hr & Hv & Hp & Hfirst). exists r.
        split; [lia|]. split; [exact Hv|]. split; [exact Hp|].
        intros r' Hr'. destruct (Z.eq_dec r' a) as [->|]; [exact Ea|apply Hfirst; lia].
      * intros r Hr. destruct (Z.eq_dec r a) as [->|]; [exact Ea|apply IH; lia].
Qed.

(** What the scan of [getGlobalID(x,y,z)] does: it returns the invalid id
    when [x] is outside its limits or [y] or [z] is below its lower limit,
    and when at no
    level the id it forms is in the table; a valid result is the id formed
    at the coarsest level whose id is in the table. *)
Theorem getGlobalID_xyz_scan M x y z :
  (PrimFloat.ltb x (limitAt M 0) = true \/ PrimFloat.ltb (limitAt M 1) x = true
   \/ PrimFloat.ltb y (limitAt M 2) = true \/ PrimFloat.ltb z (limitAt M 4) = true ->
   getGlobalID_xyz M x y z = INVALID_GLOBALID)
  /\ (getGlobalID_xyz M x y z <> INVALID_GLOBALID ->
      exists r, 0 <= r <= refLevelMaxAllowed M
        /\ getGlobalID_xyz M x y z = blockAt M r x y z
        /\ is_Some (globalIDs M !! blockAt M r x y z)
        /\ forall r', 0 <= r' < r -> globalIDs M !! blockAt M r' x y z = None)
  /\ ((forall r, 0 <= r <= refLevelMaxAllowed M -> globalIDs M !! blockAt M r x y z = None) ->
      getGlobalID_xyz M x y z = INVALID_GLOBALID).
Proof.
  unfold getGlobalID_xyz.
  pose proof (find_map_seqZ (exists_block (globalIDs M)) (fun r => blockAt M r x y z)
                (Z.to_nat (refLevelMaxAllowed M + 1)) 0) as Hfind.
  split; [|split].
  - intros H. unfold rejected.
    destruct H as [H|[H|[H|H]]]; rewrite H; rewrite ?orb_true_r; reflexivity.
  - destruct (rejected M x y z); [congruence|].
    destruct (Z.le_gt_cases 0 (refLevelMaxAllowed M + 1)) as [Hn|Hn].
    + rewrite Z2Nat.id in Hfind by lia.
      destruct (find _ _) as [v|]; [|congruence].
      destruct Hfind as (r & Hr & Hv & Hp & Hfirst). intros _. exists r.
      split; [lia|]. split; [exact Hv|]. rewrite <- Hv.
      split; [apply exists_block_true, Hp|].
      intros r' Hr'. apply exists_block_false. apply Hfirst. lia.
    + rewrite seqZ_nil by lia. cbn. congruence.
  - intros Hnone. destruct (rejected M x y z); [reflexivity|].
    destruct (Z.le_gt_cases 0 (refLevelMaxAllowed M + 1)) as [Hn|Hn].
    + rewrite Z2Nat.id in Hfind by lia.
      destruct (find _ _) as [v|]; [|reflexivity].
      destruct Hfind as (r & Hr & Hv & Hp & _).
      rewrite Hv in Hp. apply exists_block_true in Hp.
      rewrite (Hnone r ltac:(lia)) in Hp. destruct Hp; discriminate.
    + rewrite seqZ_nil by lia. reflexivity.
Qed.

(** The point (0.5,0.5,0.5) lies inside the limits of [holeMesh], whose
    block 0 is absent, and the result is the invalid id. *)
Lemma getGlobalID_xyz_hole :
  ~ (getGlobalID_xyz holeMesh 0.5%float 0.5%float 0.5%float = INVALID_GLOBALID
     <-> outsideLimits holeMesh 0.5%float 0.5%float 0.5%float = true).
Proof.
  intros [H _]. assert (E : outsideLimits holeMesh 0.5%float 0.5%float 0.5%float = false)
    by (vm_compute; reflexivity).
  rewrite H in E; [discriminate|]. vm_compute. reflexivity.
Qed.

(** The second and third range test compare [x]: the point (1.5,0.5,0.5)
    lies inside the limits and inside block 1, which is in the table, and is
    refused because [x] exceeds the upper limit of [y]. *)
Lemma getGlobalID_xyz_compares_x :
  keysOf (globalIDs holeMesh) = [1]
  /\ outsideLimits holeMesh 1.5%float 0.5%float 0.5%float = false
  /\ blockAt holeMesh 0 1.5%float 0.5%float 0.5%float = 1
  /\ getGlobalID_xyz holeMesh 1.5%float 0.5%float 0.5%float = INVALID_GLOBALID.
Proof. repeat split; vm_compute; reflexivity. Qed.

(** C4 fails in three ways.  On [octree1] the point (0.5,1.5,0.5) lies
    above the upper limit of y and block 1 is returned: the test compares x
    with the limit.  On [holeMesh] the point (1.5,0.5,0.5) lies inside the
    limits and inside block 1, which is in the table, and the invalid id is
    returned: x exceeds the upper limit of y.  On [mesh1] the point
    (0.3125,0.125,0.125) lies inside block 10 at (2,1,0,0), which is in the
    table, and block 9 at (2,0,0,0), which does not contain it, is returned:
    level 2 is taken to have [bbox*(2+1)] blocks along each axis. *)
Theorem getGlobalID_xyz_slips :
  (outsideLimits octree1 0.5%float 1.5%float 0.5%float = true
   /\ getGlobalID_xyz octree1 0.5%float 1.5%float 0.5%float = 1
   /\ is_Some (globalIDs octree1 !! 1))
  /\ (outsideLimits holeMesh 1.5%float 0.5%float 0.5%float = false
      /\ is_Some (globalIDs holeMesh !! 1)
      /\ boxContains holeMesh 1 1.5%float 0.5%float 0.5%float = true
      /\ getGlobalID_xyz holeMesh 1.5%float 0.5%float 0.5%float = INVALID_GLOBALID)
  /\ (outsideLimits mesh1 0.3125%float 0.125%float 0.125%float = false
      /\ getGlobalID_xyz mesh1 0.3125%float 0.125%float 0.125%float = 9
      /\ boxContains mesh1 9 0.3125%float 0.125%float 0.125%float = false
      /\ is_Some (globalIDs mesh1 !! 10)
      /\ boxContains mesh1 10 0.3125%float 0.125%float 0.125%float = true).
Proof.
  repeat split; try (apply exists_block_true); vm_compute; reflexivity.
Qed.

(** ** The self-check *)

Lemma upper_bound_le (l : list Z) v : 0 <= upper_bound l v <= Z.of_nat (length l).
Proof.
  induction l as [|o l IH]; cbn [upper_bound length]; [lia|].
  destruct (v <? o); lia.
Qed.

Lemma upper_bound_offN_ge N0 (n : nat) : forall (s : nat) (v : Z) (t : nat),
  0 <= N0 -> (s <= t < s + n)%nat -> offN N0 t <= v ->
  Z.of_nat (S t - s) <= upper_bound (map (offN N0) (seq s n)) v.
Proof.
  induction n as [|n IH]; intros s v t HN Hst Hlo; [lia|].
  cbn [seq map upper_bound].
  assert (offN N0 s <= v) by (pose proof (offN_mono N0 s t HN); lia).
  destruct (Z.ltb_spec v (offN N0 s)); [lia|].
  destruct (Nat.eq_dec s t) as [->|Hne].
  - pose proof (upper_bound_le (map (offN N0) (seq (S t) n)) v). lia.
  - pose proof (IH (S s) v t HN ltac:(lia) Hlo). lia.
Qed.

Section SelfCheck.
Variable M : AmrMesh.
Hypothesis HF : fits M.

Lemma max_level_small : 0 <= refLevelMaxAllowed M /\ refLevelMaxAllowed M + 1 < 2 ^ 32.
Proof.
  pose proof HF as (Hx & Hy & Hz & HL & _ & _ & _).
  destruct (pow2_level_bound M HF (refLevelMaxAllowed M) ltac:(lia)) as [Hp Hb].
  assert (refLevelMaxAllowed M < 2 ^ refLevelMaxAllowed M) by (apply Z.pow_gt_lin_r; lia).
  set (P := 2 ^ refLevelMaxAllowed M) in *.
  assert (1 <= bboxAt M 0 * bboxAt M 1 * bboxAt M 2) by nia.
  assert (P <= P * P * P) by nia.
  split; [lia|nia].
Qed.

(** Every id has a level between 0 and the maximum. *)
Lemma levelOf_range g : 0 <= g -> 0 <= levelOf M g <= refLevelMaxAllowed M.
Proof.
  intros Hg. unfold levelOf, getIndices.
  pose proof (upper_bound_le (offsets M) g) as Hub.
  pose proof HF as (_ & _ & _ & HL & _ & _ & _).
  pose proof (upper_bound_offN_ge (N_blocks0 M) (S (Z.to_nat (refLevelMaxAllowed M)))
                0 g 0 ltac:(pose proof (fits_N0_pos M HF); lia) ltac:(lia) Hg) as Hlo.
  rewrite (fits_offsets M HF) in *. rewrite length_map, length_seq in Hub.
  pose proof (level_small M HF (refLevelMaxAllowed M) ltac:(lia)).
  rewrite wrap32_small by lia. lia.
Qed.

(** An id at or above the offset of level [l] has level [l] at least. *)
Lemma levelOf_ge l g : 0 <= l <= refLevelMaxAllowed M -> offsetAt M l <= g ->
  l <= levelOf M g.
Proof.
  intros Hl Hg. rewrite (offsetAt_fits M HF l Hl) in Hg.
  pose proof (fits_N0_pos M HF) as HN.
  pose proof (offN_bound (N_blocks0 M) (Z.to_nat l) ltac:(lia)).
  pose proof (levelOf_range g ltac:(lia)) as Hr.
  unfold levelOf, getIndices in *.
  pose proof (upper_bound_le (offsets M) g) as Hub.
  pose proof (upper_bound_offN_ge (N_blocks0 M) (S (Z.to_nat (refLevelMaxAllowed M)))
                0 g (Z.to_nat l) ltac:(lia) ltac:(lia) Hg) as Hlo.
  rewrite (fits_offsets M HF) in *. rewrite length_map, length_seq in Hub.
  pose proof (level_small M HF (refLevelMaxAllowed M) ltac:(lia)).
  rewrite wrap32_small in * by lia. lia.
Qed.

(** The ids [getGlobalID] forms for level [l] lie at or above the offset of
    the level, whatever the indices. *)
Lemma getGlobalID_ge l i j k : 0 <= l <= refLevelMaxAllowed M -> 0 <= i < 2 ^ 32 ->
  offsetAt M l <= getGlobalID M l i j k.
Proof.
  intros Hl Hi. unfold getGlobalID.
  pose proof (offsetAt_fits M HF l Hl) as Eo.
  pose proof (fits_N0_pos M HF) as HN.
  pose proof (offN_bound (N_blocks0 M) (Z.to_nat l) ltac:(lia)) as Hb.
  rewrite Z2Nat.id in Hb by lia.
  destruct (pow2_level_bound M HF l Hl) as [_ Hs]. rewrite <- pow8_split in Hs by lia.
  pose proof HF as (_ & _ & _ & _ & _ & HN0 & _). rewrite HN0 in *.
  set (a := wrap32 _). set (b := wrap32 _).
  assert (0 <= a < 2 ^ 32) by (apply Z.mod_pos_bound; lia).
  assert (0 <= b < 2 ^ 32) by (apply Z.mod_pos_bound; lia).
  rewrite wrap64_small by lia. lia.
Qed.

Lemma getGlobalID_nonneg l i j k : 0 <= getGlobalID M l i j k.
Proof. unfold getGlobalID. apply wrap64_range. Qed.

Lemma wrap32_range x : 0 <= wrap32 x < 2 ^ 32.
Proof. apply Z.mod_pos_bound. lia. Qed.

(** The children of any id are ids of a deeper level. *)
Lemma children_deeper g c : 0 <= g -> In c (getChildren M g) ->
  0 <= c /\ levelOf M g < levelOf M c.
Proof.
  intros Hg Hc. pose proof (levelOf_range g Hg) as Hr.
  unfold getChildren in Hc. unfold levelOf in *.
  destruct (getIndices M g) as [[[l i] j] k]. cbv beta iota in Hr.
  pose proof max_level_small.
  rewrite (wrap32_small (l + 1)) in Hc by lia.
  destruct (Z.ltb_spec (refLevelMaxAllowed M) (l + 1)); [destruct Hc|].
  assert (Hall : forall a b d, 0 <= a < 2 ^ 32 ->
            0 <= getGlobalID M (l + 1) a b d /\
            l < (let '(r, _, _, _) := getIndices M (getGlobalID M (l + 1) a b d) in r)).
  { intros a b d Ha. split; [apply getGlobalID_nonneg|].
    pose proof (levelOf_ge (l + 1) (getGlobalID M (l + 1) a b d) ltac:(lia)
                  (getGlobalID_ge (l + 1) a b d ltac:(lia) Ha)) as Hlv.
    unfold levelOf in Hlv. lia. }
  unfold octet in Hc. cbn [In] in Hc.
  repeat (destruct Hc as [<-|Hc]; [apply Hall, wrap32_range|]). destruct Hc.
Qed.

Lemma fold_all_true {A : Type} (f : A -> option bool) (l : list A) :
  (forall x, In x l -> f x = Some true) ->
  fold_left (fun ok x => match ok, f x with
                         | Some b, Some r => Some (if r then b else false)
                         | _, _ => None
                         end) l (Some true) = Some true.
Proof.
  induction l as [|x l IH]; intros H; [reflexivity|].
  cbn [fold_left]. rewrite (H x (or_introl eq_refl)). apply IH.
  intros y Hy. apply H. right; exact Hy.
Qed.

Lemma checkBlock_true : forall (fuel : nat) g, 0 <= g ->
  (Z.to_nat (refLevelMaxAllowed M - levelOf M g) < fuel)%nat ->
  checkBlock fuel M g = Some true.
Proof.
  induction fuel as [|fuel IH]; intros g Hg Hfuel; [lia|].
  cbn [checkBlock]. destruct (exists_block (globalIDs M) g); [reflexivity|].
  apply fold_all_true. intros c Hc.
  destruct (children_deeper g c Hg Hc) as [Hc0 Hlt].
  pose proof (levelOf_range c Hc0). apply IH; [exact Hc0|lia].
Qed.
End SelfCheck.

(** The self-check cannot fail: on a mesh whose addressing fits the machine
    ranges [checkBlock] returns [true] for every id, in the table or not,
    and [checkMesh] returns [true] for every block table. *)
Theorem checkMesh_always_true M fuel :
  fits M -> (Z.to_nat (refLevelMaxAllowed M) < fuel)%nat ->
  (forall g, 0 <= g -> checkBlock fuel M g = Some true)
  /\ checkMesh fuel M = Some true.
Proof.
  intros HF Hfuel.
  assert (Hb : forall g, 0 <= g -> checkBlock fuel M g = Some true).
  { intros g Hg. apply (checkBlock_true M HF fuel g Hg).
    pose proof (levelOf_range M HF g Hg). lia. }
  split; [exact Hb|].
  unfold checkMesh. apply fold_all_true. intros s Hs. apply Hb.
  apply in_flat_map in Hs. destruct Hs as ([k v] & _ & Hs). cbn [fst] in Hs.
  unfold getSiblings in Hs. destruct (getIndices M k) as [[[l i] j] kk].
  unfold octet in Hs. cbn [In] in Hs.
  repeat (destruct Hs as [<-|Hs]; [apply getGlobalID_nonneg|]). destruct Hs.
Qed.

Lemma checkMesh_always_true_witness :
  globalIDs holeMesh !! 0 = None /\
  checkBlock 1 holeMesh 0 = Some true /\ checkMesh 1 holeMesh = Some true.
Proof.
  split; [vm_compute; reflexivity|].
  destruct (checkMesh_always_true holeMesh 1) as [Hb Hm].
  - apply fitsb_sound. vm_compute. reflexivity.
  - vm_compute. lia.
  - split; [apply Hb; lia|exact Hm].
Defined.

(** ** LocalIDs *)

(** [set] changes the LocalID of a block of the table and of no other; it
    refuses a block that is not in the table; the blocks of the table are
    the same afterwards. *)
Theorem set_then_get M g l :
  (globalIDs M !! g = None ->
     set M g l = (false, M) /\ get M g = INVALID_LOCALID)
  /\ (is_Some (globalIDs M !! g) ->
      exists M', set M g l = (true, M') /\ get M' g = l
        /\ (forall x, x <> g -> get M' x = get M x)
        /\ dom (globalIDs M') = dom (globalIDs M)
        /\ size M' = size M).
Proof.
  unfold set, get, size. destruct (globalIDs M !! g) as [v|] eqn:E; split.
  - discriminate.
  - intros _. eexists. split; [reflexivity|].
    cbn [globalIDs setGlobalIDs].
    split; [rewrite lookup_insert_eq; reflexivity|].
    split; [intros x Hx; rewrite lookup_insert_ne by congruence; reflexivity|].
    assert (Hd : dom (<[g:=l]> (globalIDs M)) = dom (globalIDs M)).
    { apply set_eq. intros x. rewrite dom_insert_L, elem_of_union, elem_of_singleton.
      split; [intros [->|H]; [apply elem_of_dom; eauto|exact H]|auto]. }
    split; [exact Hd|].
    rewrite <- !size_dom, Hd. reflexivity.
  - intros _. split; reflexivity.
  - intros [? ?]. discriminate.
Qed.

Lemma map_insert_old k l (m : gmap Z Z) x v :
  m !! x = Some v -> map_insert k l m !! x = Some v.
Proof.
  intros H. unfold map_insert. destruct (m !! k) eqn:E; [exact H|].
  rewrite lookup_insert_ne; [exact H|]. intros Hk. subst x.
  unfold GlobalID, LocalID in *. rewrite E in H. discriminate.
Qed.

Lemma insertPairs_old (f : nat -> Z) (ps : list (nat * Z)) : forall (m : gmap Z Z) x v,
  m !! x = Some v ->
  fold_left (fun acc p => map_insert (snd p) (f (fst p)) acc) ps m !! x = Some v.
Proof.
  induction ps as [|p ps IH]; intros m x v H; cbn [fold_left]; [exact H|].
  apply IH, map_insert_old, H.
Qed.

Lemma insertAll_old ids f (m : gmap Z Z) x v : m !! x = Some v -> insertAll ids f m !! x = Some v.
Proof. apply insertPairs_old. Qed.

Lemma insertPairs_new (f : nat -> Z) (ps : list (nat * Z)) : forall (m : gmap Z Z),
  List.NoDup (map snd ps) -> (forall p, In p ps -> m !! snd p = None) ->
  forall p, In p ps ->
    fold_left (fun acc p => map_insert (snd p) (f (fst p)) acc) ps m !! snd p = Some (f (fst p)).
Proof.
  unfold GlobalID, LocalID in *.
  induction ps as [|p0 ps IH]; intros m Hnd Hnone p Hp; [destruct Hp|].
  cbn [fold_left]. cbn [map] in Hnd. inversion Hnd as [|? ? Hnot Hnd']; subst.
  assert (E0 : map_insert (snd p0) (f (fst p0)) m = <[snd p0 := f (fst p0)]> m).
  { pose proof (Hnone p0 (or_introl eq_refl)) as E.
    unfold map_insert. unfold GlobalID, LocalID in *. rewrite E. reflexivity. }
  destruct Hp as [<-|Hp].
  - apply insertPairs_old. rewrite E0. apply lookup_insert_eq.
  - apply IH; [exact Hnd'| |exact Hp].
    intros q Hq. rewrite E0. rewrite lookup_insert_ne.
    + apply Hnone. right; exact Hq.
    + intros E. apply Hnot. rewrite E. apply in_map, Hq.
Qed.

Lemma in_combine_seq (ids : list Z) d : forall a s, (s < length ids)%nat ->
  In ((a + s)%nat, nth s ids d) (combine (seq a (length ids)) ids).
Proof.
  induction ids as [|x ids IH]; intros a s Hs; cbn [length] in Hs; [lia|].
  cbn [length seq combine]. destruct s as [|s].
  - left. cbn [nth]. f_equal. lia.
  - right. cbn [nth]. replace (a + S s)%nat with (S a + s)%nat by lia. apply IH. lia.
Qed.

(** The [s]-th [insert] of [refine] stores [lids s] when the ids are
    distinct and not in the table. *)
Lemma insertAll_new ids f (m : gmap Z Z) s d :
  List.NoDup ids -> (forall x, In x ids -> m !! x = None) -> (s < length ids)%nat ->
  insertAll ids f m !! nth s ids d = Some (f s).
Proof.
  intros Hnd Hnone Hs. unfold insertAll.
  apply (insertPairs_new f _ m) with (p := (s, nth s ids d)).
  - rewrite map_snd_combine_seq. exact Hnd.
  - intros p Hp. apply Hnone. rewrite <- (map_snd_combine_seq ids 0). apply in_map, Hp.
  - apply (in_combine_seq ids d 0 s Hs).
Qed.

(** [refineIDs] with the LocalIDs of the children named. *)
Lemma refineIDs_step indeterminate M n m g l i j k :
  getIndices M g = (l, i, j, k) -> exists_block m g = true ->
  (l =? refLevelMaxAllowed M) = false ->
  refineIDs indeterminate (S n) M m g =
  match fold_left (balanceStep (refineIDs indeterminate n M) M) (getNeighbors M g)
          (Some (insertAll (octet M (wrap32 (l + 1)) (wrap32 (i * 2)) (wrap32 (j * 2))
                              (wrap32 (k * 2)))
                   (refineLocalID indeterminate M m g) (delete g m)))
  with Some m' => Some (true, m') | None => None end.
Proof.
  intros E Hex Hl. cbn [refineIDs]. unfold refineLocalID. rewrite Hex, E, Hl. cbn [negb].
  destruct (callbackRefineBlock M); reflexivity.
Qed.

Section LocalIDs.
Variable indeterminate : nat -> LocalID.
Variable M : AmrMesh.
Hypothesis HF : fits M.
Variable m0 : gmap Z Z.
Hypothesis Hval0 : validTable M m0.
Hypothesis Hleaf0 : leafSet M m0.
Hypothesis Hbal0 : balanced M m0.

Lemma localID_loop n g : localIDSpec indeterminate M m0 n ->
  is_Some (m0 !! g) -> (Z.to_nat (levelOf M g) <= n)%nat ->
  forall nbrs m_s m_e,
    (forall nb, In nb nbrs -> In nb (getNeighbors M g)) ->
    (validTable M m_s /\ leafSet M m_s) -> fromOriginal M m0 m_s ->
    keepsLocalIDs m0 m_s ->
    fold_left (balanceStep (refineIDs indeterminate n M) M) nbrs (Some m_s) = Some m_e ->
    keepsLocalIDs m0 m_e
    /\ (forall x v, levelOf M g <= levelOf M x -> m_s !! x = Some v -> m_e !! x = Some v).
Proof.
  intros IHn Hg Hfuel.
  pose proof (Hval0 g Hg) as Hvg.
  pose proof (validBlock_level M HF g Hvg) as Hlvg.
  induction nbrs as [|nb rest IH]; intros m_s m_e Hnbrs Hwf Hfrom Hkeep Hfold.
  - cbn [fold_left] in Hfold. injection Hfold as <-. split; [exact Hkeep|auto].
  - cbn [fold_left] in Hfold.
    pose proof (Hnbrs nb (or_introl eq_refl)) as Hnb.
    destruct (neighbors_spec M HF g nb Hvg Hnb) as [Hvnb Hlnb].
    assert (Hrest : forall x, In x rest -> In x (getNeighbors M g))
      by (intros x Hx; apply Hnbrs; right; exact Hx).
    unfold balanceStep at 2 in Hfold.
    destruct (Z.eqb_spec (getParent M nb) nb) as [Ep|Ep];
      [apply (IH m_s m_e Hrest Hwf Hfrom Hkeep Hfold)|].
    destruct (exists_block m_s (getParent M nb)) eqn:Ex;
      [|apply (IH m_s m_e Hrest Hwf Hfrom Hkeep Hfold)].
    apply exists_block_true in Ex.
    assert (Hl0 : 0 < levelOf M nb).
    { destruct (Z.eq_dec (levelOf M nb) 0) as [E0|];
        [|pose proof (validBlock_level M HF nb Hvnb); lia].
      exfalso. apply Ep. apply (parent_level0 M HF nb Hvnb E0). }
    destruct (parent_spec M HF nb Hvnb Hl0) as [HvX HlX].
    pose proof (neighbor_parent_original M HF m0 Hval0 Hbal0 m_s g nb (proj1 Hwf) Hfrom Hg Hnb Ep Ex)
      as HX0.
    destruct (refineIDs_closure indeterminate M HF m0 Hval0 Hleaf0 Hbal0 n m_s (getParent M nb)
                Hwf Hfrom Ex HX0 ltac:(lia) ltac:(lia))
      as (m_k & Hr & Hwfk & _ & Hfromk & _ & _).
    rewrite Hr in Hfold.
    destruct (IHn m_s (getParent M nb) m_k Hwf Hfrom Ex HX0 ltac:(lia) ltac:(lia) Hkeep Hr)
      as (Hkeepk & Habovek & _).
    destruct (IH m_k m_e Hrest Hwfk Hfromk Hkeepk Hfold) as [Hkeepe Habovee].
    split; [exact Hkeepe|].
    intros x v Hx Hs. apply Habovee; [exact Hx|]. apply Habovek; [lia|exact Hs].
Qed.

Lemma refineIDs_localIDs n : localIDSpec indeterminate M m0 n.
Proof.
  induction n as [|n IHn]; intros m g m' Hwf Hfrom Hg Hg0 Hl Hfuel Hkeep Hr; [lia|].
  pose proof (proj1 Hwf g Hg) as Hvg.
  pose proof (validBlock_level M HF g Hvg) as Hlv.
  destruct (getIndices M g) as [[[l i] j] k] eqn:E.
  assert (El : levelOf M g = l) by (unfold levelOf; rewrite E; reflexivity).
  rewrite (refineIDs_step indeterminate M n m g l i j k E (proj2 (exists_block_true m g) Hg)
             (proj2 (Z.eqb_neq l (refLevelMaxAllowed M)) ltac:(lia))) in Hr.
  rewrite (getChildren_octet M HF g l i j k E Hvg ltac:(lia)) in Hr.
  set (f := refineLocalID indeterminate M m g) in *.
  set (m1 := insertAll (getChildren M g) f (delete g m)) in *.
  assert (Hwf1 : validTable M m1 /\ leafSet M m1) by (apply step_WF; assumption).
  assert (Hm1 : forall x, is_Some (m1 !! x) <-> In x (getChildren M g) \/ (x <> g /\ is_Some (m !! x))).
  { intros x. unfold m1. rewrite insertAll_present, delete_present. tauto. }
  assert (Hchild : forall x, In x (getChildren M g) -> ~ is_Some (m0 !! x)).
  { intros x Hx H0. destruct (children_spec M HF g x Hvg Hl Hx) as (Hvx & Lx & Px).
    apply (Hleaf0 g x Hg0 H0). rewrite <- Px. apply (ancestor_parent M HF x Hvx). lia. }
  assert (Hg1 : m1 !! g = None).
  { apply not_present. intros H. apply Hm1 in H. destruct H as [Hc|[Hne _]]; [|congruence].
    apply (Hchild g Hc Hg0). }
  assert (Hstay1 : staysOut m0 m m1).
  { intros x Hx0 Hx. apply not_present. intros H. apply Hm1 in H.
    destruct H as [Hc|[_ H]]; [apply (Hchild x Hc Hx0)|].
    exact (proj1 (not_present m x) Hx H). }
  assert (Hfrom1 : fromOriginal M m0 m1).
  { intros x Hx. apply Hm1 in Hx. destruct Hx as [Hc|[Hne Hx]].
    - right. destruct (children_spec M HF g x Hvg Hl Hc) as (Hvx & Lx & Px).
      rewrite Px. split; [lia|]. split; assumption.
    - destruct (Hfrom x Hx) as [H0|(H1 & H2 & H3)]; [left; exact H0|right].
      split; [exact H1|]. split; [exact H2|]. apply (Hstay1 _ H2 H3). }
  assert (Hold : forall x v, x <> g -> m !! x = Some v -> m1 !! x = Some v).
  { intros x v Hne Hx. unfold m1. apply insertAll_old. rewrite lookup_delete_ne by congruence.
    exact Hx. }
  assert (Hkeep1 : keepsLocalIDs m0 m1).
  { intros x v Hx0. destruct (Z.eq_dec x g) as [->|Hne]; [right; exact Hg1|].
    destruct (Hkeep x v Hx0) as [Hx|Hx]; [left; apply Hold; assumption|right].
    apply (Hstay1 x); [rewrite Hx0; eauto|exact Hx]. }
  destruct (fold_left _ (getNeighbors M g) (Some m1)) as [m_e|] eqn:Hfold; [|discriminate].
  injection Hr as <-.
  destruct (localID_loop n g IHn Hg0 ltac:(lia) (getNeighbors M g) m1 m_e (fun _ H => H)
              Hwf1 Hfrom1 Hkeep1 Hfold) as [Hkeepe Habove].
  split; [exact Hkeepe|]. split.
  - intros x v Hx Hs. apply Habove; [lia|]. apply Hold; [|exact Hs]. intros ->. lia.
  - intros s Hs.
    pose proof (children_length M HF g Hvg Hl) as Hlen.
    assert (Hin : In (nth s (getChildren M g) 0) (getChildren M g))
      by (apply nth_In; lia).
    destruct (children_spec M HF g _ Hvg Hl Hin) as (Hvc & Lc & Pc).
    apply Habove; [lia|]. unfold m1. apply insertAll_new.
    + apply (children_NoDup M HF g Hvg Hl).
    + intros x Hx. apply not_present. rewrite delete_present. intros [_ Hxm].
      destruct (children_spec M HF g x Hvg Hl Hx) as (Hvx & Lx & Px).
      apply (proj2 Hwf g x Hg Hxm). rewrite <- Px. apply (ancestor_parent M HF x Hvx). lia.
    + lia.
Qed.
End LocalIDs.

(** [refine] and the LocalIDs.  On a well-formed mesh every block that is in
    the table before and after the call has the LocalID it had, and after a
    successful call child number [s] of the block has the LocalID
    [refineLocalID] names: the callback's when one is registered. *)
Theorem refine_localIDs indeterminate M g fuel :
  wellFormed M -> (Z.to_nat (refLevelMaxAllowed M) < fuel)%nat ->
  exists b M', refine indeterminate fuel M g = Some (b, M') /\
    (forall x, is_Some (globalIDs M !! x) -> is_Some (globalIDs M' !! x) ->
       get M' x = get M x) /\
    (b = true -> forall s, (s < 8)%nat ->
       is_Some (globalIDs M' !! nth s (getChildren M g) 0) /\
       get M' (nth s (getChildren M g) 0)
       = refineLocalID indeterminate M (globalIDs M) g s).
Proof.
  intros (HF & Hval & Hleaf & Hbal) Hfuel. unfold refine.
  destruct fuel as [|n]; [lia|].
  assert (Hsame : forall x, is_Some (globalIDs M !! x) ->
            is_Some (globalIDs (setGlobalIDs M (globalIDs M)) !! x) ->
            get (setGlobalIDs M (globalIDs M)) x = get M x) by reflexivity.
  destruct (globalIDs M !! g) as [lid|] eqn:Eg.
  - assert (Hg : is_Some (globalIDs M !! g)) by (rewrite Eg; eauto).
    pose proof (Hval g Hg) as Hvg.
    pose proof (validBlock_level M HF g Hvg) as Hlv.
    destruct (Z.eq_dec (levelOf M g) (refLevelMaxAllowed M)) as [Emax|Emax].
    + exists false, (setGlobalIDs M (globalIDs M)). cbn [refineIDs].
      rewrite (proj2 (exists_block_true _ g) Hg). cbn [negb].
      unfold levelOf in Emax. destruct (getIndices M g) as [[[l i] j] k].
      rewrite (proj2 (Z.eqb_eq l _) Emax).
      split; [reflexivity|]. split; [exact Hsame|discriminate].
    + destruct (refineIDs_closure indeterminate M HF (globalIDs M) Hval Hleaf Hbal (S n)
                  (globalIDs M) g (conj Hval Hleaf) (fun x H => or_introl H) Hg Hg
                  ltac:(lia) ltac:(lia))
        as (m' & Hr & _).
      destruct (refineIDs_localIDs indeterminate M HF (globalIDs M) Hval Hleaf Hbal (S n)
                  (globalIDs M) g m' (conj Hval Hleaf) (fun x H => or_introl H) Hg Hg
                  ltac:(lia) ltac:(lia) (fun x v H => or_introl H) Hr)
        as (Hkeep & _ & Hch).
      rewrite Hr. exists true, (setGlobalIDs M m'). split; [reflexivity|].
      cbn [globalIDs setGlobalIDs]. split.
      * intros x [v Hx] [w Hx']. unfold get. cbn [globalIDs setGlobalIDs].
        destruct (Hkeep x v Hx) as [H|H]; unfold GlobalID, LocalID in *;
          rewrite H in Hx'; [|discriminate].
        rewrite H, Hx. reflexivity.
      * intros _ s Hs. pose proof (Hch s Hs) as H. unfold get. cbn [globalIDs setGlobalIDs].
        unfold GlobalID, LocalID in *. rewrite H. split; [eauto|reflexivity].
  - exists false, (setGlobalIDs M (globalIDs M)). cbn [refineIDs].
    rewrite (proj2 (exists_block_false _ g) Eg). cbn [negb].
    split; [reflexivity|]. split; [exact Hsame|discriminate].
Qed.

Lemma refine_localIDs_witness :
  wellFormed mesh1 /\
  exists b M', refine noLocalIDs 4 mesh1 13 = Some (b, M') /\
    (forall x, is_Some (globalIDs mesh1 !! x) -> is_Some (globalIDs M' !! x) ->
       get M' x = get mesh1 x) /\
    (b = true -> forall s, (s < 8)%nat ->
       is_Some (globalIDs M' !! nth s (getChildren mesh1 13) 0) /\
       get M' (nth s (getChildren mesh1 13) 0)
       = refineLocalID noLocalIDs mesh1 (globalIDs mesh1) 13 s).
Proof.
  split; [exact mesh1_wellFormed|].
  refine (refine_localIDs noLocalIDs mesh1 13 4 mesh1_wellFormed _). vm_compute. lia.
Defined.

Lemma eraseAll_old ids : forall (m m' : gmap Z Z) x v,
  eraseAll ids m = Some m' -> m' !! x = Some v -> m !! x = Some v.
Proof.
  induction ids as [|s ids IH]; intros m m' x v He Hx; cbn [eraseAll] in He.
  - injection He as <-. exact Hx.
  - destruct (exists_block m s); [|discriminate].
    pose proof (IH _ _ x v He Hx) as H. apply lookup_delete_Some in H. apply H.
Qed.

(** [coarsen] and the LocalIDs.  On a well-formed mesh every block that is in
    the table before and after the call has the LocalID it had, and after a
    successful call the parent is in the table with the LocalID
    [coarsenLocalID] names: the callback's when one is registered. *)
Theorem coarsen_localIDs indeterminate M c :
  wellFormed M ->
  exists b M', coarsen indeterminate M c = Returned b M' /\
    (forall x, is_Some (globalIDs M !! x) -> is_Some (globalIDs M' !! x) ->
       get M' x = get M x) /\
    (b = true ->
       is_Some (globalIDs M' !! getParent M c) /\
       get M' (getParent M c) = coarsenLocalID indeterminate M c).
Proof.
  intros (HF & Hval & Hleaf & Hbal). unfold coarsen.
  assert (Hfalse : exists b M', Returned false M = Returned b M' /\
            (forall x, is_Some (globalIDs M !! x) -> is_Some (globalIDs M' !! x) ->
               get M' x = get M x) /\
            (b = true ->
               is_Some (globalIDs M' !! getParent M c) /\
               get M' (getParent M c) = coarsenLocalID indeterminate M c)).
  { exists false, M. split; [reflexivity|]. split; [reflexivity|discriminate]. }
  destruct (exists_block (globalIDs M) c) eqn:Ec; cbn [negb]; [|exact Hfalse].
  apply exists_block_true in Ec. pose proof (Hval c Ec) as Hvc.
  pose proof (validBlock_level M HF c Hvc) as Hlv.
  destruct (getIndices M c) as [[[l i] j] k] eqn:E.
  assert (El : levelOf M c = l) by (unfold levelOf; rewrite E; reflexivity).
  destruct (Z.eqb_spec l 0) as [|Hl0]; [exact Hfalse|].
  assert (Hl : 0 < levelOf M c) by lia.
  destruct (existsb _ (getSiblingNeighbors M c)) eqn:En; [exact Hfalse|].
  destruct (existsb _ (getSiblings M c)) eqn:Es; [exact Hfalse|].
  clear Hfalse.
  destruct (parent_spec M HF c Hvc Hl) as [HvP HlP].
  assert (HlP' : levelOf M (getParent M c) < refLevelMaxAllowed M) by lia.
  assert (Esib : getSiblings M c = getChildren M (getParent M c)).
  { apply (siblings_of_child M HF _ c HvP HlP'). apply (child_of_parent M HF c Hvc Hl). }
  assert (Hsib : forall s, In s (getSiblings M c) -> is_Some (globalIDs M !! s)).
  { intros s Hs. apply exists_block_true, negb_false_iff.
    apply (existsb_false_inv _ _ Es s Hs). }
  destruct (eraseAll_NoDup (getSiblings M c) (globalIDs M)) as (m2 & He & Hm2).
  { rewrite Esib. apply (children_NoDup M HF _ HvP HlP'). }
  { exact Hsib. }
  rewrite He.
  assert (HP : globalIDs M !! getParent M c = None).
  { apply not_present. intros HPin. apply (Hleaf _ c HPin Ec).
    apply (ancestor_parent M HF c Hvc Hl). }
  assert (HP2 : m2 !! getParent M c = None).
  { apply not_present. intros H. apply Hm2 in H. destruct H as [H _].
    apply (proj1 (not_present _ _) HP H). }
  eexists true, _. split; [reflexivity|]. cbn [globalIDs setGlobalIDs].
  unfold get. cbn [globalIDs setGlobalIDs].
  assert (Eins : forall l', map_insert (getParent M c) l' m2 = <[getParent M c := l']> m2).
  { intros l'. unfold map_insert. unfold GlobalID, LocalID in *. rewrite HP2. reflexivity. }
  rewrite Eins. split.
  - intros x [v Hx] [w Hx'].
    destruct (Z.eq_dec x (getParent M c)) as [->|Hne].
    + unfold GlobalID, LocalID in *. rewrite HP in Hx. discriminate.
    + rewrite lookup_insert_ne in * by congruence.
      pose proof (eraseAll_old _ _ _ x w He Hx') as H.
      unfold GlobalID, LocalID in *. rewrite Hx', H. reflexivity.
  - intros _. unfold coarsenLocalID, get. unfold GlobalID, LocalID in *.
    rewrite !lookup_insert_eq. split; [eauto|].
    destruct (callbackCoarsenBlock M); reflexivity.
Qed.

Lemma coarsen_localIDs_witness :
  wellFormed mesh1 /\
  exists b M', coarsen noLocalIDs mesh1 9 = Returned b M' /\
    (forall x, is_Some (globalIDs mesh1 !! x) -> is_Some (globalIDs M' !! x) ->
       get M' x = get mesh1 x) /\
    (b = true ->
       is_Some (globalIDs M' !! getParent mesh1 9) /\
       get M' (getParent mesh1 9) = coarsenLocalID noLocalIDs mesh1 9).
Proof.
  split; [exact mesh1_wellFormed|].
  exact (coarsen_localIDs noLocalIDs mesh1 9 mesh1_wellFormed).
Defined.

(** The octet at the block's own indices one level down is the list of its
    children exactly for the block with indices (0,0,0). *)
Lemma octet_children_iff M g :
  fits M -> validBlock M g -> levelOf M g < refLevelMaxAllowed M ->
  let '(l, i, j, k) := getIndices M g in
  octet M (wrap32 (l + 1)) i j k = getChildren M g <-> (i = 0 /\ j = 0 /\ k = 0).
Proof.
  intros HF Hg Hl.
  destruct (validBlock_inv M g Hg) as (l & i & j & k & Hv & -> & E).
  rewrite (levelOf_getGlobalID M HF l i j k Hv) in Hl. rewrite E.
  rewrite <- (getChildren_octet M HF _ l i j k E Hg Hl).
  pose proof (validAddr_bounds M HF l i j k Hv) as (Hi & Hj & Hk & _).
  split.
  - intros Heq. unfold octet in Heq. injection Heq as H0 _.
    assert (Hv1 : validAddr M (l + 1) (2 * i) (2 * j) (2 * k)).
    { apply (validAddr_child M l i j k _ _ _ Hv Hl), childAddrs_spec. lia. }
    assert (Hv0 : validAddr M (l + 1) i j k).
    { destruct Hv as (Hlv & Hvi & Hvj & Hvk). unfold validAddr.
      rewrite Z.pow_add_r, Z.pow_1_r by lia. set (P := 2 ^ l) in *.
      assert (0 < P) by (apply Z.pow_pos_nonneg; lia). repeat split; try lia; nia. }
    pose proof (validAddr_bounds M HF _ _ _ _ Hv1) as (Hi1 & Hj1 & Hk1 & _).
    destruct Hv as (Hlv & _). pose proof (level_small M HF (l + 1) ltac:(lia)).
    rewrite (wrap32_small (l + 1)) in H0 by lia.
    rewrite (wrap32_small (i * 2)), (wrap32_small (j * 2)), (wrap32_small (k * 2)) in H0 by lia.
    replace (i * 2) with (2 * i) in H0 by lia. replace (j * 2) with (2 * j) in H0 by lia.
    replace (k * 2) with (2 * k) in H0 by lia.
    pose proof (getGlobalID_inj M HF _ _ _ _ _ _ _ _ Hv0 Hv1 H0) as Hinj.
    inversion Hinj. lia.
  - intros (-> & -> & ->). reflexivity.
Qed.

(** The ids [refine] hands to the callback.  On a well-formed mesh with a
    refine callback [cb], [refine] of a block of the table below the maximum
    level returns [true], and child number [s] has the LocalID [cb] wrote to
    [childrenLocalIDs[s]] when called with the block, its LocalID and
    [handed], the array [childrenGlobalIDs]: it is filled before [i], [j],
    [k] are doubled, and is the list of the children that are inserted
    exactly for the block with indices (0,0,0). *)
Theorem refine_callback_ids indeterminate M g cb fuel :
  wellFormed M -> (Z.to_nat (refLevelMaxAllowed M) < fuel)%nat ->
  callbackRefineBlock M = Some cb ->
  is_Some (globalIDs M !! g) -> levelOf M g < refLevelMaxAllowed M ->
  let '(l, i, j, k) := getIndices M g in
  let handed := octet M (l + 1) i j k in
  exists M', refine indeterminate fuel M g = Some (true, M') /\
    (forall s, (s < 8)%nat ->
       get M' (nth s (getChildren M g) 0)
       = nth s (cb g (get M g) handed) (indeterminate s)) /\
    (handed = getChildren M g <-> i = 0 /\ j = 0 /\ k = 0).
Proof.
  intros (HF & Hval & Hleaf & Hbal) Hfuel Hcb Hg Hlv.
  pose proof (Hval g Hg) as Hvg.
  pose proof (validBlock_level M HF g Hvg) as Hrange.
  pose proof (octet_children_iff M g HF Hvg Hlv) as Hiff.
  destruct fuel as [|n]; [lia|].
  destruct (refineIDs_closure indeterminate M HF (globalIDs M) Hval Hleaf Hbal (S n)
              (globalIDs M) g (conj Hval Hleaf) (fun x H => or_introl H) Hg Hg
              ltac:(lia) ltac:(lia))
    as (m' & Hr & _).
  destruct (refineIDs_localIDs indeterminate M HF (globalIDs M) Hval Hleaf Hbal (S n)
              (globalIDs M) g m' (conj Hval Hleaf) (fun x H => or_introl H) Hg Hg
              ltac:(lia) ltac:(lia) (fun x v H => or_introl H) Hr)
    as (_ & _ & Hch).
  unfold refineLocalID in Hch. rewrite Hcb in Hch.
  unfold levelOf in Hlv, Hrange.
  destruct (getIndices M g) as [[[l i] j] k] eqn:E. cbv zeta.
  pose proof (level_small M HF (l + 1) ltac:(lia)) as Hs.
  rewrite (wrap32_small (l + 1)) in Hch, Hiff by lia.
  exists (setGlobalIDs M m'). unfold refine. rewrite Hr.
  split; [reflexivity|]. split; [|exact Hiff].
  intros s Hs8. unfold get. cbn [globalIDs setGlobalIDs].
  pose proof (Hch s Hs8) as H. unfold GlobalID, LocalID in *. rewrite H.
  destruct Hg as [v Hv]. rewrite Hv. reflexivity.
Qed.

Lemma refine_callback_ids_witness :
  wellFormed echoMesh /\
  let '(l, i, j, k) := getIndices echoMesh 2 in
  let handed := octet echoMesh (l + 1) i j k in
  exists M', refine noLocalIDs 4 echoMesh 2 = Some (true, M') /\
    (forall s, (s < 8)%nat ->
       get M' (nth s (getChildren echoMesh 2) 0)
       = nth s ((fun (_ : GlobalID) (_ : LocalID) (ids : list GlobalID) => ids)
                  2 (get echoMesh 2) handed) (noLocalIDs s)) /\
    (handed = getChildren echoMesh 2 <-> i = 0 /\ j = 0 /\ k = 0).
Proof.
  assert (HW : wellFormed echoMesh) by (apply wellFormedb_sound; vm_compute; reflexivity).
  split; [exact HW|].
  refine (refine_callback_ids noLocalIDs echoMesh 2 (fun _ _ ids => ids) 4 HW _ eq_refl _ _).
  - vm_compute. lia.
  - apply exists_block_true. vm_compute. reflexivity.
  - vm_compute. reflexivity.
Defined.

(** ** Neighbours, children and parent *)

(** [getNeighbors] clips at the boundary of the grid: it returns exactly the
    ids of the addresses of the block's level that lie within the grid, one
    step or none away along each axis, the block itself left out. *)
Theorem getNeighbors_clipped M l i j k n :
  fits M -> validAddr M l i j k ->
  (In n (getNeighbors M (getGlobalID M l i j k)) <->
   exists di dj dk, (-1 <= di <= 1) /\ (-1 <= dj <= 1) /\ (-1 <= dk <= 1) /\
     ~ (di = 0 /\ dj = 0 /\ dk = 0) /\
     validAddr M l (i + di) (j + dj) (k + dk) /\
     n = getGlobalID M l (i + di) (j + dj) (k + dk)).
Proof.
  intros HF Hv. rewrite (in_getNeighbors M HF l i j k n Hv).
  split; intros (di & dj & dk & Hdi & Hdj & Hdk & H); exists di, dj, dk.
  - apply in_offs3 in Hdi, Hdj, Hdk. repeat split; try lia; apply H.
  - repeat split; try (apply in_offs3; lia); apply H.
Qed.

Lemma getNeighbors_clipped_witness :
  validAddr mesh1 2 0 0 0 /\ In 14 (getNeighbors mesh1 (getGlobalID mesh1 2 0 0 0)).
Proof.
  assert (HF : fits mesh1) by (apply fitsb_sound; vm_compute; reflexivity).
  assert (Hv : validAddr mesh1 2 0 0 0)
    by (repeat split; vm_compute; first [reflexivity | discriminate]).
  split; [exact Hv|].
  refine (proj2 (getNeighbors_clipped mesh1 2 0 0 0 14 HF Hv) _).
  exists 1, 1, 0. repeat split; try lia; vm_compute; first [reflexivity | discriminate].
Defined.

(** The neighbour relation of [getNeighbors] is symmetric on the blocks of
    the grid. *)
Theorem getNeighbors_symmetric M a b :
  fits M -> validBlock M a -> In b (getNeighbors M a) -> In a (getNeighbors M b).
Proof.
  intros HF Ha Hb.
  destruct (validBlock_inv M a Ha) as (l & i & j & k & Hv & -> & _).
  apply (in_getNeighbors M HF l i j k b Hv) in Hb.
  destruct Hb as (di & dj & dk & Hdi & Hdj & Hdk & Hnz & Hvb & ->).
  apply (in_getNeighbors M HF _ _ _ _ _ Hvb).
  apply in_offs3 in Hdi, Hdj, Hdk.
  exists (- di), (- dj), (- dk).
  replace (i + di + - di) with i by lia. replace (j + dj + - dj) with j by lia.
  replace (k + dk + - dk) with k by lia.
  split; [apply in_offs3; lia|]. split; [apply in_offs3; lia|].
  split; [apply in_offs3; lia|]. split; [lia|]. split; [exact Hv|reflexivity].
Qed.

Lemma getNeighbors_symmetric_witness :
  In 14 (getNeighbors mesh1 9) /\ In 9 (getNeighbors mesh1 14).
Proof.
  assert (H : In 14 (getNeighbors mesh1 9)) by (vm_compute; tauto).
  split; [exact H|].
  refine (getNeighbors_symmetric mesh1 9 14 _ _ H).
  - apply fitsb_sound. vm_compute. reflexivity.
  - apply validBlockb_sound. vm_compute. reflexivity.
Defined.

(** Children and parent.  A block of the grid below the maximum level has
    eight distinct children; each is a block of the grid one level down
    whose parent is the block and whose siblings are the eight children. *)
Theorem children_round_trip M g :
  fits M -> validBlock M g -> levelOf M g < refLevelMaxAllowed M ->
  length (getChildren M g) = 8%nat /\ List.NoDup (getChildren M g) /\
  forall c, In c (getChildren M g) ->
    validBlock M c /\ levelOf M c = levelOf M g + 1 /\ getParent M c = g
    /\ getSiblings M c = getChildren M g.
Proof.
  intros HF Hg Hl. split; [apply (children_length M HF g Hg Hl)|].
  split; [apply (children_NoDup M HF g Hg Hl)|].
  intros c Hc. destruct (children_spec M HF g c Hg Hl Hc) as (Hvc & Lc & Pc).
  split; [exact Hvc|]. split; [exact Lc|]. split; [exact Pc|].
  apply (siblings_of_child M HF g c Hg Hl Hc).
Qed.

Lemma children_round_trip_witness :
  validBlock mesh1 2 /\
  length (getChildren mesh1 2) = 8%nat /\ List.NoDup (getChildren mesh1 2) /\
  forall c, In c (getChildren mesh1 2) ->
    validBlock mesh1 c /\ levelOf mesh1 c = levelOf mesh1 2 + 1 /\ getParent mesh1 c = 2
    /\ getSiblings mesh1 c = getChildren mesh1 2.
Proof.
  assert (Hg : validBlock mesh1 2) by (apply validBlockb_sound; vm_compute; reflexivity).
  split; [exact Hg|].
  refine (children_round_trip mesh1 2 _ Hg _).
  - apply fitsb_sound. vm_compute. reflexivity.
  - vm_compute. reflexivity.
Defined.

(** A block of the grid above level 0 is one of the children of its parent,
    which is a block of the grid one level up; a block of level 0 is its own
    parent, and a block of the maximum level has no children. *)
Theorem parent_round_trip M b :
  fits M -> validBlock M b ->
  (0 < levelOf M b ->
     validBlock M (getParent M b) /\ levelOf M (getParent M b) = levelOf M b - 1
     /\ In b (getChildren M (getParent M b)) /\ In b (getSiblings M b))
  /\ (levelOf M b = 0 -> getParent M b = b)
  /\ (levelOf M b = refLevelMaxAllowed M -> getChildren M b = []).
Proof.
  intros HF Hb. split; [|split].
  - intros Hl. destruct (parent_spec M HF b Hb Hl) as [HvP HlP].
    pose proof (validBlock_level M HF b Hb) as Hlv.
    pose proof (child_of_parent M HF b Hb Hl) as Hin.
    split; [exact HvP|]. split; [exact HlP|]. split; [exact Hin|].
    rewrite (siblings_of_child M HF _ b HvP ltac:(lia) Hin). exact Hin.
  - apply (parent_level0 M HF b Hb).
  - intros Hmax. unfold getChildren. unfold levelOf in Hmax.
    destruct (getIndices M b) as [[[l i] j] k]. subst l.
    pose proof (max_level_small M HF) as [H0 H1].
    rewrite wrap32_small by lia.
    destruct (Z.ltb_spec (refLevelMaxAllowed M) (refLevelMaxAllowed M + 1)); [reflexivity|lia].
Qed.

Lemma parent_round_trip_witness :
  validBlock mesh1 11 /\ In 11 (getChildren mesh1 (getParent mesh1 11)).
Proof.
  assert (HF : fits mesh1) by (apply fitsb_sound; vm_compute; reflexivity).
  assert (Hb : validBlock mesh1 11) by (apply validBlockb_sound; vm_compute; reflexivity).
  split; [exact Hb|].
  refine (proj1 (proj2 (proj2 (proj1 (parent_round_trip mesh1 11 HF Hb) _)))).
  vm_compute. reflexivity.
Defined.

(** Around the octet of a block [c] below level 0, [getSiblingNeighbors]
    misses nothing: every block of the grid on the level of [c] that touches
    the parent of [c] is in the list it returns or is one of the eight
    [getSiblings] gives. *)
Theorem getSiblingNeighbors_complete M c n :
  fits M -> validBlock M c -> 0 < levelOf M c ->
  validBlock M n -> levelOf M n = levelOf M c -> touching M n (getParent M c) ->
  In n (getSiblingNeighbors M c) \/ In n (getSiblings M c).
Proof.
  intros HF Hc Hl Hn Hln Ht.
  destruct (parent_spec M HF c Hc Hl) as [HvP HlP].
  pose proof (validBlock_level M HF c Hc) as Hlv.
  rewrite (siblings_of_child M HF (getParent M c) c HvP ltac:(lia)
             (child_of_parent M HF c Hc Hl)).
  exact (sibling_neighbor_complete M HF c n Hc Hl Hn Hln Ht).
Qed.

Lemma getSiblingNeighbors_complete_witness :
  In 11 (getSiblingNeighbors mesh1 9) \/ In 11 (getSiblings mesh1 9).
Proof.
  assert (HF : fits mesh1) by (apply fitsb_sound; vm_compute; reflexivity).
  assert (Hc : validBlock mesh1 9) by (apply validBlockb_sound; vm_compute; reflexivity).
  assert (Hn : validBlock mesh1 11) by (apply validBlockb_sound; vm_compute; reflexivity).
  refine (getSiblingNeighbors_complete mesh1 9 11 HF Hc _ Hn _ _).
  - vm_compute. reflexivity.
  - vm_compute. reflexivity.
  - vm_compute. repeat split; discriminate.
Defined.

(** ** The number of blocks *)

Lemma map_insert_fresh (k : Z) (l : Z) (m : gmap Z Z) :
  m !! k = None -> map_insert k l m = <[k := l]> m.
Proof. intros H. unfold map_insert. unfold GlobalID, LocalID in *. rewrite H. reflexivity. Qed.

Lemma size_map_insert_new (k : Z) l (m : gmap Z Z) :
  m !! k = None -> base.size (map_insert k l m) = S (base.size m).
Proof. intros H. rewrite (map_insert_fresh k l m H). apply map_size_insert_None, H. Qed.

Lemma size_insertPairs (f : nat -> Z) (ps : list (nat * Z)) : forall (m : gmap Z Z),
  List.NoDup (map snd ps) -> (forall p, In p ps -> m !! snd p = None) ->
  base.size (fold_left (fun acc p => map_insert (snd p) (f (fst p)) acc) ps m)
  = (length ps + base.size m)%nat.
Proof.
  unfold GlobalID, LocalID in *.
  induction ps as [|p0 ps IH]; intros m Hnd Hnone; [reflexivity|].
  cbn [fold_left length]. cbn [map] in Hnd. inversion Hnd as [|? ? Hnot Hnd']; subst.
  pose proof (Hnone p0 (or_introl eq_refl)) as E.
  rewrite IH; [rewrite size_map_insert_new by exact E; lia|exact Hnd'|].
  intros q Hq. rewrite (map_insert_fresh _ _ _ E). rewrite lookup_insert_ne.
  - apply Hnone. right; exact Hq.
  - intros Eq. apply Hnot. rewrite Eq. apply in_map, Hq.
Qed.

Lemma size_insertAll ids f (m : gmap Z Z) :
  List.NoDup ids -> (forall x, In x ids -> m !! x = None) ->
  base.size (insertAll ids f m) = (length ids + base.size m)%nat.
Proof.
  intros Hnd Hnone. unfold insertAll. rewrite size_insertPairs.
  - rewrite length_combine, length_seq. lia.
  - rewrite map_snd_combine_seq. exact Hnd.
  - intros p Hp. apply Hnone. rewrite <- (map_snd_combine_seq ids 0). apply in_map, Hp.
Qed.

Lemma size_eraseAll ids : forall (m m' : gmap Z Z),
  eraseAll ids m = Some m' -> (base.size m' + length ids = base.size m)%nat.
Proof.
  induction ids as [|s ids IH]; intros m m' He; cbn [eraseAll] in He.
  - injection He as <-. cbn. lia.
  - destruct (exists_block m s) eqn:Ex; [|discriminate].
    apply exists_block_true in Ex.
    pose proof (IH _ _ He) as H. cbn [length].
    pose proof (map_size_delete_Some s m Ex) as Hd.
    unfold GlobalID, LocalID in *. rewrite Hd in H.
    destruct (base.size m) eqn:E; [|cbn [Init.Nat.pred] in H; lia].
    apply map_size_empty_inv in E. subst m.
    destruct Ex as [v Ex]. rewrite lookup_empty in Ex. discriminate.
Qed.

Section Sizes.
Variable indeterminate : nat -> LocalID.
Variable M : AmrMesh.
Hypothesis HF : fits M.

(** The first step of [refine]: the block leaves, its eight children
    enter. *)
Lemma size_step m g f : validTable M m /\ leafSet M m -> is_Some (m !! g) ->
  levelOf M g < refLevelMaxAllowed M ->
  base.size (insertAll (getChildren M g) f (delete g m)) = (base.size m + 7)%nat.
Proof.
  intros Hwf Hg' Hl.
  pose proof (proj1 Hwf g Hg') as Hvg.
  rewrite size_insertAll.
  - rewrite (children_length M HF g Hvg Hl).
    pose proof (map_size_delete_Some g m Hg') as Hd.
    unfold GlobalID, LocalID in *. rewrite Hd.
    destruct (base.size m) eqn:E; [|cbn [Init.Nat.pred]; lia].
    apply map_size_empty_inv in E. subst m.
    destruct Hg' as [v Hg]. rewrite lookup_empty in Hg. discriminate.
  - apply (children_NoDup M HF g Hvg Hl).
  - intros x Hx. apply not_present. rewrite delete_present. intros [_ Hxm].
    destruct (children_spec M HF g x Hvg Hl Hx) as (Hvx & Lx & Px).
    pose proof (validBlock_level M HF g Hvg).
    apply (proj2 Hwf g x Hg' Hxm). rewrite <- Px. apply (ancestor_parent M HF x Hvx). lia.
Qed.

Lemma size_loop n l :
  (forall m g m', validTable M m /\ leafSet M m -> is_Some (m !! g) ->
     levelOf M g < refLevelMaxAllowed M -> (Z.to_nat (levelOf M g) < n)%nat ->
     refineIDs indeterminate n M m g = Some (true, m') ->
     (base.size m + 7 <= base.size m')%nat) ->
  0 <= l <= refLevelMaxAllowed M -> (Z.to_nat l <= n)%nat ->
  forall nbrs m_s m_e,
    (forall nb, In nb nbrs -> validBlock M nb /\ levelOf M nb = l) ->
    validTable M m_s /\ leafSet M m_s ->
    fold_left (balanceStep (refineIDs indeterminate n M) M) nbrs (Some m_s) = Some m_e ->
    (base.size m_s <= base.size m_e)%nat
    /\ ((forall nb, In nb nbrs -> getParent M nb <> nb -> m_s !! getParent M nb = None) ->
        m_e = m_s).
Proof.
  intros IHn Hl Hfuel.
  induction nbrs as [|nb rest IH]; intros m_s m_e Hnbrs Hwf Hfold.
  - cbn [fold_left] in Hfold. injection Hfold as <-. split; [lia|reflexivity].
  - cbn [fold_left] in Hfold.
    destruct (Hnbrs nb (or_introl eq_refl)) as [Hvnb Hlnb].
    assert (Hrest : forall x, In x rest -> validBlock M x /\ levelOf M x = l)
      by (intros x Hx; apply Hnbrs; right; exact Hx).
    unfold balanceStep at 2 in Hfold.
    destruct (Z.eqb_spec (getParent M nb) nb) as [Ep|Ep].
    { destruct (IH m_s m_e Hrest Hwf Hfold) as [H1 H2]. split; [exact H1|].
      intros Hidle. apply H2. intros x Hx. apply Hidle. right; exact Hx. }
    destruct (exists_block m_s (getParent M nb)) eqn:Ex.
    2:{ destruct (IH m_s m_e Hrest Hwf Hfold) as [H1 H2]. split; [exact H1|].
        intros Hidle. apply H2. intros x Hx. apply Hidle. right; exact Hx. }
    apply exists_block_true in Ex.
    assert (Hl0 : 0 < l).
    { destruct (Z.eq_dec l 0) as [->|]; [|lia].
      exfalso. apply Ep. apply (parent_level0 M HF nb Hvnb Hlnb). }
    destruct (parent_spec M HF nb Hvnb ltac:(lia)) as [HvB HlB].
    destruct (refineIDs_spec indeterminate M HF n m_s (getParent M nb) Hwf Ex ltac:(lia) ltac:(lia))
      as (m_k & Hr & Hwfk & _).
    rewrite Hr in Hfold.
    pose proof (IHn m_s _ m_k Hwf Ex ltac:(lia) ltac:(lia) Hr) as Hk.
    destruct (IH m_k m_e Hrest Hwfk Hfold) as [H1 _].
    split; [lia|]. intros Hidle. exfalso.
    pose proof (Hidle nb (or_introl eq_refl) Ep) as Hn.
    apply (proj1 (not_present _ _) Hn Ex).
Qed.

Lemma refineIDs_size n : forall m g m',
  validTable M m /\ leafSet M m -> is_Some (m !! g) ->
  levelOf M g < refLevelMaxAllowed M -> (Z.to_nat (levelOf M g) < n)%nat ->
  refineIDs indeterminate n M m g = Some (true, m') ->
  (base.size m + 7 <= base.size m')%nat
  /\ ((forall nb, In nb (getNeighbors M g) -> getParent M nb <> nb ->
         m !! getParent M nb = None) ->
      base.size m' = (base.size m + 7)%nat).
Proof.
  induction n as [|n IHn]; intros m g m' Hwf Hg Hl Hfuel Hr; [lia|].
  pose proof (proj1 Hwf g Hg) as Hvg.
  pose proof (validBlock_level M HF g Hvg) as Hlv.
  destruct (getIndices M g) as [[[l i] j] k] eqn:E.
  assert (El : levelOf M g = l) by (unfold levelOf; rewrite E; reflexivity).
  rewrite (refineIDs_step indeterminate M n m g l i j k E (proj2 (exists_block_true m g) Hg)
             (proj2 (Z.eqb_neq l (refLevelMaxAllowed M)) ltac:(lia))) in Hr.
  rewrite (getChildren_octet M HF g l i j k E Hvg ltac:(lia)) in Hr.
  set (f := refineLocalID indeterminate M m g) in *.
  pose proof (size_step m g f Hwf Hg Hl) as Hs1.
  set (m1 := insertAll (getChildren M g) f (delete g m)) in *.
  assert (Hwf1 : validTable M m1 /\ leafSet M m1) by (apply step_WF; assumption).
  destruct (fold_left _ (getNeighbors M g) (Some m1)) as [m_e|] eqn:Hfold; [|discriminate].
  injection Hr as <-.
  destruct (size_loop n l (fun m g m' a b c d e => proj1 (IHn m g m' a b c d e))
              ltac:(lia) ltac:(lia) (getNeighbors M g) m1 m_e
              (fun nb Hnb => match neighbors_spec M HF g nb Hvg Hnb with
                             | conj a b => conj a (eq_trans b El) end) Hwf1 Hfold)
    as [Hle Hidle].
  split; [lia|]. intros Hnone. rewrite Hidle; [exact Hs1|].
  intros nb Hnb Hp. apply not_present. intros Hin.
  assert (Hm1 : is_Some (m1 !! getParent M nb) ->
                In (getParent M nb) (getChildren M g) \/ is_Some (m !! getParent M nb)).
  { unfold m1. rewrite insertAll_present, delete_present. tauto. }
  destruct (Hm1 Hin) as [Hc|Hm].
  - destruct (neighbors_spec M HF g nb Hvg Hnb) as [Hvnb Hlnb].
    destruct (children_spec M HF g _ Hvg Hl Hc) as (_ & Lc & _).
    destruct (Z.eq_dec (levelOf M nb) 0) as [E0|E0].
    + apply Hp. apply (parent_level0 M HF nb Hvnb E0).
    + pose proof (validBlock_level M HF nb Hvnb).
      destruct (parent_spec M HF nb Hvnb ltac:(lia)) as [_ HlB]. lia.
  - apply (proj1 (not_present _ _) (Hnone nb Hnb Hp) Hm).
Qed.
End Sizes.

(** [size] after [refine]: unchanged when the call returns [false], at
    least seven more when it returns [true], and exactly seven more when no
    parent of a neighbour is in the table (no balancing). *)
Theorem refine_size indeterminate M g fuel :
  wellFormed M -> (Z.to_nat (refLevelMaxAllowed M) < fuel)%nat ->
  exists b M', refine indeterminate fuel M g = Some (b, M') /\
    (b = false -> size M' = size M) /\
    (b = true -> (size M + 7 <= size M')%nat /\
       ((forall nb, In nb (getNeighbors M g) -> getParent M nb <> nb ->
           globalIDs M !! getParent M nb = None) ->
        size M' = (size M + 7)%nat)).
Proof.
  intros (HF & Hval & Hleaf & Hbal) Hfuel. unfold refine, size.
  destruct fuel as [|n]; [lia|].
  destruct (globalIDs M !! g) as [lid|] eqn:Eg.
  - assert (Hg : is_Some (globalIDs M !! g)) by (rewrite Eg; eauto).
    pose proof (Hval g Hg) as Hvg.
    pose proof (validBlock_level M HF g Hvg) as Hlv.
    destruct (Z.eq_dec (levelOf M g) (refLevelMaxAllowed M)) as [Emax|Emax].
    + exists false, (setGlobalIDs M (globalIDs M)). cbn [refineIDs].
      rewrite (proj2 (exists_block_true _ g) Hg). cbn [negb].
      unfold levelOf in Emax. destruct (getIndices M g) as [[[l i] j] k].
      rewrite (proj2 (Z.eqb_eq l _) Emax).
      split; [reflexivity|]. split; [reflexivity|discriminate].
    + destruct (refineIDs_spec indeterminate M HF (S n) (globalIDs M) g (conj Hval Hleaf) Hg
                  ltac:(lia) ltac:(lia)) as (m' & Hr & _).
      destruct (refineIDs_size indeterminate M HF (S n) (globalIDs M) g m' (conj Hval Hleaf) Hg
                  ltac:(lia) ltac:(lia) Hr) as [Hle Hidle].
      rewrite Hr. exists true, (setGlobalIDs M m'). split; [reflexivity|].
      cbn [globalIDs setGlobalIDs]. split; [discriminate|]. intros _. split; assumption.
  - exists false, (setGlobalIDs M (globalIDs M)). cbn [refineIDs].
    rewrite (proj2 (exists_block_false _ g) Eg). cbn [negb].
    split; [reflexivity|]. split; [reflexivity|discriminate].
Qed.

Lemma refine_size_witness :
  wellFormed mesh1 /\
  exists b M', refine noLocalIDs 4 mesh1 13 = Some (b, M') /\
    (b = false -> size M' = size mesh1) /\
    (b = true -> (size mesh1 + 7 <= size M')%nat /\
       ((forall nb, In nb (getNeighbors mesh1 13) -> getParent mesh1 nb <> nb ->
           globalIDs mesh1 !! getParent mesh1 nb = None) ->
        size M' = (size mesh1 + 7)%nat)).
Proof.
  split; [exact mesh1_wellFormed|].
  apply (refine_size noLocalIDs mesh1 13 4 mesh1_wellFormed). vm_compute. lia.
Defined.

(** [size] after [coarsen]: seven less when the call returns [true]; the
    mesh is the same when it returns [false]. *)
Theorem coarsen_size indeterminate M c :
  wellFormed M ->
  exists b M', coarsen indeterminate M c = Returned b M' /\
    (b = false -> M' = M) /\
    (b = true -> (size M' + 7 = size M)%nat).
Proof.
  intros (HF & Hval & Hleaf & Hbal). unfold coarsen.
  assert (Hfalse : exists b M', Returned false M = Returned b M' /\
            (b = false -> M' = M) /\ (b = true -> (size M' + 7 = size M)%nat)).
  { exists false, M. split; [reflexivity|]. split; [reflexivity|discriminate]. }
  destruct (exists_block (globalIDs M) c) eqn:Ec; cbn [negb]; [|exact Hfalse].
  apply exists_block_true in Ec. pose proof (Hval c Ec) as Hvc.
  pose proof (validBlock_level M HF c Hvc) as Hlv.
  destruct (getIndices M c) as [[[l i] j] k] eqn:E.
  assert (El : levelOf M c = l) by (unfold levelOf; rewrite E; reflexivity).
  destruct (Z.eqb_spec l 0) as [|Hl0]; [exact Hfalse|].
  assert (Hl : 0 < levelOf M c) by lia.
  destruct (existsb _ (getSiblingNeighbors M c)) eqn:En; [exact Hfalse|].
  destruct (existsb _ (getSiblings M c)) eqn:Es; [exact Hfalse|].
  clear Hfalse.
  destruct (parent_spec M HF c Hvc Hl) as [HvP HlP].
  assert (HlP' : levelOf M (getParent M c) < refLevelMaxAllowed M) by lia.
  assert (Esib : getSiblings M c = getChildren M (getParent M c)).
  { apply (siblings_of_child M HF _ c HvP HlP'). apply (child_of_parent M HF c Hvc Hl). }
  assert (Hsib : forall s, In s (getSiblings M c) -> is_Some (globalIDs M !! s)).
  { intros s Hs. apply exists_block_true, negb_false_iff.
    apply (existsb_false_inv _ _ Es s Hs). }
  destruct (eraseAll_NoDup (getSiblings M c) (globalIDs M)) as (m2 & He & Hm2).
  { rewrite Esib. apply (children_NoDup M HF _ HvP HlP'). }
  { exact Hsib. }
  rewrite He.
  assert (HP2 : m2 !! getParent M c = None).
  { apply not_present. intros H. apply Hm2 in H. destruct H as [H _].
    apply (Hleaf _ c H Ec). apply (ancestor_parent M HF c Hvc Hl). }
  eexists true, _. split; [reflexivity|]. split; [discriminate|]. intros _.
  unfold size. cbn [globalIDs setGlobalIDs].
  rewrite (size_map_insert_new _ _ _ HP2).
  pose proof (size_eraseAll _ _ _ He) as Hs.
  rewrite Esib, (children_length M HF _ HvP HlP') in Hs. lia.
Qed.

Lemma coarsen_size_witness :
  wellFormed mesh1 /\
  exists b M', coarsen noLocalIDs mesh1 9 = Returned b M' /\
    (b = false -> M' = mesh1) /\ (b = true -> (size M' + 7 = size mesh1)%nat).
Proof.
  split; [exact mesh1_wellFormed|].
  apply (coarsen_size noLocalIDs mesh1 9 mesh1_wellFormed).
Defined.

(** [initialize] is done once: after a call that returned [true] every
    further call, whatever its arguments, returns [true] and leaves the mesh
    as it is. *)
Theorem initialize_once skip M xmin xmax ymin ymax zmin zmax refLevel M' :
  initialize skip M xmin xmax ymin ymax zmin zmax refLevel = (true, M') ->
  initialized M' = true /\
  forall skip' xmin' xmax' ymin' ymax' zmin' zmax' refLevel',
    initialize skip' M' xmin' xmax' ymin' ymax' zmin' zmax' refLevel' = (true, M').
Proof.
  intros H.
  assert (Hi : initialized M' = true).
  { unfold initialize in H. destruct (initialized M) eqn:E.
    - injection H as <-. exact E.
    - destruct (refLevelMaxAllowed M <? refLevel); [discriminate|].
      destruct (fold_left _ _ _) as [n m]. injection H as <-. reflexivity. }
  split; [exact Hi|]. intros. unfold initialize. rewrite Hi. reflexivity.
Qed.

Lemma initialize_once_witness :
  initialized (unitCube 1 1 1 3 1) = true /\
  forall skip' xmin' xmax' ymin' ymax' zmin' zmax' refLevel',
    initialize skip' (unitCube 1 1 1 3 1) xmin' xmax' ymin' ymax' zmin' zmax' refLevel'
    = (true, unitCube 1 1 1 3 1).
Proof.
  apply (initialize_once (fun _ => false) (construct 1 1 1 4 4 4 3)
           0%float 1%float 0%float 1%float 0%float 1%float 1).
  vm_compute. reflexivity.
Defined.

Lemma flat_map_bind {A B : Type} (f : A -> list B) (l : list A) : flat_map f l = l ≫= f.
Proof. induction l as [|x l IH]; [reflexivity|]. cbn. rewrite IH. reflexivity. Qed.

(** The cells the three loops of [initialize] run through. *)
Lemma in_cells X Y Z0 i j k :
  In (i, j, k)
     (flat_map (fun k => flat_map (fun j => map (fun i => (i, j, k)) (seqZ 0 X)) (seqZ 0 Y))
        (seqZ 0 Z0))
  <-> 0 <= i < X /\ 0 <= j < Y /\ 0 <= k < Z0.
Proof.
  rewrite in_flat_map. split.
  - intros (k' & Hk & Hin). apply in_flat_map in Hin. destruct Hin as (j' & Hj & Hin).
    apply in_map_iff in Hin. destruct Hin as (i' & E & Hi). inversion E; subst.
    apply list_elem_of_In, elem_of_seqZ in Hi, Hj, Hk. lia.
  - intros (Hi & Hj & Hk). exists k. split; [apply list_elem_of_In, elem_of_seqZ; lia|].
    apply in_flat_map. exists j. split; [apply list_elem_of_In, elem_of_seqZ; lia|].
    apply in_map_iff. exists i. split; [reflexivity|apply list_elem_of_In, elem_of_seqZ; lia].
Qed.

Lemma length_cells X Y Z0 :
  length (flat_map (fun k => flat_map (fun j => map (fun i => (i, j, k)) (seqZ 0 X)) (seqZ 0 Y))
            (seqZ 0 Z0))
  = (Z.to_nat Z0 * (Z.to_nat Y * Z.to_nat X))%nat.
Proof.
  rewrite (flat_map_constant_length (c := (Z.to_nat Y * Z.to_nat X)%nat)).
  - rewrite length_seqZ. reflexivity.
  - intros k _. rewrite (flat_map_constant_length (c := Z.to_nat X)).
    + rewrite length_seqZ. reflexivity.
    + intros j _. rewrite length_map, length_seqZ. reflexivity.
Qed.

Lemma NoDup_cells X Y Z0 :
  List.NoDup
    (flat_map (fun k => flat_map (fun j => map (fun i => (i, j, k)) (seqZ 0 X)) (seqZ 0 Y))
       (seqZ 0 Z0)).
Proof.
  apply NoDup_ListNoDup. rewrite flat_map_bind. apply NoDup_bind; [| |apply NoDup_seqZ].
  - intros k1 k2 [[i j] k] _ _ H1 H2. apply list_elem_of_In in H1, H2.
    apply in_flat_map in H1, H2. destruct H1 as (j1 & _ & H1), H2 as (j2 & _ & H2).
    apply in_map_iff in H1, H2. destruct H1 as (i1 & E1 & _), H2 as (i2 & E2 & _).
    congruence.
  - intros k _. rewrite flat_map_bind. apply NoDup_bind; [| |apply NoDup_seqZ].
    + intros j1 j2 [[i j] k'] _ _ H1 H2. apply list_elem_of_In in H1, H2.
      apply in_map_iff in H1, H2. destruct H1 as (i1 & E1 & _), H2 as (i2 & E2 & _).
      congruence.
    + intros j _.
      assert (Hinj : Inj eq eq (fun i : Z => (i, j, k))) by (intros a b E; congruence).
      exact (NoDup_fmap_2 (fun i : Z => (i, j, k)) (seqZ 0 X) (NoDup_seqZ 0 X)).
Qed.

(** The loop of [initialize] on cells with distinct ids that are not in the
    table: one entry more for every draw that keeps the block. *)
Lemma initialize_loop_size M (skip : nat -> bool) (lid : GlobalID -> LocalID) r :
  forall (cells : list (Z * Z * Z)) (n0 : nat) (m0 : gmap Z Z),
  List.NoDup (map (fun c : Z * Z * Z => getGlobalID M r (fst (fst c)) (snd (fst c)) (snd c)) cells) ->
  (forall i j k, In (i, j, k) cells -> m0 !! getGlobalID M r i j k = None) ->
  base.size (snd (fold_left (fun (st : nat * gmap Z Z) (c : Z * Z * Z) =>
                    let '(n, m) := st in
                    let '(i, j, k) := c in
                    if skip n then (S n, m)
                    else (S n, map_insert (getGlobalID M r i j k)
                                 (lid (getGlobalID M r i j k)) m))
                  cells (n0, m0)))
  = (base.size m0 + length (List.filter (fun n => negb (skip n)) (seq n0 (length cells))))%nat.
Proof.
  induction cells as [|[[i j] k] rest IH]; intros n0 m0 Hnd Hnone; cbn [fold_left length seq List.filter].
  - cbn. lia.
  - cbn [map fst snd] in Hnd. inversion Hnd as [|? ? Hnot Hnd']; subst.
    pose proof (Hnone i j k (or_introl eq_refl)) as E.
    destruct (skip n0) eqn:Es; cbn [List.filter]; rewrite ?Es; cbn [negb].
    + apply IH; [exact Hnd'|]. intros i' j' k' Hin. apply Hnone. right; exact Hin.
    + rewrite IH; [|exact Hnd'|].
      * rewrite (size_map_insert_new _ _ _ E). cbn [length]. lia.
      * intros i' j' k' Hin. rewrite (map_insert_fresh _ _ _ E). rewrite lookup_insert_ne.
        -- apply Hnone. right; exact Hin.
        -- intros Eq. apply Hnot. rewrite Eq.
           apply (in_map (fun c : Z * Z * Z => getGlobalID M r (fst (fst c)) (snd (fst c)) (snd c))
                    rest (i', j', k') Hin).
Qed.

(** The number of blocks after the constructor and [initialize]: one for
    every draw of [rand()] that keeps its block, out of
    [Nx0*Ny0*Nz0*8^refLevel] draws; all of them when no draw skips. *)
Theorem initialize_count skip Nx0 Ny0 Nz0 xCells yCells zCells maxRefLevel
    xmin xmax ymin ymax zmin zmax refLevel :
  1 <= Nx0 -> 1 <= Ny0 -> 1 <= Nz0 -> 0 <= refLevel <= maxRefLevel ->
  Nx0 * Ny0 * Nz0 * 8 ^ maxRefLevel < 2 ^ 32 ->
  exists M',
    initialize skip (construct Nx0 Ny0 Nz0 xCells yCells zCells maxRefLevel)
      xmin xmax ymin ymax zmin zmax refLevel = (true, M')
    /\ size M' = length (List.filter (fun n => negb (skip n))
                           (seq 0 (Z.to_nat (Nx0 * Ny0 * Nz0 * 8 ^ refLevel))))
    /\ ((forall n, skip n = false) ->
        Z.of_nat (size M') = Nx0 * Ny0 * Nz0 * 8 ^ refLevel).
Proof.
  intros Hx Hy Hz Hr Hsmall.
  assert (H8 : 1 <= 8 ^ maxRefLevel) by (apply (Z.pow_le_mono_r 8 0); lia).
  assert (HN : 0 <= Nx0 * Ny0 * Nz0 < 2 ^ 32) by nia.
  unfold initialize, construct.
  cbn [initialized refLevelMaxAllowed bbox N_blocks0 globalIDs meshLimits offsets
       callbackCoarsenBlock callbackCreateBlock callbackDeleteBlock callbackRefineBlock].
  destruct (Z.ltb_spec maxRefLevel refLevel) as [|_]; [lia|].
  rewrite (wrap32_small (Nx0 * Ny0 * Nz0)) by exact HN.
  set (B := [Nx0; Ny0; Nz0; xCells; yCells; zCells]).
  set (M1 := mkAmrMesh B (Nx0 * Ny0 * Nz0) maxRefLevel false
               (buildOffsets (Nx0 * Ny0 * Nz0) maxRefLevel) [] ∅ None None None None).
  assert (HF : fits M1).
  { unfold fits, M1, bboxAt, B. cbn. repeat split; try lia. }
  assert (Hv0 : validAddr M1 refLevel 0 0 0).
  { assert (0 < 2 ^ refLevel) by (apply Z.pow_pos_nonneg; lia).
    unfold validAddr, M1, bboxAt, B. cbn. repeat split; try lia; nia. }
  pose proof (validAddr_bounds M1 HF _ _ _ _ Hv0) as (_ & _ & _ & HX & HY & HZ).
  assert (Hp : 0 < 2 ^ refLevel < 2 ^ 32).
  { assert (0 < 2 ^ refLevel) by (apply Z.pow_pos_nonneg; lia).
    unfold M1, bboxAt, B in HX. cbn in HX. nia. }
  rewrite (double_to_uint32_small (2 ^ refLevel)) by lia.
  unfold bboxAt, M1, B in HX, HY, HZ. cbn in HX, HY, HZ.
  unfold bboxAt. cbn [nth bbox].
  change (nth 0 B 0) with Nx0. change (nth 1 B 0) with Ny0. change (nth 2 B 0) with Nz0.
  rewrite (wrap32_small (Nx0 * 2 ^ refLevel)), (wrap32_small (Ny0 * 2 ^ refLevel)),
    (wrap32_small (Nz0 * 2 ^ refLevel)) by lia.
  match goal with |- context [fold_left ?f ?cells ?st] =>
    pose proof (initialize_loop_size M1 skip (fun _ => INVALID_LOCALID) refLevel cells 0 ∅) as Hloop;
    destruct (fold_left f cells st) as [n m] eqn:Efold
  end.
  cbn [snd] in Hloop.
  eexists. split; [reflexivity|]. unfold size. cbn [globalIDs].
  assert (Hlen : (Z.to_nat (Nz0 * 2 ^ refLevel)
                  * (Z.to_nat (Ny0 * 2 ^ refLevel) * Z.to_nat (Nx0 * 2 ^ refLevel)))%nat
                 = Z.to_nat (Nx0 * Ny0 * Nz0 * 8 ^ refLevel)).
  { rewrite <- !Z2Nat.inj_mul by lia. f_equal. rewrite pow8_split by lia. lia. }
  rewrite length_cells, Hlen in Hloop.
  assert (Hsize : base.size m = length (List.filter (fun n => negb (skip n))
                    (seq 0 (Z.to_nat (Nx0 * Ny0 * Nz0 * 8 ^ refLevel))))).
  { rewrite Hloop; [rewrite map_size_empty; reflexivity| |intros; apply lookup_empty].
    apply Finite.Injective_map_NoDup_in; [|apply NoDup_cells].
    intros [[i j] k] [[i' j'] k'] Hin Hin' E. cbn [fst snd] in E.
    apply in_cells in Hin, Hin'.
    assert (Hv : validAddr M1 refLevel i j k)
      by (unfold validAddr, bboxAt, M1, B; cbn; lia).
    assert (Hv' : validAddr M1 refLevel i' j' k')
      by (unfold validAddr, bboxAt, M1, B; cbn; lia).
    pose proof (getGlobalID_inj M1 HF _ _ _ _ _ _ _ _ Hv Hv' E) as Hinj. congruence. }
  split; [exact Hsize|].
  intros Hnone. rewrite Hsize.
  assert (Hall : forall l, List.filter (fun n => negb (skip n)) l = l).
  { induction l as [|a l IHl]; [reflexivity|]. cbn [List.filter]. rewrite (Hnone a). cbn. f_equal.
    exact IHl. }
  rewrite Hall, length_seq. rewrite Z2Nat.id; [reflexivity|].
  assert (0 < 8 ^ refLevel) by (apply Z.pow_pos_nonneg; lia). nia.
Qed.

Lemma initialize_count_witness :
  exists M',
    initialize (fun _ => false) (construct 2 1 1 4 4 4 2)
      0%float 2%float 0%float 1%float 0%float 1%float 1 = (true, M')
    /\ size M' = length (List.filter (fun n : nat => negb false)
                           (seq 0 (Z.to_nat (2 * 1 * 1 * 8 ^ 1))))
    /\ ((forall n : nat, false = false) -> Z.of_nat (size M') = 2 * 1 * 1 * 8 ^ 1).
Proof.
  apply (initialize_count (fun _ => false) 2 1 1 4 4 4 2); lia.
Defined.

End AmrFacts.

(* ===================================================================== *)
(** * Facts about the readers *)
(* ===================================================================== *)

Module VlsvFacts.
Import Machine MachineFacts vlsv Scenarios.

(** ** readArray *)

(** C9.  On an open reader a read of zero elements returns [true] and leaves
    the reader (footer, stream, [arrayOpen]) and the buffer as they are,
    whatever the footer holds for the tag. *)
Theorem readArray_zero_amount r name attribs begin buffer :
  fileOpen r = true ->
  readArray r name attribs begin 0 buffer = (true, r, buffer).
Proof. intros Ho. unfold readArray. rewrite Ho. reflexivity. Qed.

Lemma readArray_zero_amount_witness :
  xmlReader readerA "B" [] = None /\
  readArray readerA "B" [] 7 0 [Byte.xff] = (true, readerA, [Byte.xff]).
Proof.
  split; [reflexivity|].
  apply (readArray_zero_amount readerA "B" [] 7 [Byte.xff]). reflexivity.
Defined.

Lemma fileRange_length bytes start n : 0 <= n ->
  Z.of_nat (length (fileRange bytes start n)) <= n.
Proof.
  intros Hn. unfold fileRange. rewrite length_firstn. lia.
Qed.




(** ** getArrayInfo in the process group *)

Lemma loadArray_not_found r name attribs :
  xmlReader r name attribs = None -> loadArray r name attribs = (false, r).
Proof. intros H. unfold loadArray. rewrite H. destruct (fileOpen r); reflexivity. Qed.

Lemma nth_map_const {A B : Type} (v : B) (l : list A) : forall p, nth p (map (fun _ => v) l) v = v.
Proof. induction l as [|a l IH]; intros [|p]; cbn; auto. Qed.

(** C8.  When [loadArray] fails on the master, every process of the group
    returns [false] from [getArrayInfo] after one collective call, the
    broadcast of the flag; no member of [arrayOpen] is broadcast, and every
    other process keeps its reader as it was. *)
Theorem getArrayInfo_master_failure masterRank procs name attribs rm :
  procs !! masterRank = Some rm ->
  fst (loadArray rm name attribs) = false ->
  length (getArrayInfo masterRank procs name attribs) = length procs /\
  forall p r, procs !! p = Some r ->
    exists res, getArrayInfo masterRank procs name attribs !! p = Some res /\
      returned res = false /\
      collectives res = [BcastSuccess] /\
      reader res = (if Nat.eqb p masterRank then snd (loadArray rm name attribs) else r).
Proof.
  intros Hm Hfail. unfold getArrayInfo.
  set (local := imap (fun myRank r =>
                        if Nat.eqb myRank masterRank then loadArray r name attribs
                        else (true, r)) procs).
  assert (Hlm : local !! masterRank = Some (loadArray rm name attribs)).
  { unfold local. rewrite list_lookup_imap, Hm. cbn. rewrite Nat.eqb_refl. reflexivity. }
  assert (Hflags : MPI_Bcast masterRank
                     (map (fun x : bool * VLSVReader => if fst x then 1 else 0) local)
                   = map (fun _ => 0) (map (fun x : bool * VLSVReader => if fst x then 1 else 0) local)).
  { unfold MPI_Bcast.
    change (map (fun x : bool * VLSVReader => if fst x then 1 else 0) local)
      with ((fun x : bool * VLSVReader => if fst x then 1 else 0) <$> local).
    rewrite list_lookup_fmap, Hlm. cbn [fmap option_fmap option_map]. rewrite Hfail. reflexivity. }
  rewrite Hflags.
  rewrite (imap_ext _ (fun (_ : nat) (x : bool * VLSVReader) => mkResult false (snd x) [BcastSuccess]) local).
  2:{ intros i x _. rewrite nth_map_const. reflexivity. }
  split.
  - rewrite length_imap. unfold local. rewrite length_imap. reflexivity.
  - intros p r Hp. eexists. split.
    + rewrite list_lookup_imap. unfold local. rewrite list_lookup_imap, Hp. cbn. reflexivity.
    + cbn [returned collectives reader]. split; [reflexivity|]. split; [reflexivity|].
      destruct (Nat.eqb_spec p masterRank) as [->|Hne]; [|reflexivity].
      rewrite Hm in Hp. injection Hp as ->. reflexivity.
Qed.

Lemma getArrayInfo_master_failure_witness :
  xmlReader readerA "B" [] = None /\
  exists res, getArrayInfo 1 [worker; readerA; worker] "B" [] !! 2%nat = Some res /\
    returned res = false /\ collectives res = [BcastSuccess] /\ reader res = worker.
Proof.
  split; [reflexivity|].
  apply (proj2 (getArrayInfo_master_failure 1 [worker; readerA; worker] "B" [] readerA
                  eq_refl eq_refl) 2%nat worker eq_refl).
Defined.

(** ** The reader and its metadata queries *)

(** [loadArray] and the six-argument [getArrayInfo] read the same tag the
    same way: [loadArray] succeeds exactly when [getArrayInfo] succeeds with
    three sizes that are not zero, and [arrayOpen] then holds the four values
    [getArrayInfo] gives.  [getArrayInfo] accepts an array of size zero,
    [loadArray] does not. *)
Theorem loadArray_getArrayInfo r name attribs a v d s :
  let load := loadArray r name attribs in
  let info := VLSVReader_getArrayInfo r name attribs a v d s in
  let '(a', v', d', s') := snd info in
  (fst load = true <-> fst info = true /\ a' <> 0 /\ v' <> 0 /\ s' <> 0)
  /\ (fst load = true ->
      arraySize (arrayOpen (snd load)) = a' /\ vectorSize (arrayOpen (snd load)) = v'
      /\ dataType (arrayOpen (snd load)) = d' /\ dataSize (arrayOpen (snd load)) = s').
Proof.
  unfold loadArray, VLSVReader_getArrayInfo.
  destruct (fileOpen r); cbn [negb fst snd].
  2:{ split; [split; [discriminate|intros [? _]; discriminate]|discriminate]. }
  destruct (xmlReader r name attribs) as [node|]; cbn [fst snd].
  2:{ split; [split; [discriminate|intros [? _]; discriminate]|discriminate]. }
  destruct (datatypeOfLoad (attribute node "datatype")) as [dt|]; cbn [fst snd].
  2:{ split; [split; [discriminate|intros [? _]; discriminate]|discriminate]. }
  cbn [arraySize vectorSize dataSize dataType setDataType copyArrayInfo].
  destruct (Z.eqb_spec (wrap64 (atoi (attribute node "arraysize"))) 0) as [Ea|Ea]; cbn [fst snd].
  { split; [split; [discriminate|intros (_ & H & _); contradiction]|discriminate]. }
  destruct (Z.eqb_spec (wrap64 (atoi (attribute node "vectorsize"))) 0) as [Ev|Ev]; cbn [fst snd].
  { split; [split; [discriminate|intros (_ & _ & H & _); contradiction]|discriminate]. }
  destruct (Z.eqb_spec (wrap64 (atoi (attribute node "datasize"))) 0) as [Es|Es]; cbn [fst snd].
  { split; [split; [discriminate|intros (_ & _ & _ & H); contradiction]|discriminate]. }
  cbn [arrayOpen setArrayOpen arraySize vectorSize dataSize dataType].
  split; [split; auto|auto].
Qed.

(** An array whose [datatype] attribute is "unknown": [loadArray] accepts it
    (with sizes that are not zero), and [readArray] refuses every read of one
    element or more, leaving the buffer and the stream as they are. *)
Theorem readArray_refuses_unknown r name attribs begin amount buffer node :
  fileOpen r = true -> xmlReader r name attribs = Some node ->
  attribute node "datatype" = "unknown" -> amount <> 0 ->
  (fst (fst (readArray r name attribs begin amount buffer)) = false
   /\ snd (readArray r name attribs begin amount buffer) = buffer
   /\ filein (snd (fst (readArray r name attribs begin amount buffer))) = filein r)
  /\ (wrap64 (atoi (attribute node "arraysize")) <> 0 ->
      wrap64 (atoi (attribute node "vectorsize")) <> 0 ->
      wrap64 (atoi (attribute node "datasize")) <> 0 ->
      fst (loadArray r name attribs) = true
      /\ dataType (arrayOpen (snd (loadArray r name attribs))) = UNKNOWN).
Proof.
  intros Ho Hn Hd Ha. unfold readArray, loadArray. rewrite Ho, Hn, Hd. cbn [negb].
  destruct (Z.eqb_spec amount 0) as [|_]; [contradiction|].
  split; [repeat split|].
  intros H1 H2 H3. cbn [datatypeOfLoad String.eqb Ascii.eqb Bool.eqb].
  cbn [arraySize vectorSize dataSize setDataType copyArrayInfo].
  destruct (Z.eqb_spec (wrap64 (atoi (attribute node "arraysize"))) 0); [contradiction|].
  destruct (Z.eqb_spec (wrap64 (atoi (attribute node "vectorsize"))) 0); [contradiction|].
  destruct (Z.eqb_spec (wrap64 (atoi (attribute node "datasize"))) 0); [contradiction|].
  split; reflexivity.
Qed.

Lemma readArray_refuses_unknown_witness :
  fst (fst (readArray readerU "A" [] 0 1 [Byte.xff])) = false
  /\ fst (loadArray readerU "A" []) = true.
Proof.
  destruct (readArray_refuses_unknown readerU "A" [] 0 1 [Byte.xff] nodeU eq_refl eq_refl)
    as [(H1 & _) H2]; [reflexivity|lia|].
  split; [exact H1|]. apply H2; vm_compute; discriminate.
Defined.

(** A tag without an [arraysize], [vectorsize] or [datasize] attribute is
    read as an array of size zero: [loadArray] refuses it, and so does
    [readArray] for every read of one element or more, leaving the buffer
    and the stream as they are. *)
Theorem missing_size_refused r name attribs begin amount buffer node :
  fileOpen r = true -> xmlReader r name attribs = Some node ->
  attributes node !! "arraysize" = None \/ attributes node !! "vectorsize" = None
  \/ attributes node !! "datasize" = None ->
  amount <> 0 ->
  fst (loadArray r name attribs) = false
  /\ fst (fst (readArray r name attribs begin amount buffer)) = false
  /\ snd (readArray r name attribs begin amount buffer) = buffer
  /\ filein (snd (fst (readArray r name attribs begin amount buffer))) = filein r.
Proof.
  intros Ho Hn Hmiss Ha. unfold readArray, loadArray. rewrite Ho, Hn. cbn [negb].
  destruct (Z.eqb_spec amount 0) as [|_]; [contradiction|].
  assert (Hz : wrap64 (atoi (attribute node "arraysize")) = 0
               \/ wrap64 (atoi (attribute node "vectorsize")) = 0
               \/ wrap64 (atoi (attribute node "datasize")) = 0).
  { unfold attribute. destruct Hmiss as [E|[E|E]]; rewrite E; cbn [default];
      [left|right; left|right; right]; reflexivity. }
  cbn [arraySize vectorSize dataSize setDataType copyArrayInfo].
  split.
  - destruct (datatypeOfLoad (attribute node "datatype")); [|reflexivity].
    cbn [arraySize vectorSize dataSize setDataType copyArrayInfo].
    destruct (Z.eqb_spec (wrap64 (atoi (attribute node "arraysize"))) 0); [reflexivity|].
    destruct (Z.eqb_spec (wrap64 (atoi (attribute node "vectorsize"))) 0); [reflexivity|].
    destruct (Z.eqb_spec (wrap64 (atoi (attribute node "datasize"))) 0); [reflexivity|].
    exfalso. tauto.
  - destruct (datatypeOfRead (attribute node "datatype")); [|repeat split].
    cbn [arraySize vectorSize dataSize setDataType copyArrayInfo].
    destruct (Z.eqb_spec (wrap64 (atoi (attribute node "arraysize"))) 0); [repeat split|].
    destruct (Z.eqb_spec (wrap64 (atoi (attribute node "vectorsize"))) 0); [repeat split|].
    destruct (Z.eqb_spec (wrap64 (atoi (attribute node "datasize"))) 0); [repeat split|].
    exfalso. tauto.
Qed.

Lemma missing_size_refused_witness :
  fst (loadArray readerNoSize "A" []) = false
  /\ fst (fst (readArray readerNoSize "A" [] 0 1 [Byte.xff])) = false
  /\ snd (readArray readerNoSize "A" [] 0 1 [Byte.xff]) = [Byte.xff]
  /\ filein (snd (fst (readArray readerNoSize "A" [] 0 1 [Byte.xff]))) = filein readerNoSize.
Proof.
  apply (missing_size_refused readerNoSize "A" [] 0 1 [Byte.xff] nodeNoSize eq_refl eq_refl).
  - left. reflexivity.
  - lia.
Defined.

(** The result of [readArray] and the buffer do not depend on the state
    earlier calls left behind (the stream position and its error state, the
    cached [arrayOpen]): two readers of the same file with the same footer
    give the same answer. *)
Theorem readArray_stateless r1 r2 name attribs begin amount buffer :
  fileOpen r1 = fileOpen r2 -> xmlReader r1 = xmlReader r2 ->
  content (filein r1) = content (filein r2) ->
  fst (fst (readArray r1 name attribs begin amount buffer))
  = fst (fst (readArray r2 name attribs begin amount buffer))
  /\ snd (readArray r1 name attribs begin amount buffer)
     = snd (readArray r2 name attribs begin amount buffer).
Proof.
  intros Ho Hx Hc. unfold readArray. rewrite Ho, Hx.
  destruct (fileOpen r2); cbn [negb]; [|split; reflexivity].
  destruct (amount =? 0); [split; reflexivity|].
  destruct (xmlReader r2 name attribs) as [node|]; [|split; reflexivity].
  destruct (datatypeOfRead (attribute node "datatype")) as [d|]; [|split; reflexivity].
  cbn [arraySize vectorSize dataSize offset setDataType copyArrayInfo arrayOpen setArrayOpen filein].
  destruct (_ =? 0); [split; reflexivity|].
  destruct (_ =? 0); [split; reflexivity|].
  destruct (_ =? 0); [split; reflexivity|].
  destruct (_ <? _); [split; reflexivity|].
  unfold seekRead. rewrite Hc.
  destruct (_ <? 0); cbn [gcount negb]; [|].
  - destruct (_ =? _); split; reflexivity.
  - destruct (_ =? _); split; reflexivity.
Qed.

Lemma readArray_stateless_witness :
  let r' := snd (fst (readArray readerA "A" [] 1 2 [Byte.xff; Byte.xff; Byte.xff; Byte.xff])) in
  fst (fst (readArray readerA "A" [] 0 1 [Byte.xff]))
  = fst (fst (readArray r' "A" [] 0 1 [Byte.xff]))
  /\ snd (readArray readerA "A" [] 0 1 [Byte.xff]) = snd (readArray r' "A" [] 0 1 [Byte.xff]).
Proof.
  cbv zeta. apply readArray_stateless; reflexivity.
Defined.

Lemma fileRange_app bytes start n1 n2 : 0 <= start -> 0 <= n1 -> 0 <= n2 ->
  fileRange bytes start (n1 + n2)
  = fileRange bytes start n1 ++ fileRange bytes (start + n1) n2.
Proof.
  intros Hs H1 H2. unfold fileRange.
  rewrite !Z2Nat.inj_add by lia.
  rewrite <- take_take_drop, drop_drop. reflexivity.
Qed.

Section InRange.
Variable r : VLSVReader.
Variable name : string.
Variable attribs : Attribs.
Variable node : XMLNode.
Hypothesis Ho : fileOpen r = true.
Hypothesis Hn : xmlReader r name attribs = Some node.

Local Abbreviation vs := (wrap64 (atoi (attribute node "vectorsize"))).
Local Abbreviation ds := (wrap64 (atoi (attribute node "datasize"))).
Local Abbreviation declared := (wrap64 (atoi (attribute node "arraysize"))).
Local Abbreviation off := (atoi (value node)).

(** A read of a range that fits the 64-bit types: the flag tells whether
    the file had all the bytes, and the buffer starts with the bytes the
    file had. *)
Lemma readArray_in_range begin amount buffer d :
  datatypeOfRead (attribute node "datatype") = Some d ->
  declared <> 0 -> vs <> 0 -> ds <> 0 ->
  0 < amount -> 0 <= begin -> begin + amount <= declared ->
  0 <= off -> off + (begin + amount) * vs * ds < 2 ^ 63 ->
  let data := fileRange (content (filein r)) (off + begin * vs * ds) (amount * vs * ds) in
  let res := readArray r name attribs begin amount buffer in
  fst (fst res) = (Z.of_nat (length data) =? amount * vs * ds)
  /\ snd res = data ++ skipn (length data) buffer
  /\ fileOpen (snd (fst res)) = true
  /\ xmlReader (snd (fst res)) = xmlReader r
  /\ content (filein (snd (fst res))) = content (filein r).
Proof.
  intros Hd Hdecl Hvs Hds Ha Hb Hrange Hoff Hext. cbv zeta.
  pose proof (wrap64_range (atoi (attribute node "vectorsize"))) as Hv.
  pose proof (wrap64_range (atoi (attribute node "datasize"))) as Hs.
  pose proof (wrap64_range (atoi (attribute node "arraysize"))) as Hdr.
  assert (Hreq : 0 <= amount * vs * ds) by nia.
  assert (Hst : 0 <= begin * vs * ds) by nia.
  assert (Hsplit : (begin + amount) * vs * ds = begin * vs * ds + amount * vs * ds) by lia.
  unfold readArray. rewrite Ho, Hn, Hd. cbn [negb].
  destruct (Z.eqb_spec amount 0) as [E0|_]; [lia|].
  cbn [arraySize vectorSize dataSize offset setDataType copyArrayInfo arrayOpen setArrayOpen filein].
  destruct (Z.eqb_spec declared 0); [contradiction|].
  destruct (Z.eqb_spec vs 0); [contradiction|].
  destruct (Z.eqb_spec ds 0); [contradiction|].
  rewrite (wrap64_small (begin + amount)) by lia.
  destruct (Z.ltb_spec declared (begin + amount)); [lia|].
  rewrite (signed64_small (off + begin * vs * ds)) by lia.
  rewrite (signed64_small (amount * vs * ds)) by lia.
  unfold seekRead.
  destruct (Z.ltb_spec (off + begin * vs * ds) 0); [lia|].
  cbn [gcount].
  destruct (Z.eqb_spec (Z.of_nat (length (fileRange (content (filein r))
              (off + begin * vs * ds) (amount * vs * ds)))) (amount * vs * ds));
    cbn [negb fst snd fileOpen xmlReader filein setFilein setArrayOpen content];
    repeat split; first [reflexivity | exact Ho].
Qed.

(** What a successful read tells about the tag. *)
Lemma readArray_true_inv begin amount buffer :
  0 < amount -> 0 <= begin -> begin + amount < 2 ^ 64 ->
  fst (fst (readArray r name attribs begin amount buffer)) = true ->
  exists d, datatypeOfRead (attribute node "datatype") = Some d
    /\ declared <> 0 /\ vs <> 0 /\ ds <> 0 /\ begin + amount <= declared.
Proof.
  intros Ha Hb Hsum. unfold readArray. rewrite Ho, Hn. cbn [negb].
  destruct (Z.eqb_spec amount 0) as [E0|_]; [lia|].
  destruct (datatypeOfRead (attribute node "datatype")) as [d|]; [|discriminate].
  cbn [arraySize vectorSize dataSize offset setDataType copyArrayInfo arrayOpen setArrayOpen filein].
  destruct (Z.eqb_spec declared 0); [discriminate|].
  destruct (Z.eqb_spec vs 0); [discriminate|].
  destruct (Z.eqb_spec ds 0); [discriminate|].
  rewrite (wrap64_small (begin + amount)) by lia.
  destruct (Z.ltb_spec declared (begin + amount)); [discriminate|].
  intros _. exists d. repeat split; assumption.
Qed.
End InRange.

(** Reading in two pieces.  When a read of [a1 + a2] elements succeeds, the
    read of the first [a1] and then, on the reader the first read leaves,
    the read of the next [a2] behind it in the buffer both succeed and leave
    the buffer the single read leaves. *)
Theorem readArray_split r name attribs begin a1 a2 buffer node :
  fileOpen r = true -> xmlReader r name attribs = Some node ->
  0 < a1 -> 0 < a2 -> 0 <= begin -> begin + (a1 + a2) < 2 ^ 64 ->
  0 <= atoi (value node) ->
  atoi (value node)
  + (begin + (a1 + a2)) * wrap64 (atoi (attribute node "vectorsize"))
    * wrap64 (atoi (attribute node "datasize")) < 2 ^ 63 ->
  fst (fst (readArray r name attribs begin (a1 + a2) buffer)) = true ->
  let n1 := Z.to_nat (a1 * wrap64 (atoi (attribute node "vectorsize"))
                      * wrap64 (atoi (attribute node "datasize"))) in
  let first := readArray r name attribs begin a1 buffer in
  let second := readArray (snd (fst first)) name attribs (begin + a1) a2
                  (skipn n1 (snd first)) in
  fst (fst first) = true /\ fst (fst second) = true
  /\ firstn n1 (snd first) ++ snd second
     = snd (readArray r name attribs begin (a1 + a2) buffer).
Proof.
  intros Ho Hn H1 H2 Hb Hsum Hoff Hext Hok. cbv zeta.
  destruct (readArray_true_inv r name attribs node Ho Hn begin (a1 + a2) buffer
              ltac:(lia) Hb Hsum Hok) as (d & Hd & Hdecl & Hvs & Hds & Hrange).
  pose proof (wrap64_range (atoi (attribute node "vectorsize"))) as Hv.
  pose proof (wrap64_range (atoi (attribute node "datasize"))) as Hs.
  set (vs := wrap64 (atoi (attribute node "vectorsize"))) in *.
  set (ds := wrap64 (atoi (attribute node "datasize"))) in *.
  set (off := atoi (value node)) in *.
  assert (Hp1 : 0 <= a1 * vs * ds) by nia.
  assert (Hp2 : 0 <= a2 * vs * ds) by nia.
  assert (Hpb : 0 <= begin * vs * ds) by nia.
  destruct (readArray_in_range r name attribs node Ho Hn begin (a1 + a2) buffer d Hd Hdecl Hvs Hds
              ltac:(lia) Hb Hrange Hoff Hext) as (E12 & B12 & _).
  destruct (readArray_in_range r name attribs node Ho Hn begin a1 buffer d Hd Hdecl Hvs Hds
              H1 Hb ltac:(lia) Hoff ltac:(fold vs ds off; nia)) as (E1 & B1 & Ho1 & Hx1 & Hc1).
  set (first := readArray r name attribs begin a1 buffer) in *.
  assert (Hn1 : xmlReader (snd (fst first)) name attribs = Some node) by (rewrite Hx1; exact Hn).
  destruct (readArray_in_range (snd (fst first)) name attribs node Ho1 Hn1 (begin + a1) a2
              (skipn (Z.to_nat (a1 * vs * ds)) (snd first)) d Hd Hdecl Hvs Hds
              H2 ltac:(lia) ltac:(lia) Hoff
              ltac:(fold vs ds off; replace (begin + a1 + a2) with (begin + (a1 + a2)) by lia;
                    exact Hext)) as (E2 & B2 & _).
  fold vs ds off in E12, B12, E1, B1, E2, B2. rewrite Hc1 in E2, B2.
  rewrite Hok in E12. symmetry in E12. apply Z.eqb_eq in E12.
  replace ((a1 + a2) * vs * ds) with (a1 * vs * ds + a2 * vs * ds) in * by lia.
  replace (off + (begin + a1) * vs * ds) with (off + begin * vs * ds + a1 * vs * ds) in * by lia.
  rewrite (fileRange_app (content (filein r)) (off + begin * vs * ds) (a1 * vs * ds)
             (a2 * vs * ds) ltac:(lia) Hp1 Hp2) in E12, B12.
  set (d1 := fileRange (content (filein r)) (off + begin * vs * ds) (a1 * vs * ds)) in *.
  set (d2 := fileRange (content (filein r)) (off + begin * vs * ds + a1 * vs * ds)
               (a2 * vs * ds)) in *.
  pose proof (fileRange_length (content (filein r)) (off + begin * vs * ds) (a1 * vs * ds) Hp1)
    as L1. fold d1 in L1.
  pose proof (fileRange_length (content (filein r)) (off + begin * vs * ds + a1 * vs * ds)
                (a2 * vs * ds) Hp2) as L2. fold d2 in L2.
  rewrite length_app, Nat2Z.inj_add in E12.
  assert (Ld1 : Z.of_nat (length d1) = a1 * vs * ds) by lia.
  assert (Ld2 : Z.of_nat (length d2) = a2 * vs * ds) by lia.
  assert (N1 : Z.to_nat (a1 * vs * ds) = length d1) by lia.
  rewrite E1, E2, Ld1, Ld2, !Z.eqb_refl.
  split; [reflexivity|]. split; [reflexivity|].
  rewrite B2, B1, B12, N1.
  rewrite take_app_length, drop_app_length.
  rewrite length_app, <- app_assoc. f_equal. f_equal.
  rewrite drop_drop. reflexivity.
Qed.

Lemma readArray_split_witness :
  let b := [Byte.xff; Byte.xff; Byte.xff; Byte.xff; Byte.xff] in
  let first := readArray readerA "A" [] 1 1 b in
  let second := readArray (snd (fst first)) "A" [] 2 1 (skipn 2 (snd first)) in
  fst (fst first) = true /\ fst (fst second) = true
  /\ firstn 2 (snd first) ++ snd second = snd (readArray readerA "A" [] 1 2 b).
Proof.
  cbv zeta.
  apply (readArray_split readerA "A" [] 1 1 1
           [Byte.xff; Byte.xff; Byte.xff; Byte.xff; Byte.xff] nodeA eq_refl eq_refl);
    try lia; vm_compute; first [reflexivity | congruence].
Defined.

Lemma MPI_Bcast_nth {A : Type} (root : nat) (xs : list A) (v d : A) (p : nat) :
  xs !! root = Some v -> (p < length xs)%nat -> nth p (MPI_Bcast root xs) d = v.
Proof.
  intros Hr Hp. unfold MPI_Bcast. rewrite Hr.
  revert p Hp. induction xs as [|x xs IH]; intros p Hp; cbn [length] in Hp; [lia|].
  destruct p as [|p]; [reflexivity|]. cbn [map nth].
  clear Hr IH. revert p Hp. induction xs as [|y ys IH]; intros p Hp; cbn [length] in Hp; [lia|].
  destruct p as [|p]; [reflexivity|]. cbn [map nth]. apply IH. lia.
Qed.

(** When [loadArray] succeeds on the master, every process of the group
    returns [true] from [getArrayInfo] after the six broadcasts and holds the
    master's offset, sizes and datatype in [arrayOpen]; [tagName] is not
    sent: it is the requested name on the master and what the process had
    elsewhere.  File, stream and footer of every process are as before. *)
Theorem getArrayInfo_master_success masterRank procs name attribs rm :
  procs !! masterRank = Some rm ->
  fst (loadArray rm name attribs) = true ->
  let am := arrayOpen (snd (loadArray rm name attribs)) in
  forall p r, procs !! p = Some r ->
    exists res, getArrayInfo masterRank procs name attribs !! p = Some res /\
      returned res = true /\
      collectives res = [BcastSuccess; BcastOffset; BcastArraySize; BcastVectorSize;
                         BcastDataType; BcastDataSize] /\
      offset (arrayOpen (reader res)) = offset am /\
      arraySize (arrayOpen (reader res)) = arraySize am /\
      vectorSize (arrayOpen (reader res)) = vectorSize am /\
      dataType (arrayOpen (reader res)) = dataType am /\
      dataSize (arrayOpen (reader res)) = dataSize am /\
      tagName (arrayOpen (reader res))
      = (if Nat.eqb p masterRank then name else tagName (arrayOpen r)) /\
      fileOpen (reader res) = fileOpen r /\ filein (reader res) = filein r /\
      xmlReader (reader res) = xmlReader r.
Proof.
  intros Hm Hok am p r Hp. unfold getArrayInfo.
  set (local := imap (fun myRank r =>
                        if Nat.eqb myRank masterRank then loadArray r name attribs
                        else (true, r)) procs).
  assert (Hlm : local !! masterRank = Some (loadArray rm name attribs)).
  { unfold local. rewrite list_lookup_imap, Hm. cbn. rewrite Nat.eqb_refl. reflexivity. }
  assert (Hlp : local !! p = Some (if Nat.eqb p masterRank then loadArray r name attribs
                                   else (true, r))).
  { unfold local. rewrite list_lookup_imap, Hp. reflexivity. }
  assert (Hlen : (p < length local)%nat) by (apply lookup_lt_is_Some; eauto).
  assert (Hb : forall (A : Type) (f : bool * VLSVReader -> A) (d : A),
            nth p (MPI_Bcast masterRank (map f local)) d = f (loadArray rm name attribs)).
  { intros A f d. apply MPI_Bcast_nth.
    - change (map f local) with (f <$> local). rewrite list_lookup_fmap, Hlm. reflexivity.
    - rewrite length_map. exact Hlen. }
  eexists. split.
  { rewrite list_lookup_imap, Hlp. cbn [fmap option_fmap option_map]. reflexivity. }
  rewrite !Hb. rewrite Hok. cbn [Z.eqb returned collectives reader].
  cbn [arrayOpen setArrayOpen offset arraySize vectorSize dataType dataSize tagName
       fileOpen filein xmlReader].
  repeat (split; [reflexivity|]).
  destruct (Nat.eqb_spec p masterRank) as [->|Hne]; cbn [snd].
  - rewrite Hm in Hp. injection Hp as ->.
    assert (Hload : tagName (arrayOpen (snd (loadArray r name attribs))) = name
                    /\ fileOpen (snd (loadArray r name attribs)) = fileOpen r
                    /\ filein (snd (loadArray r name attribs)) = filein r
                    /\ xmlReader (snd (loadArray r name attribs)) = xmlReader r).
    { revert Hok. unfold loadArray. destruct (fileOpen r) eqn:Efo; cbn [negb]; [|discriminate].
      destruct (xmlReader r name attribs) as [node|]; [|discriminate].
      destruct (datatypeOfLoad _); [|discriminate].
      cbn [arraySize vectorSize dataSize setDataType copyArrayInfo].
      destruct (_ =? 0); [discriminate|]. destruct (_ =? 0); [discriminate|].
      destruct (_ =? 0); [discriminate|]. intros _.
      cbn [snd arrayOpen setArrayOpen tagName fileOpen filein xmlReader setDataType copyArrayInfo].
      auto. }
    tauto.
  - repeat split.
Qed.

Lemma getArrayInfo_master_success_witness :
  exists res, getArrayInfo 1 [worker; readerA; worker] "A" [] !! 2%nat = Some res /\
    returned res = true /\ arraySize (arrayOpen (reader res)) = 3 /\
    tagName (arrayOpen (reader res)) = "".
Proof.
  destruct (getArrayInfo_master_success 1 [worker; readerA; worker] "A" [] readerA
              eq_refl eq_refl 2%nat worker eq_refl)
    as (res & Hres & Hret & _ & _ & Has & _ & _ & _ & Htag & _).
  exists res. split; [exact Hres|]. split; [exact Hret|]. split; [exact Has|exact Htag].
Defined.

(** ** Attributes across the process group *)

Lemma c_str_length s : (String.length (c_str s) <= String.length s)%nat.
Proof.
  induction s as [|c s IH]; cbn [c_str String.length]; [lia|].
  destruct (Ascii.eqb c Ascii.zero); cbn [String.length]; lia.
Qed.

Lemma throughBuffer_short last s :
  c_str s = s -> (String.length s < 511)%nat -> throughBuffer last s = Some s.
Proof.
  intros Hc Hl. unfold throughBuffer. rewrite Hc.
  destruct (Nat.ltb_spec (String.length s) 511) as [_|H]; [reflexivity|lia].
Qed.

Lemma insertSorted_perm p l : insertSorted p l ≡ₚ p :: l.
Proof.
  induction l as [|q l IH]; cbn [insertSorted]; [reflexivity|].
  destruct (String.leb (fst p) (fst q)); [reflexivity|].
  rewrite IH. apply Permutation_swap.
Qed.

Lemma sortedEntries_perm m : sortedEntries m ≡ₚ map_to_list m.
Proof.
  unfold sortedEntries. induction (map_to_list m) as [|p l IH]; cbn [foldr]; [reflexivity|].
  rewrite insertSorted_perm, IH. reflexivity.
Qed.

Lemma receiveAttributes_short lastName lastValue l :
  (forall k v, (k, v) ∈ l ->
     c_str k = k /\ (String.length k < 511)%nat /\
     c_str v = v /\ (String.length v < 511)%nat) ->
  NoDup (l.*1) ->
  forall out, exists out',
    receiveAttributes lastName lastValue l out = Some out' /\
    forall k, out' !! k = match list_to_map (M := gmap string string) l !! k with
                          | Some v => Some v
                          | None => out !! k
                          end.
Proof.
  induction l as [|[k v] l IH]; intros Hs Hnd out.
  - exists out. split; [reflexivity|]. intros k. cbn [list_to_map foldr].
    rewrite lookup_empty. reflexivity.
  - cbn [receiveAttributes].
    destruct (Hs k v) as (Hk1 & Hk2 & Hv1 & Hv2); [apply list_elem_of_here|].
    rewrite (throughBuffer_short _ k Hk1 Hk2), (throughBuffer_short _ v Hv1 Hv2).
    cbn [fmap list_fmap fst] in Hnd. apply NoDup_cons in Hnd as [Hnk Hnd].
    destruct (IH (fun k0 v0 H => Hs k0 v0 (list_elem_of_further _ _ _ H)) Hnd (<[k := v]> out))
      as (out' & Hr & Hl).
    exists out'. split; [exact Hr|]. intros x. rewrite Hl.
    cbn [list_to_map foldr]. cbn [uncurry fst snd].
    destruct (decide (x = k)) as [->|Hne].
    + rewrite lookup_insert_eq.
      rewrite (proj1 (not_elem_of_list_to_map (M := gmap string) l k) Hnk ).
      rewrite lookup_insert_eq. reflexivity.
    + rewrite !(lookup_insert_ne _ k x) by congruence. reflexivity.
Qed.

(** When the master finds the tag and every name and value of its
    attributes is free of NUL and shorter than 511 characters, every process
    returns [true]; the master's map is replaced by the attributes of the
    tag, and on every other process they are written over the map the process
    passed in, whose other entries stay. *)
Theorem getArrayAttributes_distributed lastName lastValue masterRank procs name attribsIn
    rm om node :
  procs !! masterRank = Some (rm, om) ->
  fileOpen rm = true -> xmlReader rm name attribsIn = Some node ->
  (forall k v, attributes node !! k = Some v ->
     c_str k = k /\ (String.length k < 511)%nat /\
     c_str v = v /\ (String.length v < 511)%nat) ->
  forall p r out, procs !! p = Some (r, out) ->
    exists out',
      VLSVParReader_getArrayAttributes lastName lastValue masterRank procs name attribsIn !! p
      = Some (Some (true, out')) /\
      forall k, out' !! k = match attributes node !! k with
                            | Some v => Some v
                            | None => if Nat.eqb p masterRank then None else out !! k
                            end.
Proof.
  intros Hm Ho Hx Hshort p r out Hp. unfold VLSVParReader_getArrayAttributes.
  set (local := imap (fun myRank (x : VLSVReader * gmap string string) =>
                        if Nat.eqb myRank masterRank
                        then VLSVReader_getArrayAttributes (fst x) name attribsIn (snd x)
                        else (true, snd x)) procs).
  assert (Hlm : local !! masterRank = Some (true, attributes node)).
  { unfold local. rewrite list_lookup_imap, Hm. cbn. rewrite Nat.eqb_refl.
    unfold VLSVReader_getArrayAttributes. rewrite Ho, Hx. reflexivity. }
  assert (Hlp : local !! p = Some (if Nat.eqb p masterRank then (true, attributes node)
                                   else (true, out))).
  { unfold local. rewrite list_lookup_imap, Hp. cbn.
    destruct (Nat.eqb_spec p masterRank) as [->|Hne]; [|reflexivity].
    rewrite Hm in Hp. injection Hp as <- <-.
    unfold VLSVReader_getArrayAttributes. rewrite Ho, Hx. reflexivity. }
  assert (Hlen : (p < length local)%nat) by (apply lookup_lt_is_Some; eauto).
  assert (Hb : forall (A : Type) (f : bool * gmap string string -> A) (d : A),
            nth p (MPI_Bcast masterRank (map f local)) d = f (true, attributes node)).
  { intros A f d. apply MPI_Bcast_nth.
    - change (map f local) with (f <$> local). rewrite list_lookup_fmap, Hlm. reflexivity.
    - rewrite length_map. exact Hlen. }
  rewrite list_lookup_imap, Hlp. cbn [fmap option_fmap option_map].
  rewrite !Hb. cbn [fst snd Z.eqb].
  destruct (Nat.eqb p masterRank) eqn:Ep; cbn [fst snd].
  - exists (attributes node). split; [reflexivity|]. intros k.
    destruct (attributes node !! k); reflexivity.
  - destruct (receiveAttributes_short lastName lastValue (sortedEntries (attributes node)))
      with (out := out) as (out' & Hr & Hl).
    + intros k v Hin. apply Hshort. apply elem_of_map_to_list.
      rewrite <- (sortedEntries_perm (attributes node)). exact Hin.
    + rewrite (sortedEntries_perm (attributes node)). apply NoDup_fst_map_to_list.
    + exists out'. rewrite Hr. split; [reflexivity|]. intros k. rewrite Hl.
      assert (Heq : list_to_map (M := gmap string string) (sortedEntries (attributes node))
                    = attributes node).
      { rewrite <- (list_to_map_to_list (attributes node)) at 2.
        apply list_to_map_proper.
        - rewrite (sortedEntries_perm (attributes node)). apply NoDup_fst_map_to_list.
        - apply sortedEntries_perm. }
      rewrite Heq. reflexivity.
Qed.

Lemma getArrayAttributes_distributed_witness :
  exists out',
    VLSVParReader_getArrayAttributes Ascii.zero Ascii.zero 0
      [(readerA, ∅); (worker, <["name" := "old"]> (<["datasize" := "8"]> ∅))] "A" [] !! 1%nat
    = Some (Some (true, out')) /\
    forall k, out' !! k = match attributes nodeA !! k with
                          | Some v => Some v
                          | None => if Nat.eqb 1 0 then None
                                    else (<["name" := "old"]> (<["datasize" := "8"]> ∅)
                                            : gmap string string) !! k
                          end.
Proof.
  refine (getArrayAttributes_distributed Ascii.zero Ascii.zero 0
            [(readerA, ∅); (worker, <["name" := "old"]> (<["datasize" := "8"]> ∅))] "A" []
            readerA ∅ nodeA eq_refl eq_refl eq_refl _ 1%nat worker _ eq_refl).
  intros k v H. unfold nodeA in H. cbn [attributes] in H.
  repeat (apply lookup_insert_Some in H as [[<- <-]|[_ H]];
          [repeat split; first [reflexivity | apply Nat.ltb_lt; reflexivity]|]).
  rewrite lookup_empty in H. discriminate H.
Defined.

End VlsvFacts.
